(** * discord-emoji-downloader: the emoji collector and the download pipeline

    A shallow embedding of [src/emoji-processor.ts]: [extractEmojiUrls]
    and [downloadAndProcessEmojis] as [src/index.ts] calls them, with
    names, and the earlier [downloadAndProcessEmojis] that names files by
    position; together with the properties the specification states
    about them.

    JavaScript strings are modelled by [string], one character per code
    unit.  The browser page, the network, the image library and the file
    system are the environment of the program: they appear as parameters
    of the definitions below.  [extractEmojiUrls] is modelled by what its
    [page.evaluate] call computes; the line it logs on Node's console
    before that call plays no part in the properties and is left out. *)

From Stdlib Require Import Ascii String.
From stdpp Require Import base decidable option list gmap strings pretty.

(** ** JavaScript string primitives used by the source *)

Module JsString.

(** [s.includes(t)] *)
Fixpoint includes (s t : string) : bool :=
  match s with
  | EmptyString => String.prefix t EmptyString
  | String _ s' => String.prefix t s || includes s' t
  end.

(** the character class [\d] *)
Definition isDigit (c : ascii) : bool :=
  let n := nat_of_ascii c in (48 <=? n)%nat && (n <=? 57)%nat.

(** the character class [[a-zA-Z0-9_-]] *)
Definition isNameChar (c : ascii) : bool :=
  let n := nat_of_ascii c in
  ((97 <=? n)%nat && (n <=? 122)%nat)
  || ((65 <=? n)%nat && (n <=? 90)%nat)
  || isDigit c
  || Ascii.eqb c "_" || Ascii.eqb c "-".

(** the greedy [\d*] at the head of [s]: what is left after it *)
Fixpoint dropDigits (s : string) : string :=
  match s with
  | String c s' => if isDigit c then dropDigits s' else s
  | EmptyString => EmptyString
  end.

(** [s] without its prefix [p], when it starts with [p] *)
Fixpoint stripPrefix (p s : string) : option string :=
  match p, s with
  | EmptyString, _ => Some s
  | String a p', String b s' =>
      if Ascii.eqb a b then stripPrefix p' s' else None
  | String _ _, EmptyString => None
  end.

(** a match of [/size=\d+/] anchored at the head of [s]: the text that
    follows the match *)
Definition matchSize (s : string) : option string :=
  match stripPrefix "size=" s with
  | Some (String d r) => if isDigit d then Some (dropDigits r) else None
  | _ => None
  end.

(** [s.replace(/size=\d+/, 'size=512')]: the regular expression has no
    [g] flag, so only the leftmost match is replaced *)
Fixpoint replaceSize (s : string) : string :=
  match matchSize s with
  | Some rest => "size=512" +:+ rest
  | None =>
      match s with
      | EmptyString => EmptyString
      | String c s' => String c (replaceSize s')
      end
  end.

(** [s.replace(/^:/, '')] *)
Definition stripLeadingColon (s : string) : string :=
  match s with
  | String ":" s' => s'
  | _ => s
  end.

(** [s.replace(/:$/, '')] *)
Fixpoint stripTrailingColon (s : string) : string :=
  match s with
  | EmptyString => EmptyString
  | String ":" EmptyString => EmptyString
  | String c s' => String c (stripTrailingColon s')
  end.

(** [s.replace(/[^a-zA-Z0-9_-]/g, '_')] *)
Fixpoint sanitize (s : string) : string :=
  match s with
  | EmptyString => EmptyString
  | String c s' => String (if isNameChar c then c else "_"%char) (sanitize s')
  end.

End JsString.

Import JsString.

(** ** The collector: [extractEmojiUrls] *)

(** JavaScript's exceptional results: a value, or a thrown [Error] with
    its message. *)
Inductive result (A : Type) : Type :=
  | Ok (value : A)
  | Throw (message : string).
Arguments Ok {A} value.
Arguments Throw {A} message.

(** An [<img>] element of the picker: its [src] and [alt] properties. *)
Record Img := { src : string; alt : string }.

(** The object pushed to [emojisWithNames]. *)
Record Emoji := { url : string; name : string }.

(** What one pass of the loop observes of the server emoji section: the
    [<img>] elements below it and the class list of its
    [nextElementSibling] ([None] when there is no sibling). *)
Record SectionView := {
  imgs : list Img;
  nextElementSibling : option (list string)
}.

(** The page as [page.evaluate] finds it: whether
    [div[class*="emojiPicker"] div[class*="scroller"]] matches, and, when
    [div[class*="emojiPicker"] div[class*="categorySection"]] matches, what
    the section shows after each number of scroll steps. *)
Record Page := {
  emojiPickerContainer : bool;
  serverEmojiSection : option (nat -> SectionView)
}.

(** What the evaluated function does to the browser besides computing. *)
Inductive Effect :=
  | ConsoleLog (message : string)
  | ScrollBy (pixels : nat)
  | SetTimeout (ms : nat).

Module Collector.

Definition maxScrollAttempts : nat := 50.
Definition scrollIncrement : nat := 200.

(** The local variables of the evaluated function, and the effects
    issued so far (oldest first). *)
Record LoopState := mkLoopState {
  emojiData : gset string;
  emojisWithNames : list Emoji;
  previousEmojiCount : nat;
  scrollAttempts : nat;
  noNewEmojisCount : nat;
  effects : list Effect
}.

Definition initialState : LoopState :=
  mkLoopState ∅ [] 0 0 0 [].

Definition emit (e : Effect) (st : LoopState) : LoopState :=
  mkLoopState (emojiData st) (emojisWithNames st) (previousEmojiCount st)
    (scrollAttempts st) (noNewEmojisCount st) (effects st ++ [e]).

Definition set_noNewEmojisCount (n : nat) (st : LoopState) : LoopState :=
  mkLoopState (emojiData st) (emojisWithNames st) (previousEmojiCount st)
    (scrollAttempts st) n (effects st).

(** the selector [img[src*="cdn.discordapp.com/emojis"]] *)
Definition isEmojiImg (i : Img) : bool :=
  includes (src i) "cdn.discordapp.com/emojis".

Definition querySelectorAll (view : SectionView) : list Img :=
  List.filter isEmojiImg (imgs view).

(** lines 264-272: the URL that is stored *)
Definition normalizeSrc (src0 : string) : string :=
  let isAnimated := includes src0 "animated=true" in
  let src1 := replaceSize src0 in
  if isAnimated && negb (includes src1 "animated=true")
  then src1 +:+ "&animated=true"
  else src1.

(** lines 275-279: the name that is stored *)
Definition cleanName (alt0 : string) : string :=
  sanitize (stripTrailingColon (stripLeadingColon alt0)).

Definition descriptor (emoji : Img) : Emoji :=
  {| url := normalizeSrc (src emoji); name := cleanName (alt emoji) |}.

(** the body of [emojis.forEach] *)
Definition scanEmoji (st : LoopState) (emoji : Img) : LoopState :=
  let d := descriptor emoji in
  if decide (url d ∈ emojiData st)
  then st
  else mkLoopState ({[url d]} ∪ emojiData st) (emojisWithNames st ++ [d])
         (previousEmojiCount st) (scrollAttempts st) (noNewEmojisCount st)
         (effects st).

(** [nextSection && nextSection.classList.contains('categorySection_c656ac')] *)
Definition reachedNextSection (view : SectionView) : bool :=
  match nextElementSibling view with
  | Some classList => bool_decide ("categorySection_c656ac" ∈ classList)
  | None => false
  end.

Inductive Flow :=
  | Break (st : LoopState)
  | Continue (st : LoopState).

(** lines 310-319: the end of the loop body, which scrolls on, waits for
    the picker to render and updates the two counters *)
Definition scrollOn (currentEmojiCount : nat) (st : LoopState) : Flow :=
  let st' := emit (SetTimeout 1500) (emit (ScrollBy scrollIncrement) st) in
  Continue (mkLoopState (emojiData st') (emojisWithNames st')
              currentEmojiCount (scrollAttempts st' + 1)
              (noNewEmojisCount st') (effects st')).

(** lines 259-319: one pass through the body of the [while] loop *)
Definition iteration (view : SectionView) (st0 : LoopState) : Flow :=
  let st1 := foldl scanEmoji st0 (querySelectorAll view) in
  let currentEmojiCount := size (emojiData st1) in
  let st2 :=
    emit (ConsoleLog ("Scroll attempt " +:+ pretty (scrollAttempts st1 + 1)
                      +:+ ": Found " +:+ pretty currentEmojiCount
                      +:+ " emojis so far")) st1 in
  if reachedNextSection view then
    Break (emit (ConsoleLog "Reached the next category section, stopping scroll") st2)
  else if (currentEmojiCount =? previousEmojiCount st2)%nat then
    let st3 := set_noNewEmojisCount (noNewEmojisCount st2 + 1) st2 in
    if (3 <=? noNewEmojisCount st3)%nat then
      Break (emit (ConsoleLog "No new emojis loaded after 3 attempts, stopping scroll") st3)
    else scrollOn currentEmojiCount st3
  else scrollOn currentEmojiCount (set_noNewEmojisCount 0 st2).

(** The [while (scrollAttempts < maxScrollAttempts)] loop.  Every pass
    that continues increments [scrollAttempts], so [maxScrollAttempts]
    passes always suffice ([scrollLoop_fuel] below). *)
Fixpoint scrollLoop (section : nat -> SectionView) (fuel : nat)
    (st : LoopState) : LoopState :=
  match fuel with
  | O => st
  | S fuel' =>
      if (scrollAttempts st <? maxScrollAttempts)%nat then
        match iteration (section (scrollAttempts st)) st with
        | Break st' => st'
        | Continue st' => scrollLoop section fuel' st'
        end
      else st
  end.

(** The state in which the function leaves the loop. *)
Definition finalState (section : nat -> SectionView) : LoopState :=
  scrollLoop section maxScrollAttempts initialState.

Definition extractEmojiUrls (page : Page) : result (list Emoji) :=
  if negb (emojiPickerContainer page) then
    Throw "Emoji picker container not found"
  else
    match serverEmojiSection page with
    | None => Throw "Server emoji section not found"
    | Some section => Ok (emojisWithNames (finalState section))
    end.

End Collector.

(** ** [path.join] *)

(** Node's POSIX [path.join], as its documentation describes it: the
    non-empty arguments are joined by [/] and the result is normalised
    (empty and [.] segments are dropped, [..] removes the segment before
    it). *)
Module Path.

Fixpoint splitGo (acc : string) (s : string) : list string :=
  match s with
  | EmptyString => [String.rev acc]
  | String c s' =>
      if Ascii.eqb c "/" then String.rev acc :: splitGo EmptyString s'
      else splitGo (String c acc) s'
  end.

(** [s.split('/')] *)
Definition split (s : string) : list string := splitGo EmptyString s.

Fixpoint joinWith (sep : string) (l : list string) : string :=
  match l with
  | [] => EmptyString
  | [x] => x
  | x :: l' => x +:+ sep +:+ joinWith sep l'
  end.

Definition pushSegment (allowAboveRoot : bool) (stack : list string)
    (seg : string) : list string :=
  if decide (seg = "" ∨ seg = ".") then stack
  else if decide (seg = "..") then
    match last stack with
    | None => if allowAboveRoot then [".."] else []
    | Some top =>
        if decide (top = "..")
        then (if allowAboveRoot then stack ++ [".."] else stack)
        else removelast stack
    end
  else stack ++ [seg].

Definition normalizeString (path : string) (allowAboveRoot : bool) : string :=
  joinWith "/" (foldl (pushSegment allowAboveRoot) [] (split path)).

Definition endsWithSlash (s : string) : bool :=
  match String.rev s with
  | String "/" _ => true
  | _ => false
  end.

Definition normalize (path : string) : string :=
  match path with
  | EmptyString => "."
  | String c _ =>
      let isAbsolute := Ascii.eqb c "/" in
      let trailingSeparator := endsWithSlash path in
      let res := normalizeString path (negb isAbsolute) in
      match res with
      | EmptyString =>
          if isAbsolute then "/" else if trailingSeparator then "./" else "."
      | _ =>
          let res' := if trailingSeparator then res +:+ "/" else res in
          if isAbsolute then "/" +:+ res' else res'
      end
  end.

Definition join (args : list string) : string :=
  match List.filter (fun a => negb (String.eqb a "")) args with
  | [] => "."
  | parts => normalize (joinWith "/" parts)
  end.

End Path.

(** ** The pipeline: [downloadAndProcessEmojis] *)

(** A [Buffer]. *)
Abbreviation bytes := (list Byte.byte).

(** The part of a fetch [Response] the source reads. *)
Record Response := {
  ok : bool;
  statusText : string;
  arrayBuffer : bytes
}.

(** Modelled from the spec: the [Server] type of [src/types/server.ts],
    which is not among the sources; the fields are those the callers and
    the README use ([name], [folder], [channel]); [folder] is the
    collection's output folder. *)
Module Server.
Record t := { name : string; folder : string; channel : string }.
End Server.

(** A call on Node's console. *)
Inductive ConsoleCall :=
  | console_log (message : string)
  | console_error (message : string) (detail : string).

(** The world the pipeline runs in: the file system and the console
    output so far (oldest first). *)
Record World (FS : Type) := mkWorld {
  fs : FS;
  console : list ConsoleCall
}.
Arguments mkWorld {FS} fs console.
Arguments fs {FS} w.
Arguments console {FS} w.

(** The runtime the pipeline calls into.  The network and the image
    library are functions of their arguments; the file system is a state
    that only [Bun.write] changes. *)
Class Runtime (FS : Type) := {
  (** [await fetch(url)] *)
  fetch : string -> result Response;
  (** [await sharp(buffer, { animated }).resize({ width, height, fit:
      'inside', withoutEnlargement: true }).webp({ quality: 80 }).toBuffer()] *)
  sharp : bytes -> bool -> Z -> result bytes;
  (** [await Bun.write(filePath, data)]: the number of bytes written *)
  bunWrite : string -> bytes -> FS -> result nat * FS;
  (** [await Bun.file(filePath).arrayBuffer()] *)
  bunFileArrayBuffer : string -> FS -> result bytes
}.

(** Computations that read and change the world and may throw. *)
Definition M (FS A : Type) : Type := World FS -> result A * World FS.

Module Js.
Section Ops.
Context {FS : Type}.

Definition ret {A} (a : A) : M FS A := fun w => (Ok a, w).

Definition bind {A B} (c : M FS A) (k : A -> M FS B) : M FS B :=
  fun w =>
    match c w with
    | (Ok a, w') => k a w'
    | (Throw msg, w') => (Throw msg, w')
    end.

(** [throw new Error(msg)] *)
Definition throw {A} (msg : string) : M FS A := fun w => (Throw msg, w).

(** [await] of a promise that settles to [r] *)
Definition await {A} (r : result A) : M FS A := fun w => (r, w).

(** [try { body } catch (err) { handler((err as Error).message) }] *)
Definition tryCatch {A} (body : M FS A) (handler : string -> M FS A) : M FS A :=
  fun w =>
    match body w with
    | (Ok a, w') => (Ok a, w')
    | (Throw msg, w') => handler msg w'
    end.

Definition consoleLog (message : string) : M FS unit :=
  fun w => (Ok tt, mkWorld (fs w) (console w ++ [console_log message])).

Definition consoleError (message detail : string) : M FS unit :=
  fun w => (Ok tt, mkWorld (fs w) (console w ++ [console_error message detail])).

(** [for (const [index, x] of xs.entries()) body], from [index] on *)
Fixpoint forEntries {A} (body : nat -> A -> M FS unit) (index : nat)
    (xs : list A) : M FS unit :=
  match xs with
  | [] => ret tt
  | x :: xs' => bind (body index x) (fun _ => forEntries body (S index) xs')
  end.
End Ops.
End Js.

Notation "'let*' x ':=' c 'in' k" := (Js.bind c (fun x => k))
  (at level 10, x name, c at level 100, k at level 200).
Notation "c '>>' k" := (Js.bind c (fun _ => k))
  (at level 100, k at level 200, right associativity).

Module Pipeline.
Import Js.

Section WithRuntime.
Context {FS : Type} {rt : Runtime FS}.

Definition write (filePath : string) (data : bytes) : M FS nat :=
  fun w => let (r, fs') := bunWrite filePath data (fs w) in
           (r, mkWorld fs' (console w)).

Definition readArrayBuffer (filePath : string) : M FS bytes :=
  fun w => (bunFileArrayBuffer filePath (fs w), w).

(** lines 387-388 *)
Definition fileName (emoji : Emoji) : string := name emoji +:+ ".webp".

Definition filePath (outputBaseDir : string) (server : Server.t)
    (emoji : Emoji) : string :=
  Path.join [outputBaseDir; Server.folder server; fileName emoji].

(** lines 355-395: the body of the [try] block *)
Definition tryBody (server : Server.t) (outputBaseDir : string)
    (emojiSize : Z) (index : nat) (emoji : Emoji) : M FS unit :=
  let* response := await (fetch (url emoji)) in
  (if negb (ok response)
   then throw ("Failed to fetch emoji: " +:+ statusText response)
   else ret tt) >>
  let buffer := arrayBuffer response in
  consoleLog ("Downloaded emoji " +:+ pretty (index + 1) +:+ " ("
              +:+ name emoji +:+ "), buffer size: "
              +:+ pretty (length buffer) +:+ " bytes") >>
  (if (length buffer =? 0)%nat
   then throw "Downloaded buffer is empty"
   else ret tt) >>
  let* resizedImage :=
    await (sharp buffer (includes (url emoji) "animated=true") emojiSize) in
  consoleLog ("Processed emoji " +:+ pretty (index + 1) +:+ " ("
              +:+ name emoji +:+ "), resized buffer size: "
              +:+ pretty (length resizedImage) +:+ " bytes") >>
  (if (length resizedImage =? 0)%nat
   then throw "Resized buffer is empty"
   else ret tt) >>
  write (filePath outputBaseDir server emoji) resizedImage >>
  consoleLog ("Saved " +:+ fileName emoji +:+ " to " +:+ Server.folder server) >>
  let* file := readArrayBuffer (filePath outputBaseDir server emoji) in
  let fileSize := length file in
  consoleLog ("File size on disk: " +:+ pretty fileSize +:+ " bytes").

(** lines 351-398: the body of the [for] loop; [total] is
    [emojis.length] *)
Definition processEmoji (server : Server.t) (outputBaseDir : string)
    (emojiSize : Z) (total : nat) (index : nat) (emoji : Emoji) : M FS unit :=
  consoleLog ("Downloading emoji " +:+ pretty (index + 1) +:+ "/"
              +:+ pretty total +:+ " (" +:+ name emoji +:+ ") from URL: "
              +:+ url emoji +:+ "...") >>
  tryCatch (tryBody server outputBaseDir emojiSize index emoji)
    (fun message =>
       consoleError ("Failed to process emoji " +:+ pretty (index + 1)
                     +:+ " (" +:+ name emoji +:+ ") in "
                     +:+ Server.name server +:+ ":") message).

Definition downloadAndProcessEmojis (emojis : list Emoji)
    (server : Server.t) (outputBaseDir : string) (emojiSize : Z) : M FS unit :=
  forEntries (processEmoji server outputBaseDir emojiSize (length emojis))
    0 emojis.

End WithRuntime.

(** A faithful file system: a finite map from paths to contents, where
    a write replaces whatever the path held. *)
Definition mapRuntime (fetch0 : string -> result Response)
    (sharp0 : bytes -> bool -> Z -> result bytes) : Runtime (gmap string bytes) :=
  {| fetch := fetch0;
     sharp := sharp0;
     bunWrite := fun p data files => (Ok (length data), <[p := data]> files);
     bunFileArrayBuffer := fun p files =>
       match files !! p with
       | Some data => Ok data
       | None => Throw ("ENOENT: no such file or directory, open '" +:+ p +:+ "'")
       end |}.

End Pipeline.

(** ** The earlier variant of the pipeline, with positional file names

    The sources also hold the version of [downloadAndProcessEmojis] that
    takes the URLs alone and names the files by position. *)

Module Positional.
Import Js Pipeline.

Section WithRuntime.
Context {FS : Type} {rt : Runtime FS}.

(** line 193 *)
Definition fileName (index : nat) : string :=
  "emoji_" +:+ pretty (index + 1) +:+ ".webp".

Definition filePath (outputBaseDir : string) (server : Server.t)
    (index : nat) : string :=
  Path.join [outputBaseDir; Server.folder server; fileName index].

(** lines 160-201: the body of the [try] block *)
Definition tryBody (server : Server.t) (outputBaseDir : string)
    (emojiSize : Z) (index : nat) (url : string) : M FS unit :=
  let* response := await (fetch url) in
  (if negb (ok response)
   then throw ("Failed to fetch emoji: " +:+ statusText response)
   else ret tt) >>
  let buffer := arrayBuffer response in
  consoleLog ("Downloaded emoji " +:+ pretty (index + 1) +:+ ", buffer size: "
              +:+ pretty (length buffer) +:+ " bytes") >>
  (if (length buffer =? 0)%nat
   then throw "Downloaded buffer is empty"
   else ret tt) >>
  let* resizedImage :=
    await (sharp buffer (includes url "animated=true") emojiSize) in
  consoleLog ("Processed emoji " +:+ pretty (index + 1)
              +:+ ", resized buffer size: "
              +:+ pretty (length resizedImage) +:+ " bytes") >>
  (if (length resizedImage =? 0)%nat
   then throw "Resized buffer is empty"
   else ret tt) >>
  write (filePath outputBaseDir server index) resizedImage >>
  consoleLog ("Saved " +:+ fileName index +:+ " to " +:+ Server.folder server) >>
  let* file := readArrayBuffer (filePath outputBaseDir server index) in
  let fileSize := length file in
  consoleLog ("File size on disk: " +:+ pretty fileSize +:+ " bytes").

(** lines 157-204: the body of the [for] loop; [total] is
    [emojiUrls.length] *)
Definition processEmoji (server : Server.t) (outputBaseDir : string)
    (emojiSize : Z) (total : nat) (index : nat) (url : string) : M FS unit :=
  consoleLog ("Downloading emoji " +:+ pretty (index + 1) +:+ "/"
              +:+ pretty total +:+ " from URL: " +:+ url +:+ "...") >>
  tryCatch (tryBody server outputBaseDir emojiSize index url)
    (fun message =>
       consoleError ("Failed to process emoji " +:+ pretty (index + 1)
                     +:+ " in " +:+ Server.name server +:+ ":") message).

Definition downloadAndProcessEmojis (emojiUrls : list string)
    (server : Server.t) (outputBaseDir : string) (emojiSize : Z) : M FS unit :=
  forEntries (processEmoji server outputBaseDir emojiSize (length emojiUrls))
    0 emojiUrls.

End WithRuntime.
End Positional.

(** ** Notions used to state the properties *)

Module Spec.
Import Collector Pipeline Js.

(** [/size=\d+/.test(s)] *)
Fixpoint testSize (s : string) : bool :=
  match matchSize s with
  | Some _ => true
  | None =>
      match s with
      | EmptyString => false
      | String _ s' => testSize s'
      end
  end.

Fixpoint allDigits (s : string) : bool :=
  match s with
  | EmptyString => true
  | String c s' => isDigit c && allDigits s'
  end.

(** [s] does not start with a digit *)
Definition noLeadingDigit (s : string) : bool :=
  match s with
  | String c _ => negb (isDigit c)
  | EmptyString => true
  end.

(** the URL carries a size parameter: [size=] followed by at least one
    digit *)
Definition hasSizeParam (s : string) : Prop :=
  ∃ pre ds post, s = pre +:+ "size=" +:+ ds +:+ post
                 ∧ ds ≠ "" ∧ allDigits ds = true.

(** One descriptor per URL, each at the place of its first occurrence. *)
Fixpoint firstSeen (l : list Emoji) : list Emoji :=
  match l with
  | [] => []
  | d :: l' => d :: filter (λ e, url e ≠ url d) (firstSeen l')
  end.

(** [e] is discovered at position [p] of [l]: it stands there, and no
    descriptor before it has its URL. *)
Definition discoveredAt (l : list Emoji) (p : nat) (e : Emoji) : Prop :=
  l !! p = Some e ∧ ∀ q e', q < p → l !! q = Some e' → url e' ≠ url e.

(** The state at the head of pass [k] of the loop (passes are counted
    from 0), when the loop gets that far. *)
Fixpoint reach (section : nat -> SectionView) (k : nat) : option LoopState :=
  match k with
  | O => Some initialState
  | S k' =>
      match reach section k' with
      | Some st =>
          if (scrollAttempts st <? maxScrollAttempts)%nat then
            match iteration (section (scrollAttempts st)) st with
            | Continue st' => Some st'
            | Break _ => None
            end
          else None
      | None => None
      end
  end.

(** The number of passes through the loop body. *)
Fixpoint passesFrom (section : nat -> SectionView) (fuel : nat)
    (st : LoopState) : nat :=
  match fuel with
  | O => 0
  | S fuel' =>
      if (scrollAttempts st <? maxScrollAttempts)%nat then
        match iteration (section (scrollAttempts st)) st with
        | Break _ => 1
        | Continue st' => S (passesFrom section fuel' st')
        end
      else 0
  end.

Definition passes (section : nat -> SectionView) : nat :=
  passesFrom section maxScrollAttempts initialState.

(** The thumbnails selected in passes [from .. from + n - 1]. *)
Definition scannedIn (section : nat -> SectionView) (from n : nat) : list Img :=
  flat_map (λ k, querySelectorAll (section k)) (seq from n).

(** All thumbnails the run selects, in the order it meets them. *)
Definition scanned (section : nat -> SectionView) : list Img :=
  scannedIn section 0 (passes section).

Definition flowState (f : Flow) : LoopState :=
  match f with Break st => st | Continue st => st end.

Definition isScroll (e : Effect) : bool :=
  match e with ScrollBy _ => true | _ => false end.

(** The number of scroll steps issued so far. *)
Definition scrollsIssued (st : LoopState) : nat :=
  length (List.filter isScroll (effects st)).

(** A pass in which nothing new is rendered: every selected thumbnail's
    URL is already in [seen]. *)
Definition nothingNew (view : SectionView) (seen : gset string) : bool :=
  forallb (λ img, bool_decide (normalizeSrc (src img) ∈ seen))
    (querySelectorAll view).

(** Pass [i] shows nothing new and is not at the section's end. *)
Definition stagnantPass (section : nat -> SectionView) (seen : gset string)
    (i : nat) : bool :=
  negb (reachedNextSection (section i)) && nothingNew (section i) seen.

Definition isError (c : ConsoleCall) : bool :=
  match c with console_error _ _ => true | console_log _ => false end.

Section WithRuntime.
Context {FS : Type} {rt : Runtime FS}.

(** Steps 1-4 of the pipeline for one item, without the log lines:
    the encoded image, or the error raised before anything is
    written. *)
Definition prewrite (emojiSize : Z) (emoji : Emoji) : result bytes :=
  match fetch (url emoji) with
  | Throw msg => Throw msg
  | Ok response =>
      if negb (ok response)
      then Throw ("Failed to fetch emoji: " +:+ statusText response)
      else if (length (arrayBuffer response) =? 0)%nat
      then Throw "Downloaded buffer is empty"
      else
        match sharp (arrayBuffer response)
                (includes (url emoji) "animated=true") emojiSize with
        | Throw msg => Throw msg
        | Ok resizedImage =>
            if (length resizedImage =? 0)%nat
            then Throw "Resized buffer is empty"
            else Ok resizedImage
        end
  end.

(** The world after the first [k] items of a run over [emojis]. *)
Definition worldAfter (emojis : list Emoji) (server : Server.t)
    (outputBaseDir : string) (emojiSize : Z) (k : nat)
    (w : World FS) : World FS :=
  snd (forEntries (processEmoji server outputBaseDir emojiSize (length emojis))
         0 (take k emojis) w).

Definition downloadingLine (total index : nat) (emoji : Emoji) : ConsoleCall :=
  console_log ("Downloading emoji " +:+ pretty (index + 1) +:+ "/"
               +:+ pretty total +:+ " (" +:+ name emoji +:+ ") from URL: "
               +:+ url emoji +:+ "...").

Definition failureLine (server : Server.t) (index : nat) (emoji : Emoji)
    (message : string) : ConsoleCall :=
  console_error ("Failed to process emoji " +:+ pretty (index + 1)
                 +:+ " (" +:+ name emoji +:+ ") in "
                 +:+ Server.name server +:+ ":") message.

Definition downloadedLine (index : nat) (emoji : Emoji) (size : nat) : ConsoleCall :=
  console_log ("Downloaded emoji " +:+ pretty (index + 1) +:+ " ("
               +:+ name emoji +:+ "), buffer size: "
               +:+ pretty size +:+ " bytes").

Definition processedLine (index : nat) (emoji : Emoji) (size : nat) : ConsoleCall :=
  console_log ("Processed emoji " +:+ pretty (index + 1) +:+ " ("
               +:+ name emoji +:+ "), resized buffer size: "
               +:+ pretty size +:+ " bytes").

Definition savedLine (server : Server.t) (emoji : Emoji) : ConsoleCall :=
  console_log ("Saved " +:+ fileName emoji +:+ " to " +:+ Server.folder server).

Definition fileSizeLine (size : nat) : ConsoleCall :=
  console_log ("File size on disk: " +:+ pretty size +:+ " bytes").

(** The progress lines of steps 1-4 for one item. *)
Definition prewriteLines (emojiSize : Z) (index : nat) (emoji : Emoji)
    : list ConsoleCall :=
  match fetch (url emoji) with
  | Throw _ => []
  | Ok response =>
      if negb (ok response) then []
      else
        downloadedLine index emoji (length (arrayBuffer response)) ::
        (if (length (arrayBuffer response) =? 0)%nat then []
         else
           match sharp (arrayBuffer response)
                   (includes (url emoji) "animated=true") emojiSize with
           | Throw _ => []
           | Ok resizedImage => [processedLine index emoji (length resizedImage)]
           end)
  end.
(** What one item writes when nothing fails before the write. *)
Definition itemWrite (server : Server.t) (outputBaseDir : string)
    (emojiSize : Z) (emoji : Emoji) : option (string * bytes) :=
  match prewrite emojiSize emoji with
  | Ok data => Some (filePath outputBaseDir server emoji, data)
  | Throw _ => None
  end.

(** What one item logs on a file system that stores what is written. *)
Definition itemLines (server : Server.t) (emojiSize : Z) (total index : nat)
    (emoji : Emoji) : list ConsoleCall :=
  downloadingLine total index emoji :: prewriteLines emojiSize index emoji
  ++ match prewrite emojiSize emoji with
     | Ok data => [savedLine server emoji; fileSizeLine (length data)]
     | Throw message => [failureLine server index emoji message]
     end.

Fixpoint runLines (server : Server.t) (emojiSize : Z) (total index : nat)
    (emojis : list Emoji) : list ConsoleCall :=
  match emojis with
  | [] => []
  | emoji :: emojis' =>
      itemLines server emojiSize total index emoji
      ++ runLines server emojiSize total (S index) emojis'
  end.
End WithRuntime.

(** Writes applied in order to a map of files. *)
Definition applyWrites (writes : list (string * bytes))
    (files : gmap string bytes) : gmap string bytes :=
  foldl (λ m pd, <[pd.1 := pd.2]> m) files writes.

(** The last thing [writes] stores at [path]. *)
Fixpoint lastWrite (path : string) (writes : list (string * bytes))
    : option bytes :=
  match writes with
  | [] => None
  | pd :: writes' =>
      match lastWrite path writes' with
      | Some data => Some data
      | None => if decide (pd.1 = path) then Some pd.2 else None
      end
  end.

(** A storage that keeps only the first byte of what is written: a
    stand-in for any file system on which the size read back differs from
    the size written. *)
Definition truncatingRuntime (fetch0 : string -> result Response)
    (sharp0 : bytes -> bool -> Z -> result bytes) : Runtime (gmap string bytes) :=
  {| fetch := fetch0;
     sharp := sharp0;
     bunWrite := fun p data files => (Ok (length (take 1 data)), <[p := take 1 data]> files);
     bunFileArrayBuffer := fun p files =>
       match files !! p with
       | Some data => Ok data
       | None => Throw ("ENOENT: no such file or directory, open '" +:+ p +:+ "'")
       end |}.

End Spec.

Import Collector Pipeline Spec.

(** ** Invariants of the scan *)

(** What a scan establishes: the set holds the URLs of the list, and the
    list is the first-seen selection of the thumbnails met so far. *)
Definition Harvested (st : LoopState) (seen : list Img) : Prop :=
  emojiData st = list_to_set (url <$> emojisWithNames st)
  ∧ emojisWithNames st = firstSeen (descriptor <$> seen).

(** [scanEmoji] only touches the set and the list. *)
Definition sameControl (st st' : LoopState) : Prop :=
  previousEmojiCount st' = previousEmojiCount st
  ∧ scrollAttempts st' = scrollAttempts st
  ∧ noNewEmojisCount st' = noNewEmojisCount st
  ∧ effects st' = effects st.

(** The "Scroll attempt" line of a pass. *)
Definition attemptLine (st : LoopState) (currentEmojiCount : nat) : Effect :=
  ConsoleLog ("Scroll attempt " +:+ pretty (scrollAttempts st + 1)
              +:+ ": Found " +:+ pretty currentEmojiCount +:+ " emojis so far").

(** What holds at the head of every pass. *)
Definition LoopInv (section : nat → SectionView) (st : LoopState) : Prop :=
  previousEmojiCount st = size (emojiData st)
  ∧ noNewEmojisCount st < 3
  ∧ scrollsIssued st = scrollAttempts st
  ∧ Harvested st (scannedIn section 0 (scrollAttempts st)).

(** ** Example pages *)

Definition wave : Img :=
  {| src := "https://cdn.discordapp.com/emojis/1.webp?size=48&animated=true";
     alt := ":wave:" |}.
Definition bunny : Img :=
  {| src := "https://cdn.discordapp.com/emojis/2.webp?size=64";
     alt := ":PES Bunny:" |}.
Definition avatar : Img :=
  {| src := "https://cdn.discordapp.com/avatars/7.webp?size=64"; alt := "" |}.

(** A short section: everything is rendered after one scroll step. *)
Definition shortSection (k : nat) : SectionView :=
  match k with
  | 0 => {| imgs := [wave; avatar]; nextElementSibling := None |}
  | 1 => {| imgs := [wave; bunny]; nextElementSibling := None |}
  | _ => {| imgs := [bunny; wave]; nextElementSibling := Some ["wrapper"] |}
  end.

(** A section whose successor scrolls into view after one step. *)
Definition boundedSection (k : nat) : SectionView :=
  match k with
  | 0 => {| imgs := [wave]; nextElementSibling := None |}
  | _ => {| imgs := [wave; bunny];
            nextElementSibling := Some ["categorySection_c656ac"; "section"] |}
  end.

Definition pageOf (section : nat → SectionView) : Page :=
  {| emojiPickerContainer := true; serverEmojiSection := Some section |}.

(** ** Example runs *)

Definition cozy : Server.t :=
  {| Server.name := "Cozyhive"; Server.folder := "Cozyhive";
     Server.channel := "general" |}.

(** A network where emoji 2 is gone and everything else is served. *)
Definition cdn (u : string) : result Response :=
  if includes u "/emojis/2."
  then Ok {| ok := false; statusText := "Not Found"; arrayBuffer := [] |}
  else Ok {| ok := true; statusText := "OK";
             arrayBuffer := [Byte.x52; Byte.x49; Byte.x46; Byte.x46] |}.

(** An encoder that answers with three bytes for every image. *)
Definition encoder (buffer : bytes) (animated : bool) (size : Z) : result bytes :=
  Ok [Byte.x57; Byte.x45; Byte.x42].

Definition waveEmoji : Emoji :=
  {| url := "https://cdn.discordapp.com/emojis/1.webp?size=512&animated=true";
     name := "wave" |}.
Definition bunnyEmoji : Emoji :=
  {| url := "https://cdn.discordapp.com/emojis/2.webp?size=512";
     name := "PES_Bunny" |}.
Definition smileEmoji : Emoji :=
  {| url := "https://cdn.discordapp.com/emojis/3.webp?size=512";
     name := "smile" |}.
(** the descriptor of a thumbnail whose [alt] is [::] *)
Definition unnamedEmoji : Emoji :=
  descriptor {| src := "https://cdn.discordapp.com/emojis/4.webp?size=48";
                alt := "::" |}.

Definition emptyWorld : World (gmap string bytes) := mkWorld ∅ [].


(** ** The earlier variant of the collector, which returns the URLs alone

    Lines 50-130 of the same source: the loop is the one above, but it
    keeps only a [Set] of URLs and returns [Array.from(urls)]. *)

Module UrlsOnly.
Import Collector.

(** The local variables; the [Set] is kept in insertion order, which is
    the order [Array.from] lists it in. *)
Record LoopState := mkLoopState {
  urls : list string;
  previousEmojiCount : nat;
  scrollAttempts : nat;
  noNewEmojisCount : nat;
  effects : list Effect
}.

Definition initialState : LoopState := mkLoopState [] 0 0 0 [].

(** [urls.add(x)] *)
Definition setAdd (x : string) (set : list string) : list string :=
  if decide (x ∈ set) then set else set ++ [x].

Definition emit (e : Effect) (st : LoopState) : LoopState :=
  mkLoopState (urls st) (previousEmojiCount st) (scrollAttempts st)
    (noNewEmojisCount st) (effects st ++ [e]).

Definition set_noNewEmojisCount (n : nat) (st : LoopState) : LoopState :=
  mkLoopState (urls st) (previousEmojiCount st) (scrollAttempts st) n (effects st).

(** lines 81-92: the body of [emojis.forEach] *)
Definition scanEmoji (st : LoopState) (emoji : Img) : LoopState :=
  mkLoopState (setAdd (normalizeSrc (src emoji)) (urls st))
    (previousEmojiCount st) (scrollAttempts st) (noNewEmojisCount st)
    (effects st).

Inductive Flow :=
  | Break (st : LoopState)
  | Continue (st : LoopState).

(** lines 116-125 *)
Definition scrollOn (currentEmojiCount : nat) (st : LoopState) : Flow :=
  let st' := emit (SetTimeout 1500) (emit (ScrollBy scrollIncrement) st) in
  Continue (mkLoopState (urls st') currentEmojiCount (scrollAttempts st' + 1)
              (noNewEmojisCount st') (effects st')).

(** lines 77-125: one pass through the body of the [while] loop *)
Definition iteration (view : SectionView) (st0 : LoopState) : Flow :=
  let st1 := foldl scanEmoji st0 (querySelectorAll view) in
  let currentEmojiCount := length (urls st1) in
  let st2 :=
    emit (ConsoleLog ("Scroll attempt " +:+ pretty (scrollAttempts st1 + 1)
                      +:+ ": Found " +:+ pretty currentEmojiCount
                      +:+ " emojis so far")) st1 in
  if reachedNextSection view then
    Break (emit (ConsoleLog "Reached the next category section, stopping scroll") st2)
  else if (currentEmojiCount =? previousEmojiCount st2)%nat then
    let st3 := set_noNewEmojisCount (noNewEmojisCount st2 + 1) st2 in
    if (3 <=? noNewEmojisCount st3)%nat then
      Break (emit (ConsoleLog "No new emojis loaded after 3 attempts, stopping scroll") st3)
    else scrollOn currentEmojiCount st3
  else scrollOn currentEmojiCount (set_noNewEmojisCount 0 st2).

Fixpoint scrollLoop (section : nat -> SectionView) (fuel : nat)
    (st : LoopState) : LoopState :=
  match fuel with
  | O => st
  | S fuel' =>
      if (scrollAttempts st <? maxScrollAttempts)%nat then
        match iteration (section (scrollAttempts st)) st with
        | Break st' => st'
        | Continue st' => scrollLoop section fuel' st'
        end
      else st
  end.

Definition finalState (section : nat -> SectionView) : LoopState :=
  scrollLoop section maxScrollAttempts initialState.

Definition extractEmojiUrls (page : Page) : result (list string) :=
  if negb (emojiPickerContainer page) then
    Throw "Emoji picker container not found"
  else
    match serverEmojiSection page with
    | None => Throw "Server emoji section not found"
    | Some section => Ok (urls (finalState section))
    end.

End UrlsOnly.

(** The two variants of the collector in step: same URLs in the same
    order, same counters, same effects. *)
Definition inStep (old : UrlsOnly.LoopState) (st : LoopState) : Prop :=
  UrlsOnly.urls old = url <$> emojisWithNames st
  ∧ emojiData st = list_to_set (UrlsOnly.urls old)
  ∧ NoDup (UrlsOnly.urls old)
  ∧ UrlsOnly.previousEmojiCount old = previousEmojiCount st
  ∧ UrlsOnly.scrollAttempts old = scrollAttempts st
  ∧ UrlsOnly.noNewEmojisCount old = noNewEmojisCount st
  ∧ UrlsOnly.effects old = effects st.

Definition flowsInStep (old : UrlsOnly.Flow) (new : Flow) : Prop :=
  match old, new with
  | UrlsOnly.Break a, Break b => inStep a b
  | UrlsOnly.Continue a, Continue b => inStep a b
  | _, _ => False
  end.

(** [f] applied to a value, an error left as it is *)
Definition mapResult {A B : Type} (f : A → B) (r : result A) : result B :=
  match r with
  | Ok a => Ok (f a)
  | Throw message => Throw message
  end.


(** A section without a single custom emoji. *)
Definition emptySection (k : nat) : SectionView :=
  {| imgs := [avatar]; nextElementSibling := None |}.

(** [s] is made of the characters [[a-zA-Z0-9_-]] only *)
Fixpoint allNameChars (s : string) : bool :=
  match s with
  | EmptyString => true
  | String c s' => isNameChar c && allNameChars s'
  end.

(** the character [c] does not occur in [s] *)
Fixpoint noChar (c : ascii) (s : string) : bool :=
  match s with
  | EmptyString => true
  | String c' s' => negb (Ascii.eqb c c') && noChar c s'
  end.

(** What one item of the pipeline does to the file system. *)
Definition fsStep {FS : Type} {rt : Runtime FS} (server : Server.t)
    (outputBaseDir : string) (emojiSize : Z) (files : FS) (emoji : Emoji) : FS :=
  match prewrite emojiSize emoji with
  | Ok data => snd (bunWrite (filePath outputBaseDir server emoji) data files)
  | Throw _ => files
  end.

(** The item gets to the write step. *)
Definition getsToWrite {FS : Type} {rt : Runtime FS} (emojiSize : Z)
    (emoji : Emoji) : bool :=
  match prewrite emojiSize emoji with
  | Ok _ => true
  | Throw _ => false
  end.

(** The item gets to the write step and its destination is [path]. *)
Definition writesTo {FS : Type} {rt : Runtime FS} (server : Server.t)
    (outputBaseDir : string) (emojiSize : Z) (path : string)
    (emoji : Emoji) : bool :=
  getsToWrite emojiSize emoji
  && bool_decide (filePath outputBaseDir server emoji = path).

(** A second emoji that is also called [wave]. *)
Definition otherWave : Emoji :=
  {| url := "https://cdn.discordapp.com/emojis/7.webp?size=512"; name := "wave" |}.

(** An encoder that answers with the image it is given. *)
Definition copyEncoder (buffer : bytes) (animated : bool) (size : Z) : result bytes :=
  Ok buffer.

(** A network that serves each URL its own three bytes. *)
Definition echoCdn (u : string) : result Response :=
  Ok {| ok := true; statusText := "OK";
        arrayBuffer := [Byte.x52; Byte.x49;
                        if includes u "/7." then Byte.x37 else Byte.x31] |}.

(** A path segment that [path.join] keeps as it is: not empty, not [.]
    or [..], and without a separator. *)
Definition simpleSegment (f : string) : bool :=
  noChar "/" f && negb (String.eqb f "") && negb (String.eqb f ".")
  && negb (String.eqb f "..").

(** The directory part of [path.join(outputBaseDir, folder, f)], with
    its final separator: what the two directory arguments normalise to. *)
Definition directoryPrefix (outputBaseDir folder : string) : string :=
  match List.filter (fun a => negb (String.eqb a "")) [outputBaseDir; folder] with
  | [] => ""
  | parts =>
      let joined := Path.joinWith "/" parts in
      let isAbsolute := match joined with
                        | String c _ => Ascii.eqb c "/"
                        | EmptyString => false
                        end in
      let stack := foldl (Path.pushSegment (negb isAbsolute)) [] (Path.split joined) in
      (if isAbsolute then "/" else "")
      +:+ match stack with
          | [] => ""
          | _ => Path.joinWith "/" stack +:+ "/"
          end
  end.

(** ** [utils.ts] *)

Module Utils.

(** The code units below 256 that [String.prototype.trim] removes: TAB,
    LF, VT, FF, CR, SP and NBSP. *)
Definition isWhiteSpace (c : ascii) : bool :=
  let n := nat_of_ascii c in
  ((9 <=? n)%nat && (n <=? 13)%nat) || (n =? 32)%nat || (n =? 160)%nat.

Fixpoint trimStart (s : string) : string :=
  match s with
  | String c s' => if isWhiteSpace c then trimStart s' else s
  | EmptyString => EmptyString
  end.

Fixpoint trimEnd (s : string) : string :=
  match s with
  | EmptyString => EmptyString
  | String c s' =>
      match trimEnd s' with
      | EmptyString => if isWhiteSpace c then EmptyString else String c EmptyString
      | rest => String c rest
      end
  end.

(** [s.trim()] *)
Definition trim (s : string) : string := trimEnd (trimStart s).

(** lines 19-25; [prompt] is the runtime's [prompt], which answers [null]
    when there is no input *)
Definition promptFor2FACode (prompt : string → option string) : result string :=
  match trim <$> prompt "Please enter your 2FA code: " with
  | None => Throw "No 2FA code provided"
  | Some code =>
      if String.eqb code "" then Throw "No 2FA code provided" else Ok code
  end.

End Utils.

(** [s] is made of white space only *)
Fixpoint allWhite (s : string) : bool :=
  match s with
  | EmptyString => true
  | String c s' => Utils.isWhiteSpace c && allWhite s'
  end.

(** [s] does not start with white space *)
Definition headNotWhite (s : string) : bool :=
  match s with
  | String c _ => negb (Utils.isWhiteSpace c)
  | EmptyString => true
  end.

(** [s] does not end with white space *)
Fixpoint lastNotWhite (s : string) : bool :=
  match s with
  | EmptyString => true
  | String c s' =>
      match s' with
      | EmptyString => negb (Utils.isWhiteSpace c)
      | _ => lastNotWhite s'
      end
  end.

(** ** The browser session: [discord.ts] and the run of [index.ts] *)

(** The double quote. *)
Definition dq : string := String (ascii_of_nat 34) EmptyString.

(** The part of [EnvConfig] and [config] the run reads;
    [outputBaseDir] is [config.outputBaseDir]. *)
Record EnvConfig := {
  discordEmail : string;
  discordPassword : string;
  servers : list Server.t;
  outputBaseDir : string;
  emojiSize : Z;
  discord2FASelector : string;
  discordEmojiButtonSelector : string
}.

(** Puppeteer's [Page] and [Browser] and the terminal, as far as the
    sources use them.  [B] is the state of the browser; a call may fail (a
    timeout, a missing element, a closed target) and may change the
    state. *)
Class Driver (B : Type) := {
  (** [await page.goto(url, { waitUntil: 'networkidle2' })] *)
  goto : string → B → result unit * B;
  (** [await page.type(selector, text)] *)
  typeInto : string → string → B → result unit * B;
  (** [await page.click(selector)] *)
  click : string → B → result unit * B;
  (** [await page.waitForSelector(selector, { timeout })] *)
  waitForSelector : string → Z → B → result unit * B;
  (** [await page.evaluate(selector => { document.querySelector(selector)
      ?.scrollIntoView({ behavior: 'smooth', block: 'center' }) }, selector)] *)
  scrollIntoView : string → B → result unit * B;
  (** [await page.waitForNavigation({ waitUntil: 'networkidle2' })] *)
  waitForNavigation : B → result unit * B;
  (** [await delay(ms)]: the browser after [ms] milliseconds *)
  delay : Z → B → B;
  (** the document, as the collector's [page.evaluate] finds it *)
  document : B → Page;
  (** the browser after the collector's [page.evaluate] *)
  afterEvaluate : B → B;
  (** [await browser.close()] *)
  close : B → result unit * B;
  (** [prompt(message)] on the terminal *)
  prompt : string → B → option string;
  (** what [console.log] prints for an array of descriptors *)
  inspect : list Emoji → string
}.

Module Session.
Import Js.

Section WithDriver.
Context {B FS : Type} {dr : Driver B} {rt : Runtime FS}.

(** The pipeline's runtime in a world that also holds the browser: the
    file system is the second component, and the browser is left alone. *)
Definition sessionRuntime : Runtime (B * FS) :=
  {| fetch := fetch;
     sharp := sharp;
     bunWrite := fun p data s =>
       let (r, files) := bunWrite p data s.2 in (r, (s.1, files));
     bunFileArrayBuffer := fun p s => bunFileArrayBuffer p s.2 |}.

(** A call on the browser. *)
Definition onPage {A} (call : B → result A * B) : M (B * FS) A :=
  fun w => let (r, b) := call (fs w).1 in
           (r, mkWorld (b, (fs w).2) (console w)).

(** [await delay(ms)] *)
Definition sleep (ms : Z) : M (B * FS) unit :=
  fun w => (Ok tt, mkWorld (delay ms (fs w).1, (fs w).2) (console w)).

(** [for (const x of xs) body] *)
Fixpoint forOf {A} (body : A → M (B * FS) unit) (xs : list A) : M (B * FS) unit :=
  match xs with
  | [] => ret tt
  | x :: xs' => body x >> forOf body xs'
  end.

(** [try { body } finally { final }] *)
Definition tryFinally {A} (body : M (B * FS) A) (final : M (B * FS) unit)
    : M (B * FS) A :=
  fun w =>
    match body w with
    | (r, w') =>
        match final w' with
        | (Ok _, w'') => (r, w'')
        | (Throw message, w'') => (Throw message, w'')
        end
    end.

(** [discord.ts], lines 13-21 *)
Definition loginToDiscord (email password : string) : M (B * FS) unit :=
  consoleLog "Logging in to Discord..." >>
  onPage (goto "https://discord.com/login") >>
  onPage (typeInto ("input[name=" +:+ dq +:+ "email" +:+ dq +:+ "]") email) >>
  onPage (typeInto ("input[name=" +:+ dq +:+ "password" +:+ dq +:+ "]") password) >>
  onPage (click ("button[type=" +:+ dq +:+ "submit" +:+ dq +:+ "]")).

(** [utils.ts], lines 19-25, on the terminal of the session *)
Definition promptFor2FACode : M (B * FS) string :=
  fun w => (Utils.promptFor2FACode (fun message => prompt message (fs w).1), w).

(** [discord.ts], lines 34-56 *)
Definition handle2FA (env : EnvConfig) : M (B * FS) unit :=
  let selector :=
    "input[placeholder=" +:+ dq +:+ discord2FASelector env +:+ dq +:+ "]" in
  consoleLog "Checking for 2FA prompt..." >>
  let* is2FAPromptVisible :=
    tryCatch (onPage (waitForSelector selector 50000) >> ret true)
             (fun _ => ret false) in
  (if is2FAPromptVisible : bool
   then
     consoleLog "2FA prompt detected! Please check your authenticator app." >>
     let* twoFACode := promptFor2FACode in
     consoleLog "Entering 2FA code..." >>
     onPage (typeInto selector twoFACode) >>
     onPage (click ("button[type=" +:+ dq +:+ "submit" +:+ dq +:+ "]"))
   else consoleLog "No 2FA prompt detected. Proceeding...") >>
  onPage waitForNavigation >>
  consoleLog "Logged in successfully!".

(** [discord.ts], lines 75-91 *)
Definition navigateToServer (serverName : string) : M (B * FS) unit :=
  consoleLog ("Navigating to server: " +:+ serverName +:+ "...") >>
  let serverSelector :=
    "div[aria-label*=" +:+ dq +:+ serverName +:+ dq +:+ "][role=" +:+ dq
    +:+ "treeitem" +:+ dq +:+ "]" in
  onPage (waitForSelector serverSelector 30000) >>
  onPage (scrollIntoView serverSelector) >>
  sleep 1000 >>
  onPage (click serverSelector) >>
  sleep 2000.

(** [discord.ts], lines 106-122 *)
Definition navigateToChannel (serverName channelName : string) : M (B * FS) unit :=
  consoleLog ("Navigating to channel: " +:+ channelName +:+ " in "
              +:+ serverName +:+ "...") >>
  let channelSelector := "li[data-dnd-name=" +:+ dq +:+ channelName +:+ dq +:+ "]" in
  onPage (waitForSelector channelSelector 10000) >>
  onPage (scrollIntoView channelSelector) >>
  sleep 1000 >>
  onPage (click channelSelector) >>
  sleep 2000.

(** [discord.ts], lines 137-151 *)
Definition openEmojiPicker (env : EnvConfig) (serverName : string)
    : M (B * FS) string :=
  let button :=
    "button[aria-label=" +:+ dq +:+ discordEmojiButtonSelector env +:+ dq +:+ "]" in
  consoleLog "Opening emoji picker..." >>
  onPage (waitForSelector button 10000) >>
  onPage (click button) >>
  sleep 2000 >>
  consoleLog ("Switching to " +:+ serverName +:+ " emoji tab...") >>
  let serverEmojiTabSelector :=
    "div[aria-label=" +:+ dq +:+ serverName +:+ dq +:+ "]" in
  onPage (waitForSelector serverEmojiTabSelector 10000) >>
  onPage (click serverEmojiTabSelector) >>
  sleep 2000 >>
  ret button.

(** [extractEmojiUrls] on the page of the session: the line on Node's
    console, then the collector in the document. *)
Definition extractEmojiUrls (serverName : string) : M (B * FS) (list Emoji) :=
  consoleLog "Extracting emoji URLs and names..." >>
  onPage (fun b => (Collector.extractEmojiUrls (document b), afterEvaluate b)).

(** [index.ts], lines 47-70: the body of the loop over the servers *)
Definition processServer (env : EnvConfig) (server : Server.t) : M (B * FS) unit :=
  consoleLog ("Processing server: " +:+ Server.name server +:+ "...") >>
  navigateToServer (Server.name server) >>
  navigateToChannel (Server.name server) (Server.channel server) >>
  let* emojiButtonSelector := openEmojiPicker env (Server.name server) in
  let* emojis := extractEmojiUrls (Server.name server) in
  consoleLog (inspect emojis) >>
  consoleLog ("Found " +:+ pretty (length emojis) +:+ " emojis in "
              +:+ Server.name server +:+ ".") >>
  Pipeline.downloadAndProcessEmojis (rt := sessionRuntime) emojis server
    (outputBaseDir env) (emojiSize env) >>
  onPage (click emojiButtonSelector) >>
  sleep 1000.

(** [index.ts], lines 39-73: what the [try] block does *)
Definition steps (env : EnvConfig) : M (B * FS) unit :=
  loginToDiscord (discordEmail env) (discordPassword env) >>
  handle2FA env >>
  forOf (processServer env) (servers env) >>
  consoleLog "All emojis from all servers have been downloaded and processed!".

(** [index.ts], lines 39-78: the run, once the browser is launched and
    the page is open *)
Definition run (env : EnvConfig) : M (B * FS) unit :=
  tryFinally
    (tryCatch (steps env)
       (fun message => consoleError "An error occurred:" message))
    (onPage close).

End WithDriver.
End Session.

(** The configuration with another list of servers. *)
Definition setServers (l : list Server.t) (env : EnvConfig) : EnvConfig :=
  {| discordEmail := discordEmail env;
     discordPassword := discordPassword env;
     servers := l;
     outputBaseDir := outputBaseDir env;
     emojiSize := emojiSize env;
     discord2FASelector := discord2FASelector env;
     discordEmojiButtonSelector := discordEmojiButtonSelector env |}.

(** Two worlds with the same browser, whatever their files and consoles. *)
Definition sameBrowser {B FS1 FS2 : Type} (w1 : World (B * FS1))
    (w2 : World (B * FS2)) : Prop :=
  (fs w1).1 = (fs w2).1.

(** Two computations that, started with the same browser, end with the
    same outcome and the same browser. *)
Definition agree {B FS1 FS2 A : Type} (c1 : M (B * FS1) A)
    (c2 : M (B * FS2) A) : Prop :=
  ∀ w1 w2, sameBrowser w1 w2 →
    (c1 w1).1 = (c2 w2).1 ∧ sameBrowser (c1 w1).2 (c2 w2).2.

(** Every file that [c] creates or changes has a path in [P]. *)
Definition writesWithin {B A : Type} (P : string → Prop)
    (c : M (B * gmap string bytes) A) : Prop :=
  ∀ w path, (fs (c w).2).2 !! path ≠ (fs w).2 !! path → P path.

(** The destinations of a run: under the folder of one of the servers,
    [<name>.webp] for a name of allowed characters. *)
Definition cleanDestination (env : EnvConfig) (path : string) : Prop :=
  ∃ server n, server ∈ servers env ∧ allNameChars n = true
    ∧ path = directoryPrefix (outputBaseDir env) (Server.folder server)
             +:+ n +:+ ".webp".

(** A second server, whose emoji tab never opens a picker. *)
Definition hub : Server.t :=
  {| Server.name := "Online Hub"; Server.folder := "Online_Hub";
     Server.channel := "general" |}.

(** A browser that is the selector clicked last.  No 2FA prompt comes up;
    the picker is there once the tab of [Cozyhive] is clicked, and on no
    other tab. *)
Definition tabDriver : Driver string :=
  {| goto := fun _ b => (Ok tt, b);
     typeInto := fun _ _ b => (Ok tt, b);
     click := fun selector _ => (Ok tt, selector);
     waitForSelector := fun selector _ b =>
       if includes selector "input[placeholder="
       then (Throw "Waiting for selector failed: 50000ms exceeded", b)
       else (Ok tt, b);
     scrollIntoView := fun _ b => (Ok tt, b);
     waitForNavigation := fun b => (Ok tt, b);
     delay := fun _ b => b;
     document := fun b =>
       if String.eqb b ("div[aria-label=" +:+ dq +:+ "Cozyhive" +:+ dq +:+ "]")
       then pageOf shortSection
       else {| emojiPickerContainer := false; serverEmojiSection := None |};
     afterEvaluate := fun b => b;
     close := fun _ => (Ok tt, "");
     prompt := fun _ _ => None;
     inspect := fun emojis => "[ " +:+ pretty (length emojis) +:+ " items ]" |}.

Definition exampleEnv : EnvConfig :=
  {| discordEmail := "me@example.org";
     discordPassword := "secret";
     servers := [cozy; hub; cozy];
     outputBaseDir := "/srv/emojis";
     emojiSize := 512;
     discord2FASelector := "6-digit authentication code";
     discordEmojiButtonSelector := "Select emoji" |}.

(** The start of the example run: a blank tab, no files, a silent
    console. *)
Definition startWorld : World (string * gmap string bytes) :=
  mkWorld ("about:blank", ∅) [].

(** ** Query parameters, as the specification speaks of them *)






(** * Properties *)

(** ** Strings *)

Lemma append_cons (c : ascii) (s t : string) : String c s +:+ t = String c (s +:+ t).
Proof. reflexivity. Qed.

Lemma append_empty_l (t : string) : "" +:+ t = t.
Proof. reflexivity. Qed.

Lemma append_assoc (s1 s2 s3 : string) : (s1 +:+ s2) +:+ s3 = s1 +:+ s2 +:+ s3.
Proof.
  induction s1 as [|c s1 IH]; [done |].
  by rewrite !append_cons, IH.
Qed.

Lemma append_empty_r (s : string) : s +:+ "" = s.
Proof. induction s as [|c s IH]; [done | by rewrite append_cons, IH]. Qed.

Lemma prefix_cons (a b : ascii) (p s : string) :
  String.prefix (String a p) (String b s)
  = if ascii_dec a b then String.prefix p s else false.
Proof. reflexivity. Qed.

Lemma prefix_spec (p s : string) :
  String.prefix p s = true ↔ ∃ post, s = p +:+ post.
Proof.
  revert s. induction p as [|a p IH]; intros s.
  - destruct s; split; eauto.
  - destruct s as [|b s].
    + split; [done | intros [post H]; discriminate].
    + rewrite prefix_cons. destruct (ascii_dec a b) as [->|Hne].
      * rewrite IH. split; intros [post H]; exists post.
        -- by rewrite append_cons, H.
        -- rewrite append_cons in H. by injection H.
      * split; [done | intros [post H]].
        rewrite append_cons in H. injection H. congruence.
Qed.

Lemma includes_cons (c : ascii) (s t : string) :
  includes (String c s) t = String.prefix t (String c s) || includes s t.
Proof. reflexivity. Qed.

Lemma includes_spec (s t : string) :
  includes s t = true ↔ ∃ pre post, s = pre +:+ t +:+ post.
Proof.
  induction s as [|c s IH].
  - change (includes "" t) with (String.prefix t ""). rewrite prefix_spec. split.
    + intros [post H]. exists "", post. done.
    + intros ([|c pre] & post & H); [|discriminate].
      rewrite append_empty_l in H. exists "".
      destruct t; [done | discriminate].
  - rewrite includes_cons, orb_true_iff, IH, prefix_spec. split.
    + intros [[post H] | (pre & post & H)].
      * exists "", post. done.
      * exists (String c pre), post. by rewrite append_cons, H.
    + intros ([|c' pre] & post & H).
      * left. exists post. done.
      * right. exists pre, post. rewrite append_cons in H. by injection H.
Qed.

Lemma includes_append_r (s t : string) : includes (s +:+ t) t = true.
Proof. apply includes_spec. exists s, "". by rewrite append_empty_r. Qed.

Lemma replaceSize_unfold (s : string) :
  replaceSize s =
    match matchSize s with
    | Some rest => "size=512" +:+ rest
    | None =>
        match s with
        | EmptyString => EmptyString
        | String c s' => String c (replaceSize s')
        end
    end.
Proof. by destruct s. Qed.

Lemma testSize_unfold (s : string) :
  testSize s =
    match matchSize s with
    | Some _ => true
    | None =>
        match s with
        | EmptyString => false
        | String _ s' => testSize s'
        end
    end.
Proof. by destruct s. Qed.

Lemma dropDigits_split (r : string) :
  ∃ ds, r = ds +:+ dropDigits r ∧ allDigits ds = true.
Proof.
  induction r as [|c r (ds & Hr & Hds)]; simpl.
  - by exists "".
  - destruct (isDigit c) eqn:Hc.
    + exists (String c ds). simpl. rewrite Hc, Hds, append_cons. by rewrite <- Hr.
    + by exists "".
Qed.

Lemma stripPrefix_spec (p s r : string) :
  stripPrefix p s = Some r ↔ s = p +:+ r.
Proof.
  revert s. induction p as [|a p IH]; intros s.
  - simpl. rewrite append_empty_l. destruct s; split; congruence.
  - destruct s as [|b s]; simpl; [split; discriminate |].
    rewrite append_cons. destruct (Ascii.eqb_spec a b) as [->|Hne].
    + rewrite IH. split; congruence.
    + split; [discriminate | congruence].
Qed.

Lemma dropDigits_noLeadingDigit (r : string) :
  noLeadingDigit (dropDigits r) = true.
Proof.
  induction r as [|c r IH]; simpl; [done |].
  destruct (isDigit c) eqn:Hc; [done | simpl; by rewrite Hc].
Qed.

(** What a match of [/size=\d+/] at the head of [s] consumes: all the
    digits that follow [size=]. *)
Lemma matchSize_Some (s rest : string) :
  matchSize s = Some rest →
  ∃ ds, s = "size=" +:+ ds +:+ rest ∧ ds ≠ "" ∧ allDigits ds = true
        ∧ noLeadingDigit rest = true.
Proof.
  unfold matchSize. intros H.
  destruct (stripPrefix "size=" s) as [[|d r]|] eqn:Hp; try discriminate.
  destruct (isDigit d) eqn:Hd; [|discriminate]. injection H as <-.
  apply stripPrefix_spec in Hp.
  destruct (dropDigits_split r) as (ds & Hr & Hds).
  exists (String d ds). split_and!; [| done | simpl; by rewrite Hd, Hds
                                     | apply dropDigits_noLeadingDigit].
  rewrite Hp. f_equal.
  change (String d ds +:+ dropDigits r) with (String d (ds +:+ dropDigits r)).
  by rewrite <- Hr.
Qed.

Lemma matchSize_digits (d : ascii) (ds post : string) :
  isDigit d = true →
  ∃ rest, matchSize ("size=" +:+ String d ds +:+ post) = Some rest.
Proof.
  intros Hd. unfold matchSize.
  rewrite (proj2 (stripPrefix_spec "size=" _ (String d ds +:+ post)) eq_refl).
  change (String d ds +:+ post) with (String d (ds +:+ post)).
  cbv beta iota. rewrite Hd. eauto.
Qed.

Lemma matchSize_append (t u : string) :
  is_Some (matchSize t) → is_Some (matchSize (t +:+ u)).
Proof.
  intros [rest (ds & -> & Hne & Hds & _)%matchSize_Some].
  destruct ds as [|d ds]; [done |]. simpl in Hds.
  apply andb_true_iff in Hds as [Hd _].
  destruct (matchSize_digits d ds (rest +:+ u) Hd) as [rest' Hm].
  exists rest'. rewrite <- Hm. f_equal.
  by rewrite !append_assoc.
Qed.

(** [replace] rewrites the leftmost match (no match starts before it),
    digits and all, and leaves the text around it as it was. *)
Lemma replaceSize_match (s : string) :
  testSize s = true →
  ∃ pre ds post,
    s = pre +:+ "size=" +:+ ds +:+ post ∧ ds ≠ "" ∧ allDigits ds = true
    ∧ noLeadingDigit post = true
    ∧ testSize (pre +:+ "size=") = false
    ∧ replaceSize s = pre +:+ "size=512" +:+ post.
Proof.
  induction s as [|c s IH]; rewrite testSize_unfold, replaceSize_unfold.
  - by cbv.
  - destruct (matchSize (String c s)) as [rest|] eqn:Hm.
    + intros _. destruct (matchSize_Some _ _ Hm) as (ds & Hs & Hne & Hds & Hpost).
      exists "", ds, rest. by rewrite !append_empty_l.
    + intros (pre & ds & post & Hs & Hne & Hds & Hpost & Hleft & Hr)%IH.
      exists (String c pre), ds, post. rewrite !(append_cons c pre).
      split_and!; try done; [by rewrite <- Hs | | by rewrite Hr].
      rewrite testSize_unfold, Hleft.
      destruct (matchSize (String c (pre +:+ "size="))) as [rest|] eqn:Hm'; [|done].
      pose proof (matchSize_append (String c (pre +:+ "size=")) (ds +:+ post)
                    (mk_is_Some _ _ Hm')) as [rest' Hm''].
      rewrite append_cons, append_assoc, <- Hs, Hm in Hm''. done.
Qed.

Lemma hasSizeParam_testSize (s : string) : hasSizeParam s → testSize s = true.
Proof.
  intros (pre & ds & post & -> & Hne & Hds).
  destruct ds as [|d ds]; [done |]. simpl in Hds.
  apply andb_true_iff in Hds as [Hd _].
  induction pre as [|c pre IH]; rewrite testSize_unfold.
  - rewrite append_empty_l.
    by destruct (matchSize_digits d ds post Hd) as [rest ->].
  - rewrite append_cons.
    by destruct (matchSize (String c (pre +:+ "size=" +:+ String d ds +:+ post))).
Qed.

(** The regular expression finds a match exactly in the URLs that carry
    a size parameter. *)
Lemma testSize_iff (s : string) : testSize s = true ↔ hasSizeParam s.
Proof.
  split; [|apply hasSizeParam_testSize].
  intros (pre & ds & post & Hs & Hne & Hds & _ & _ & _)%replaceSize_match.
  by exists pre, ds, post.
Qed.

Lemma includes_size64 (s : string) : includes s "size=64" = true → hasSizeParam s.
Proof.
  intros (pre & post & ->)%includes_spec. by exists pre, "64", post.
Qed.



(** ** The collector *)

Section FirstSeen.

Lemma firstSeen_cons (d : Emoji) (l : list Emoji) :
  firstSeen (d :: l) = d :: filter (λ e, url e ≠ url d) (firstSeen l).
Proof. reflexivity. Qed.

Lemma filter_urls (d : Emoji) (k : list Emoji) (u : string) :
  u ∈ url <$> filter (λ e, url e ≠ url d) k ↔ u ≠ url d ∧ u ∈ url <$> k.
Proof.
  rewrite !list_elem_of_fmap. setoid_rewrite list_elem_of_filter. split.
  - intros (e & -> & Hne & Hin). eauto.
  - intros (Hne & e & -> & Hin). eauto.
Qed.

Lemma firstSeen_urls (l : list Emoji) (u : string) :
  u ∈ url <$> firstSeen l ↔ u ∈ url <$> l.
Proof.
  induction l as [|d l IH]; [done |].
  rewrite firstSeen_cons, !fmap_cons, !elem_of_cons, filter_urls, IH.
  destruct (decide (u = url d)); tauto.
Qed.

Lemma filter_urls_NoDup (d : Emoji) (k : list Emoji) :
  NoDup (url <$> k) → NoDup (url <$> filter (λ e, url e ≠ url d) k).
Proof.
  induction k as [|e k IH]; [done |].
  rewrite fmap_cons, NoDup_cons. intros [Hnin Hk].
  rewrite filter_cons. case_decide; [|by auto].
  rewrite fmap_cons. apply NoDup_cons. split; [|by auto].
  rewrite filter_urls. tauto.
Qed.

Lemma firstSeen_NoDup (l : list Emoji) : NoDup (url <$> firstSeen l).
Proof.
  induction l as [|d l IH]; [constructor |].
  rewrite firstSeen_cons, fmap_cons. apply NoDup_cons. split.
  - rewrite filter_urls. tauto.
  - by apply filter_urls_NoDup.
Qed.

Lemma firstSeen_snoc (l : list Emoji) (d : Emoji) :
  firstSeen (l ++ [d]) =
    if decide (url d ∈ url <$> l) then firstSeen l else firstSeen l ++ [d].
Proof.
  induction l as [|a l IH].
  - rewrite decide_False by apply not_elem_of_nil. done.
  - rewrite <- app_comm_cons, !firstSeen_cons, IH, fmap_cons.
    destruct (decide (url d = url a)) as [Heq | Hne].
    + rewrite (decide_True (P := url d ∈ url a :: _))
        by (rewrite Heq; apply elem_of_cons; by left).
      f_equal. case_decide; [done |].
      rewrite filter_app, (filter_cons _ d), decide_False by (intros H'; by apply H').
      by rewrite app_nil_r.
    + case_decide as Hin.
      * by rewrite decide_True by (apply elem_of_cons; by right).
      * rewrite decide_False by (rewrite elem_of_cons; intros [? | ?]; done).
        rewrite filter_app, (filter_cons _ d), decide_True by done. done.
Qed.

Lemma discoveredAt_app (l k : list Emoji) (p : nat) (e : Emoji) :
  discoveredAt l p e → discoveredAt (l ++ k) p e.
Proof.
  intros [Hp Hfirst]. pose proof (lookup_lt_Some _ _ _ Hp) as Hlt. split.
  - by rewrite lookup_app_l.
  - intros q e' Hq. rewrite lookup_app_l by lia. by apply Hfirst.
Qed.

(** The selection lists the descriptors by the place of their discovery:
    every element is the first of its URL in [l], and elements come in
    the order of these places. *)
Lemma firstSeen_discovered (l : list Emoji) :
  (∀ i e, firstSeen l !! i = Some e → ∃ p, discoveredAt l p e)
  ∧ (∀ i j e1 e2,
       firstSeen l !! i = Some e1 → firstSeen l !! j = Some e2 → i < j →
       ∃ p q, discoveredAt l p e1 ∧ discoveredAt l q e2 ∧ p < q).
Proof.
  induction l as [|d l [IH1 IH2]] using rev_ind; [by split |].
  rewrite firstSeen_snoc. case_decide as Hseen.
  { split.
    - intros i e (p & Hp)%IH1. exists p. by apply discoveredAt_app.
    - intros i j e1 e2 H1 H2 Hij.
      destruct (IH2 i j e1 e2 H1 H2 Hij) as (p & q & Hp & Hq & Hpq).
      exists p, q. split_and!; [by apply discoveredAt_app.. | done]. }
  assert (Hd : discoveredAt (l ++ [d]) (length l) d).
  { split; [by rewrite list_lookup_middle |].
    intros q e' Hq. rewrite lookup_app_l by done. intros He' Heq.
    apply Hseen. rewrite <- Heq. apply list_elem_of_fmap. exists e'.
    split; [done |]. by apply list_elem_of_lookup_2 in He'. }
  split.
  - intros i e [[Hi He] | (_ & ->)]%lookup_snoc_Some; [|by eauto].
    destruct (IH1 i e He) as [p Hp]. exists p. by apply discoveredAt_app.
  - intros i j e1 e2 H1 H2 Hij.
    apply lookup_snoc_Some in H2 as [[Hj H2] | (Hj & ->)].
    + apply lookup_snoc_Some in H1 as [[_ H1] | [Hi _]]; [|lia].
      destruct (IH2 i j e1 e2 H1 H2 Hij) as (p & q & Hp & Hq & Hpq).
      exists p, q. split_and!; [by apply discoveredAt_app.. | done].
    + apply lookup_snoc_Some in H1 as [[_ H1] | [Hi _]]; [|lia].
      destruct (IH1 i e1 H1) as [p Hp]. exists p, (length l).
      split_and!; [by apply discoveredAt_app | done |].
      destruct Hp as [Hp _]. by apply lookup_lt_Some in Hp.
Qed.

End FirstSeen.

Lemma scanEmoji_harvested (st : LoopState) (seen : list Img) (emoji : Img) :
  Harvested st seen → Harvested (scanEmoji st emoji) (seen ++ [emoji]).
Proof.
  intros [Hset Hlist]. unfold Harvested, scanEmoji.
  rewrite fmap_snoc, firstSeen_snoc.
  assert (Hiff : url (descriptor emoji) ∈ emojiData st
                 ↔ url (descriptor emoji) ∈ url <$> (descriptor <$> seen)).
  { rewrite Hset, elem_of_list_to_set, Hlist. apply firstSeen_urls. }
  destruct (decide (url (descriptor emoji) ∈ emojiData st)) as [Hin | Hnin].
  - rewrite decide_True by by apply Hiff. done.
  - rewrite decide_False by (intros H; by apply Hnin, Hiff). simpl.
    rewrite <- Hlist. split; [|done].
    rewrite fmap_snoc, list_to_set_app_L, list_to_set_singleton_L, <- Hset.
    apply (comm_L (∪)).
Qed.

Lemma scan_harvested (imgs0 : list Img) (st : LoopState) (seen : list Img) :
  Harvested st seen → Harvested (foldl scanEmoji st imgs0) (seen ++ imgs0).
Proof.
  revert st seen. induction imgs0 as [|i imgs0 IH]; intros st seen H; simpl.
  - by rewrite app_nil_r.
  - rewrite (cons_middle i seen imgs0), app_assoc.
    by apply IH, scanEmoji_harvested.
Qed.

Lemma scan_sameControl (imgs0 : list Img) (st : LoopState) :
  sameControl st (foldl scanEmoji st imgs0).
Proof.
  revert st. induction imgs0 as [|i imgs0 IH]; intros st; simpl; [done |].
  destruct (IH (scanEmoji st i)) as (H1 & H2 & H3 & H4).
  unfold sameControl. rewrite H1, H2, H3, H4.
  unfold scanEmoji. by case_decide.
Qed.

Lemma scan_nothingNew (view : SectionView) (st : LoopState) :
  nothingNew view (emojiData st) = true →
  foldl scanEmoji st (querySelectorAll view) = st.
Proof.
  unfold nothingNew. generalize (querySelectorAll view). intros l.
  induction l as [|i l IH]; simpl; [done |].
  intros [Hi Hl]%andb_true_iff. apply bool_decide_eq_true in Hi.
  assert (scanEmoji st i = st) as ->; [|by apply IH].
  unfold scanEmoji. by rewrite decide_True.
Qed.

Lemma harvested_size (st : LoopState) (seen : list Img) :
  Harvested st seen → size (emojiData st) = length (emojisWithNames st).
Proof.
  intros [-> Hlist]. rewrite size_list_to_set, length_fmap; [done |].
  rewrite Hlist. apply firstSeen_NoDup.
Qed.

(** *** One pass *)

Lemma scrollsIssued_emit (e : Effect) (st : LoopState) :
  scrollsIssued (emit e st) = scrollsIssued st + (if isScroll e then 1 else 0).
Proof.
  unfold scrollsIssued, emit. simpl.
  rewrite List.filter_app, length_app. simpl. by destruct (isScroll e).
Qed.

(** The three ways through the body, with the state each one produces
    written out. *)
Lemma iteration_unfold (view : SectionView) (st : LoopState) :
  let st1 := foldl scanEmoji st (querySelectorAll view) in
  let cur := size (emojiData st1) in
  iteration view st =
    if reachedNextSection view then
      Break (mkLoopState (emojiData st1) (emojisWithNames st1)
               (previousEmojiCount st) (scrollAttempts st) (noNewEmojisCount st)
               (effects st ++ [attemptLine st cur;
                  ConsoleLog "Reached the next category section, stopping scroll"]))
    else if (cur =? previousEmojiCount st)%nat then
      if (3 <=? noNewEmojisCount st + 1)%nat then
        Break (mkLoopState (emojiData st1) (emojisWithNames st1)
                 (previousEmojiCount st) (scrollAttempts st)
                 (noNewEmojisCount st + 1)
                 (effects st ++ [attemptLine st cur;
                    ConsoleLog "No new emojis loaded after 3 attempts, stopping scroll"]))
      else
        Continue (mkLoopState (emojiData st1) (emojisWithNames st1) cur
                    (scrollAttempts st + 1) (noNewEmojisCount st + 1)
                    (effects st ++ [attemptLine st cur; ScrollBy scrollIncrement;
                                    SetTimeout 1500]))
    else
      Continue (mkLoopState (emojiData st1) (emojisWithNames st1) cur
                  (scrollAttempts st + 1) 0
                  (effects st ++ [attemptLine st cur; ScrollBy scrollIncrement;
                                  SetTimeout 1500])).
Proof.
  intros st1 cur. unfold iteration, scrollOn. fold st1. fold cur.
  destruct (scan_sameControl (querySelectorAll view) st) as (Hp & Ha & Hn & He).
  fold st1 in Hp, Ha, Hn, He. unfold emit, set_noNewEmojisCount, attemptLine.
  cbn [emojiData emojisWithNames previousEmojiCount scrollAttempts
       noNewEmojisCount effects].
  rewrite Hp, Ha, Hn, He.
  destruct (reachedNextSection view).
  { by rewrite <- app_assoc. }
  destruct (cur =? previousEmojiCount st)%nat.
  - destruct (3 <=? noNewEmojisCount st + 1)%nat; by rewrite <- !app_assoc.
  - by rewrite <- !app_assoc.
Qed.

Lemma scrollsIssued_app (a : gset string) (b : list Emoji) (p n c : nat)
    (st : LoopState) (l : list Effect) :
  scrollsIssued (mkLoopState a b p n c (effects st ++ l))
  = scrollsIssued st + length (List.filter isScroll l).
Proof. unfold scrollsIssued. simpl. by rewrite List.filter_app, length_app. Qed.

(** The outcome of a pass, field by field. *)
Lemma iteration_cases (view : SectionView) (st : LoopState) :
  let st1 := foldl scanEmoji st (querySelectorAll view) in
  let st' := flowState (iteration view st) in
  emojiData st' = emojiData st1
  ∧ emojisWithNames st' = emojisWithNames st1
  ∧ match iteration view st with
    | Break _ =>
        scrollAttempts st' = scrollAttempts st
        ∧ scrollsIssued st' = scrollsIssued st
        ∧ ((reachedNextSection view = true
            ∧ noNewEmojisCount st' = noNewEmojisCount st
            ∧ last (effects st')
              = Some (ConsoleLog "Reached the next category section, stopping scroll"))
           ∨ (reachedNextSection view = false
              ∧ size (emojiData st1) = previousEmojiCount st
              ∧ noNewEmojisCount st' = noNewEmojisCount st + 1
              ∧ 3 ≤ noNewEmojisCount st'
              ∧ last (effects st')
                = Some (ConsoleLog "No new emojis loaded after 3 attempts, stopping scroll")))
    | Continue _ =>
        scrollAttempts st' = scrollAttempts st + 1
        ∧ scrollsIssued st' = scrollsIssued st + 1
        ∧ previousEmojiCount st' = size (emojiData st1)
        ∧ reachedNextSection view = false
        ∧ noNewEmojisCount st'
          = (if decide (size (emojiData st1) = previousEmojiCount st)
             then noNewEmojisCount st + 1 else 0)
        ∧ noNewEmojisCount st' < 3
    end.
Proof.
  intros st1 st'. subst st'. rewrite (iteration_unfold view st). fold st1.
  destruct (reachedNextSection view).
  { cbn [flowState]. rewrite scrollsIssued_app. simpl.
    split_and!; try done; try lia. left. split_and!; try done.
    by rewrite last_app. }
  destruct (Nat.eqb_spec (size (emojiData st1)) (previousEmojiCount st)) as [Heq | Hne].
  - destruct (Nat.leb_spec 3 (noNewEmojisCount st + 1)) as [Hge | Hlt].
    + cbn [flowState]. rewrite scrollsIssued_app. simpl.
      split_and!; try done; try lia. right. split_and!; try done.
      by rewrite last_app.
    + cbn [flowState]. rewrite scrollsIssued_app, decide_True by done. simpl.
      split_and!; try done; lia.
  - cbn [flowState]. rewrite scrollsIssued_app, decide_False by done. simpl.
    split_and!; try done; lia.
Qed.

Lemma scannedIn_snoc (section : nat → SectionView) (n : nat) :
  scannedIn section 0 (n + 1)
  = scannedIn section 0 n ++ querySelectorAll (section n).
Proof.
  unfold scannedIn. rewrite seq_app, flat_map_app. simpl. by rewrite app_nil_r.
Qed.

Lemma LoopInv_initial (section : nat → SectionView) : LoopInv section initialState.
Proof. repeat split. simpl. lia. Qed.

Lemma iteration_harvested (section : nat → SectionView) (st : LoopState) :
  LoopInv section st →
  Harvested (flowState (iteration (section (scrollAttempts st)) st))
    (scannedIn section 0 (scrollAttempts st + 1)).
Proof.
  intros (_ & _ & _ & Hh).
  destruct (iteration_cases (section (scrollAttempts st)) st) as (Hd & Hl & _).
  apply (scan_harvested (querySelectorAll (section (scrollAttempts st)))) in Hh.
  rewrite scannedIn_snoc. destruct Hh as [Hset Hlist].
  split; rewrite ?Hd, Hl; done.
Qed.

Lemma iteration_LoopInv (section : nat → SectionView) (st st' : LoopState) :
  LoopInv section st →
  iteration (section (scrollAttempts st)) st = Continue st' →
  LoopInv section st' ∧ scrollAttempts st' = scrollAttempts st + 1.
Proof.
  intros Hinv Hit. pose proof (iteration_harvested section st Hinv) as Hh.
  destruct (iteration_cases (section (scrollAttempts st)) st) as (Hd & Hl & Hc).
  rewrite Hit in Hd, Hl, Hc, Hh. simpl in Hd, Hl, Hc, Hh.
  destruct Hc as (Ha & Hs & Hp & _ & _ & Hn).
  destruct Hinv as (_ & _ & Hs0 & _).
  split; [|done]. unfold LoopInv.
  split_and!; [by rewrite Hp, Hd | done | lia | by rewrite Ha].
Qed.

(** *** The loop *)

Lemma iteration_Continue_attempts (view : SectionView) (st st' : LoopState) :
  iteration view st = Continue st' → scrollAttempts st' = scrollAttempts st + 1.
Proof.
  intros H. destruct (iteration_cases view st) as (_ & _ & Hc).
  rewrite H in Hc. simpl in Hc. tauto.
Qed.

(** The loop needs no more passes than the guard allows: any larger
    supply of passes gives the same final state. *)
Lemma scrollLoop_fuel (section : nat → SectionView) (fuel : nat) (st : LoopState) :
  maxScrollAttempts - scrollAttempts st ≤ fuel →
  scrollLoop section fuel st
  = scrollLoop section (maxScrollAttempts - scrollAttempts st) st.
Proof.
  revert st. induction fuel as [|fuel IH]; intros st Hle.
  - by replace (maxScrollAttempts - scrollAttempts st) with 0 by lia.
  - simpl. destruct (Nat.ltb_spec (scrollAttempts st) maxScrollAttempts) as [Hlt | Hge].
    + replace (maxScrollAttempts - scrollAttempts st)
        with (S (maxScrollAttempts - (scrollAttempts st + 1))) by lia.
      simpl. rewrite (proj2 (Nat.ltb_lt _ _) Hlt).
      destruct (iteration (section (scrollAttempts st)) st) as [st' | st'] eqn:Hit;
        [done |].
      apply iteration_Continue_attempts in Hit. rewrite <- Hit. apply IH. lia.
    + by replace (maxScrollAttempts - scrollAttempts st) with 0 by lia.
Qed.

Lemma scrollLoop_harvested (section : nat → SectionView) (fuel : nat)
    (st : LoopState) :
  LoopInv section st →
  Harvested (scrollLoop section fuel st)
    (scannedIn section 0 (scrollAttempts st + passesFrom section fuel st)).
Proof.
  revert st. induction fuel as [|fuel IH]; intros st Hinv; simpl.
  - rewrite Nat.add_0_r. apply Hinv.
  - destruct (scrollAttempts st <? maxScrollAttempts)%nat;
      [|rewrite Nat.add_0_r; apply Hinv].
    pose proof (iteration_harvested section st Hinv) as Hh.
    destruct (iteration (section (scrollAttempts st)) st) as [st' | st'] eqn:Hit;
      [done |].
    destruct (iteration_LoopInv section st st' Hinv Hit) as [Hinv' Ha].
    specialize (IH st' Hinv'). rewrite Ha in IH.
    by replace (scrollAttempts st + S (passesFrom section fuel st'))
      with (scrollAttempts st + 1 + passesFrom section fuel st') by lia.
Qed.

Lemma reach_LoopInv (section : nat → SectionView) (k : nat) (st : LoopState) :
  reach section k = Some st → LoopInv section st ∧ scrollAttempts st = k.
Proof.
  revert st. induction k as [|k IH]; intros st; simpl.
  - intros [= <-]. split; [apply LoopInv_initial | done].
  - destruct (reach section k) as [st0|]; [|done].
    destruct (IH st0 eq_refl) as [Hinv Ha].
    destruct (scrollAttempts st0 <? maxScrollAttempts)%nat; [|done].
    destruct (iteration (section (scrollAttempts st0)) st0) as [?|st'] eqn:Hit;
      [done |].
    intros [= <-]. destruct (iteration_LoopInv section st0 st' Hinv Hit).
    split; [done | lia].
Qed.

Lemma reach_loop (section : nat → SectionView) (k : nat) (st : LoopState) :
  reach section k = Some st →
  scrollLoop section (maxScrollAttempts - k) st = finalState section
  ∧ k + passesFrom section (maxScrollAttempts - k) st = passes section.
Proof.
  revert st. induction k as [|k IH]; intros st; simpl reach.
  - intros [= <-]. done.
  - destruct (reach section k) as [st0|] eqn:Hr; [|done].
    destruct (reach_LoopInv section k st0 Hr) as [_ Ha].
    destruct (IH st0 eq_refl) as [Hloop Hpass].
    destruct (Nat.ltb_spec (scrollAttempts st0) maxScrollAttempts) as [Hlt | Hge];
      [|done].
    destruct (iteration (section (scrollAttempts st0)) st0) as [?|st'] eqn:Hit;
      [done |].
    intros [= <-]. revert Hloop Hpass.
    replace (maxScrollAttempts - k) with (S (maxScrollAttempts - S k)) by lia.
    simpl. rewrite (proj2 (Nat.ltb_lt _ _) Hlt), Hit. intros <- <-. split; [done | lia].
Qed.

Lemma reach_step (section : nat → SectionView) (k : nat) (st st' : LoopState) :
  reach section k = Some st → k < maxScrollAttempts →
  iteration (section k) st = Continue st' →
  reach section (S k) = Some st'.
Proof.
  intros Hr Hlt Hit. destruct (reach_LoopInv section k st Hr) as [_ Ha].
  simpl. rewrite Hr, Ha, (proj2 (Nat.ltb_lt _ _) Hlt), Hit. done.
Qed.

(** A pass that leaves the loop decides the final state. *)
Lemma final_break (section : nat → SectionView) (k : nat) (st st' : LoopState) :
  reach section k = Some st → k < maxScrollAttempts →
  iteration (section k) st = Break st' →
  finalState section = st' ∧ passes section = S k.
Proof.
  intros Hr Hlt Hit. destruct (reach_LoopInv section k st Hr) as [_ Ha].
  destruct (reach_loop section k st Hr) as [<- <-].
  replace (maxScrollAttempts - k) with (S (maxScrollAttempts - S k)) by lia.
  simpl. rewrite Ha, (proj2 (Nat.ltb_lt _ _) Hlt), Hit. split; [done | lia].
Qed.

Lemma final_harvested (section : nat → SectionView) :
  Harvested (finalState section) (scanned section).
Proof. apply (scrollLoop_harvested section _ _ (LoopInv_initial section)). Qed.

Lemma passesFrom_bound (section : nat → SectionView) (fuel : nat) (st : LoopState) :
  passesFrom section fuel st ≤ fuel.
Proof.
  revert st. induction fuel as [|fuel IH]; intros st; simpl; [lia |].
  destruct (_ <? _)%nat; [|lia].
  destruct (iteration _ st) as [?|st']; [lia |]. specialize (IH st'). lia.
Qed.

Lemma passes_bound (section : nat → SectionView) :
  passes section ≤ maxScrollAttempts.
Proof. apply passesFrom_bound. Qed.

(** The passes counted are the passes the loop gets to. *)
Lemma passes_reach (section : nat → SectionView) (k : nat) :
  k < passes section ↔ k < maxScrollAttempts ∧ is_Some (reach section k).
Proof.
  split.
  - induction k as [|k IH]; intros Hk.
    { split; [unfold maxScrollAttempts; lia | by eexists]. }
    destruct IH as [Hlt [st Hr]]; [lia |].
    destruct (reach_LoopInv section k st Hr) as [_ Ha].
    destruct (reach_loop section k st Hr) as [_ Hp]. revert Hp.
    replace (maxScrollAttempts - k) with (S (maxScrollAttempts - S k)) by lia.
    simpl. rewrite Ha, (proj2 (Nat.ltb_lt _ _) Hlt).
    destruct (iteration (section k) st) as [?|st'] eqn:Hit; [lia |].
    intros _. pose proof (passes_bound section).
    split; [lia |]. exists st'. by apply (reach_step section k st).
  - intros [Hlt [st Hr]].
    destruct (reach_LoopInv section k st Hr) as [_ Ha].
    destruct (reach_loop section k st Hr) as [_ <-].
    replace (maxScrollAttempts - k) with (S (maxScrollAttempts - S k)) by lia.
    simpl. rewrite Ha, (proj2 (Nat.ltb_lt _ _) Hlt).
    destruct (iteration (section k) st); lia.
Qed.

(** *** Stagnation and the section boundary *)

Lemma stagnant_iteration (section : nat → SectionView) (k : nat) (st : LoopState) :
  reach section k = Some st →
  stagnantPass section (emojiData st) k = true →
  let log := attemptLine st (size (emojiData st)) in
  iteration (section k) st =
    if (3 <=? noNewEmojisCount st + 1)%nat then
      Break (mkLoopState (emojiData st) (emojisWithNames st)
               (previousEmojiCount st) (scrollAttempts st)
               (noNewEmojisCount st + 1)
               (effects st ++ [log;
                  ConsoleLog "No new emojis loaded after 3 attempts, stopping scroll"]))
    else
      Continue (mkLoopState (emojiData st) (emojisWithNames st)
                  (size (emojiData st)) (scrollAttempts st + 1)
                  (noNewEmojisCount st + 1)
                  (effects st ++ [log; ScrollBy scrollIncrement; SetTimeout 1500])).
Proof.
  intros Hr [Hb Hn]%andb_true_iff. apply negb_true_iff in Hb.
  destruct (reach_LoopInv section k st Hr) as [(Hp & _) _].
  rewrite iteration_unfold, (scan_nothingNew _ _ Hn), Hb, Hp, Nat.eqb_refl. done.
Qed.

(** From a reached pass on, [c + 1] stagnant passes that bring the counter
    to 3 end the loop at the last of them. *)
Lemma stagnation_stops (section : nat → SectionView) (c k : nat) (st : LoopState) :
  reach section k = Some st →
  noNewEmojisCount st + c = 2 →
  k + c < maxScrollAttempts →
  (∀ i, k ≤ i ≤ k + c → stagnantPass section (emojiData st) i = true) →
  let fin := finalState section in
  scrollAttempts fin = k + c
  ∧ passes section = S (k + c)
  ∧ emojisWithNames fin = emojisWithNames st
  ∧ last (effects fin)
    = Some (ConsoleLog "No new emojis loaded after 3 attempts, stopping scroll").
Proof.
  revert k st. induction c as [|c IH]; intros k st Hr Hc Hlt Hst.
  - pose proof (stagnant_iteration section k st Hr (Hst k ltac:(lia))) as Hit.
    replace (noNewEmojisCount st + 1) with 3 in Hit by lia. simpl in Hit.
    destruct (reach_LoopInv section k st Hr) as [_ Ha].
    destruct (final_break section k st _ Hr ltac:(lia) Hit) as [Hfin Hp].
    simpl. rewrite Hfin, Hp, Nat.add_0_r. simpl.
    split_and!; try done. by rewrite last_app.
  - pose proof (stagnant_iteration section k st Hr (Hst k ltac:(lia))) as Hit.
    destruct (Nat.leb_spec 3 (noNewEmojisCount st + 1)) as [? | _]; [lia |].
    simpl in Hit. apply (reach_step section k st _ Hr ltac:(lia)) in Hit.
    destruct (IH (S k) _ Hit) as (H1 & H2 & H3 & H4); simpl; try lia.
    + intros i Hi. apply Hst. lia.
    + replace (k + S c) with (S k + c) by lia. done.
Qed.

(** *** The collector's properties *)

Lemma extract_Ok (page : Page) (section : nat → SectionView) (out : list Emoji) :
  serverEmojiSection page = Some section →
  extractEmojiUrls page = Ok out →
  out = emojisWithNames (finalState section).
Proof.
  intros Hsec. unfold extractEmojiUrls. rewrite Hsec.
  destruct (negb (emojiPickerContainer page)); [done |]. by intros [= <-].
Qed.

Lemma collected_urls (section : nat → SectionView) (u : string) :
  u ∈ url <$> emojisWithNames (finalState section)
  ↔ ∃ img, img ∈ scanned section ∧ u = normalizeSrc (src img).
Proof.
  destruct (final_harvested section) as [_ ->].
  rewrite firstSeen_urls, <- list_fmap_compose, list_elem_of_fmap.
  split; intros (img & H1 & H2); exists img; done.
Qed.

(** C1: whatever the passes of the scan render, with URLs repeated at
    will, the list [extractEmojiUrls] returns holds exactly one descriptor
    for every distinct normalised URL, in the order of first discovery: it
    is the first-seen selection of the descriptors of the thumbnails
    scanned, no two of its elements share a URL, its URLs are exactly the
    normalised URLs scanned, every element is the descriptor met first for
    its URL, and an element that comes earlier in the list was discovered
    earlier in the scan. *)
Theorem C1_dedup_first_seen (page : Page) (section : nat → SectionView)
    (out : list Emoji) :
  serverEmojiSection page = Some section →
  extractEmojiUrls page = Ok out →
  let met := descriptor <$> scanned section in
  out = firstSeen met
  ∧ NoDup (url <$> out)
  ∧ (∀ u, u ∈ url <$> out
          ↔ ∃ img, img ∈ scanned section ∧ u = normalizeSrc (src img))
  ∧ (∀ i e, out !! i = Some e → ∃ p, discoveredAt met p e)
  ∧ (∀ i j e1 e2, out !! i = Some e1 → out !! j = Some e2 → i < j →
       ∃ p q, discoveredAt met p e1 ∧ discoveredAt met q e2 ∧ p < q).
Proof.
  intros Hsec Hout met. rewrite (extract_Ok page section out Hsec Hout).
  destruct (firstSeen_discovered met) as [Hfirst Horder].
  split_and!; [| |apply collected_urls| |].
  - by destruct (final_harvested section) as [_ ->].
  - destruct (final_harvested section) as [_ ->]. apply firstSeen_NoDup.
  - by destruct (final_harvested section) as [_ ->].
  - by destruct (final_harvested section) as [_ ->].
Qed.

Lemma C1_dedup_first_seen_witness :
  let out := [ {| url := "https://cdn.discordapp.com/emojis/1.webp?size=512&animated=true";
                  name := "wave" |};
               {| url := "https://cdn.discordapp.com/emojis/2.webp?size=512";
                  name := "PES_Bunny" |} ] in
  let met := descriptor <$> scanned shortSection in
  out = firstSeen met
  ∧ NoDup (url <$> out)
  ∧ (∀ u, u ∈ url <$> out
          ↔ ∃ img, img ∈ scanned shortSection ∧ u = normalizeSrc (src img))
  ∧ (∀ i e, out !! i = Some e → ∃ p, discoveredAt met p e)
  ∧ (∀ i j e1 e2, out !! i = Some e1 → out !! j = Some e2 → i < j →
       ∃ p q, discoveredAt met p e1 ∧ discoveredAt met q e2 ∧ p < q).
Proof.
  apply (C1_dedup_first_seen (pageOf shortSection) shortSection);
    vm_compute; reflexivity.
Defined.

(** *** The rewrite of the size and [animated=true] *)

Lemma noChar_cons (c c' : ascii) (s : string) :
  noChar c (String c' s) = negb (Ascii.eqb c c') && noChar c s.
Proof. reflexivity. Qed.

Lemma noChar_append (c : ascii) (x y : string) :
  noChar c (x +:+ y) = noChar c x && noChar c y.
Proof.
  induction x as [|c' x IH]; [done |].
  rewrite append_cons, !noChar_cons, IH. by rewrite andb_assoc.
Qed.

Lemma allDigits_noChar_a (ds : string) : allDigits ds = true → noChar "a" ds = true.
Proof.
  induction ds as [|d ds IH]; [done |].
  change (allDigits (String d ds)) with (isDigit d && allDigits ds).
  intros [Hd Hds]%andb_true_iff. rewrite noChar_cons, (IH Hds), andb_true_r.
  destruct (Ascii.eqb_spec "a"%char d) as [<- | _]; [by vm_compute in Hd | done].
Qed.

(** An occurrence of [animated=true] cannot start inside a text without
    the letter [a]. *)
Lemma includes_skip (x rest : string) :
  noChar "a" x = true →
  includes (x +:+ rest) "animated=true" = true →
  includes rest "animated=true" = true.
Proof.
  induction x as [|c x IH]; [done |]. rewrite noChar_cons.
  intros [Hc Hx]%andb_true_iff. rewrite append_cons, includes_cons.
  change "animated=true" with (String "a" "nimated=true") at 1.
  rewrite prefix_cons. destruct (ascii_dec "a" c) as [<- | _].
  { by rewrite Ascii.eqb_refl in Hc. }
  rewrite orb_false_l. by apply IH.
Qed.

(** No match of [/size=\d+/] starts inside a text without the letter
    [s]. *)
Lemma replaceSize_skip (x t : string) :
  noChar "s" x = true → replaceSize (x +:+ t) = x +:+ replaceSize t.
Proof.
  induction x as [|c x IH]; [done |]. rewrite noChar_cons.
  intros [Hc%negb_true_iff Hx]%andb_true_iff.
  rewrite !append_cons, replaceSize_unfold.
  unfold matchSize. cbn [stripPrefix]. rewrite Hc. by rewrite IH.
Qed.

(** The rewrite of the size never takes [animated=true] out of a URL. *)
Lemma replaceSize_keeps_animated (s : string) :
  includes s "animated=true" = true →
  includes (replaceSize s) "animated=true" = true.
Proof.
  induction s as [|c s IH]; [done |]. intros Hin.
  pose proof Hin as Hin'. rewrite includes_cons in Hin'.
  apply orb_true_iff in Hin' as [Hpre | Hs].
  - apply prefix_spec in Hpre as [t ->].
    rewrite replaceSize_skip by done. apply includes_spec. by exists "", (replaceSize t).
  - rewrite replaceSize_unfold.
    destruct (matchSize (String c s)) as [rest|] eqn:Hm.
    + destruct (matchSize_Some _ _ Hm) as (ds & Heq & _ & Hds & _).
      rewrite Heq in Hin. rewrite <- append_assoc in Hin.
      apply includes_skip in Hin.
      * apply includes_spec in Hin as (pre & post & ->).
        apply includes_spec. exists ("size=512" +:+ pre), post.
        by rewrite append_assoc.
      * rewrite noChar_append, (allDigits_noChar_a ds Hds). done.
    + rewrite includes_cons. apply orb_true_iff. right. by apply IH.
Qed.

Lemma normalizeSrc_replaceSize (s : string) : normalizeSrc s = replaceSize s.
Proof.
  unfold normalizeSrc. destruct (includes s "animated=true") eqn:Ha; [|done].
  by rewrite (replaceSize_keeps_animated s Ha).
Qed.




(** C5: when three consecutive passes [j], [j+1], [j+2] each add no new
    URL and do not see the next section, the loop ends at the pass where
    the stagnation counter reaches 3: at pass [j+2] when the counter was 0
    at the head of pass [j], and that many passes earlier when passes just
    before [j] were stagnant too.  It ends there with the "no new emojis"
    message, before [scrollAttempts] gets to [maxScrollAttempts] (50), and
    returns the list as it was.  In every pass that gets past the section
    check the counter goes up by one exactly when the number of distinct
    URLs is what it was after the previous pass, and becomes 0 when the
    number has grown. *)
Theorem C5_stagnation_termination :
  (∀ (section : nat → SectionView) (j : nat) (st : LoopState),
     reach section j = Some st →
     j + 2 < maxScrollAttempts →
     stagnantPass section (emojiData st) j = true →
     stagnantPass section (emojiData st) (j + 1) = true →
     stagnantPass section (emojiData st) (j + 2) = true →
     let fin := finalState section in
     scrollAttempts fin = j + 2 - noNewEmojisCount st
     ∧ scrollAttempts fin < maxScrollAttempts
     ∧ passes section = S (scrollAttempts fin)
     ∧ emojisWithNames fin = emojisWithNames st
     ∧ last (effects fin)
       = Some (ConsoleLog "No new emojis loaded after 3 attempts, stopping scroll"))
  ∧ (∀ (section : nat → SectionView) (k : nat) (st : LoopState),
       reach section k = Some st →
       k < maxScrollAttempts →
       reachedNextSection (section k) = false →
       let st' := flowState (iteration (section k) st) in
       noNewEmojisCount st'
       = if decide (size (emojiData st') = size (emojiData st))
         then noNewEmojisCount st + 1 else 0).
Proof.
  split.
  - intros section j st Hr Hlt H0 H1 H2.
    destruct (reach_LoopInv section j st Hr) as [(_ & Hn & _) _].
    destruct (stagnation_stops section (2 - noNewEmojisCount st) j st Hr)
      as (Ha & Hp & Hl & He); try lia.
    { intros i Hi.
      destruct (decide (i = j)) as [-> | ?]; [done |].
      destruct (decide (i = j + 1)) as [-> | ?]; [done |].
      by replace i with (j + 2) by lia. }
    simpl. rewrite Ha, Hp, Hl, He. split_and!; try done; lia.
  - intros section k st Hr _ Hb.
    destruct (reach_LoopInv section k st Hr) as [(Hp & _) _].
    destruct (iteration_cases (section k) st) as (Hd & _ & Hc).
    simpl. rewrite Hd, <- Hp.
    destruct (iteration (section k) st) as [st' | st']; simpl in *.
    + destruct Hc as (_ & _ & [(Hb' & _) | (_ & Heq & Hn & _)]); [congruence |].
      by rewrite decide_True.
    + tauto.
Qed.

Lemma C5_stagnation_termination_witness :
  let st := default initialState (reach shortSection 2) in
  let fin := finalState shortSection in
  (scrollAttempts fin = 2 + 2 - noNewEmojisCount st
   ∧ scrollAttempts fin < maxScrollAttempts
   ∧ passes shortSection = S (scrollAttempts fin)
   ∧ emojisWithNames fin = emojisWithNames st
   ∧ last (effects fin)
     = Some (ConsoleLog "No new emojis loaded after 3 attempts, stopping scroll"))
  ∧ noNewEmojisCount (flowState (iteration (shortSection 2) st))
    = if decide (size (emojiData (flowState (iteration (shortSection 2) st)))
                 = size (emojiData st))
      then noNewEmojisCount st + 1 else 0.
Proof.
  intros st fin. split.
  - apply (proj1 C5_stagnation_termination shortSection 2 st);
      try (vm_compute; reflexivity).
    vm_compute. lia.
  - apply (proj2 C5_stagnation_termination shortSection 2 st);
      try (vm_compute; reflexivity).
    vm_compute. lia.
Defined.

(** C6: when, in a pass [k] the loop gets to, the section's next sibling
    is the next category section, the loop ends in that pass: the pass's
    thumbnails have been scanned, no further scroll step is issued (there
    have been [k], one after each earlier pass), and the stagnation
    counter plays no part. *)
Theorem C6_boundary_termination (section : nat → SectionView) (k : nat)
    (st : LoopState) :
  reach section k = Some st →
  k < maxScrollAttempts →
  reachedNextSection (section k) = true →
  let fin := finalState section in
  scrollAttempts fin = k
  ∧ passes section = S k
  ∧ scrollsIssued fin = k
  ∧ emojisWithNames fin
    = emojisWithNames (foldl scanEmoji st (querySelectorAll (section k)))
  ∧ emojisWithNames fin = firstSeen (descriptor <$> scannedIn section 0 (S k))
  ∧ noNewEmojisCount fin = noNewEmojisCount st
  ∧ last (effects fin)
    = Some (ConsoleLog "Reached the next category section, stopping scroll").
Proof.
  intros Hr Hlt Hb.
  destruct (reach_LoopInv section k st Hr) as [(_ & _ & Hs & _) Ha].
  pose proof (iteration_unfold (section k) st) as Hit. simpl in Hit.
  rewrite Hb in Hit.
  destruct (final_break section k st _ Hr Hlt Hit) as [Hfin Hp].
  pose proof (final_harvested section) as [_ Hh].
  unfold scanned in Hh. rewrite Hp in Hh.
  simpl. rewrite <- Hh, Hfin, scrollsIssued_app. simpl.
  split_and!; try done; try lia. by rewrite last_app.
Qed.

Lemma C6_boundary_termination_witness :
  let st := default initialState (reach boundedSection 1) in
  let fin := finalState boundedSection in
  scrollAttempts fin = 1
  ∧ passes boundedSection = 2
  ∧ scrollsIssued fin = 1
  ∧ emojisWithNames fin
    = emojisWithNames (foldl scanEmoji st (querySelectorAll (boundedSection 1)))
  ∧ emojisWithNames fin = firstSeen (descriptor <$> scannedIn boundedSection 0 2)
  ∧ noNewEmojisCount fin = noNewEmojisCount st
  ∧ last (effects fin)
    = Some (ConsoleLog "Reached the next category section, stopping scroll").
Proof.
  intros st fin.
  apply (C6_boundary_termination boundedSection 1 st);
    try (vm_compute; reflexivity).
  vm_compute. lia.
Defined.

(** C8: when the picker's scroll container is absent the call fails with
    the error that names the container, when the container is there but
    the server emoji section is absent it fails with the error that names
    the section; the error is the result of the call, with no list and no
    second attempt.  When both are present the call returns the collected
    list and no error. *)
Theorem C8_structural_not_found (page : Page) :
  (emojiPickerContainer page = false →
   extractEmojiUrls page = Throw "Emoji picker container not found")
  ∧ (emojiPickerContainer page = true → serverEmojiSection page = None →
     extractEmojiUrls page = Throw "Server emoji section not found")
  ∧ (∀ section, emojiPickerContainer page = true →
       serverEmojiSection page = Some section →
       extractEmojiUrls page = Ok (emojisWithNames (finalState section)))
  ∧ ((∃ message, extractEmojiUrls page = Throw message)
     ↔ emojiPickerContainer page = false ∨ serverEmojiSection page = None).
Proof.
  unfold extractEmojiUrls.
  destruct (emojiPickerContainer page), (serverEmojiSection page) as [section|];
    simpl; split_and!; try done; try (intros ? ? [= <-]; done).
  - split; [intros [? [=]] | intros [[=] | [=]]].
  - split; [by right | eauto].
  - split; [by left | eauto].
  - split; [by left | eauto].
Qed.

Lemma C8_structural_not_found_witness :
  extractEmojiUrls {| emojiPickerContainer := false; serverEmojiSection := None |}
  = Throw "Emoji picker container not found"
  ∧ extractEmojiUrls {| emojiPickerContainer := true; serverEmojiSection := None |}
    = Throw "Server emoji section not found"
  ∧ extractEmojiUrls (pageOf boundedSection)
    = Ok (emojisWithNames (finalState boundedSection)).
Proof.
  split_and!.
  - by apply (proj1 (C8_structural_not_found _)).
  - by apply (proj1 (proj2 (C8_structural_not_found _))).
  - by apply (proj1 (proj2 (proj2 (C8_structural_not_found _)))).
Defined.

(** ** The pipeline *)

Section PipelineFacts.
Context {FS : Type} {rt : Runtime FS}.
Implicit Types (w : World FS) (emoji : Emoji) (server : Server.t).

Ltac run_js :=
  unfold Js.bind, Js.tryCatch, Js.await, Js.throw, Js.ret, Js.consoleLog,
    Js.consoleError, write, readArrayBuffer; simpl.

Lemma prewriteLines_log emojiSize index emoji :
  Forall (λ c, isError c = false) (prewriteLines emojiSize index emoji).
Proof.
  unfold prewriteLines.
  repeat (match goal with
          | |- context [match ?x with _ => _ end] => destruct x
          end; simpl).
  all: by repeat constructor.
Qed.

(** The body of the [try] block, outcome by outcome. *)
Lemma tryBody_unfold server outputBaseDir emojiSize index emoji w :
  let lines := console w ++ prewriteLines emojiSize index emoji in
  let path := filePath outputBaseDir server emoji in
  tryBody server outputBaseDir emojiSize index emoji w =
    match prewrite emojiSize emoji with
    | Throw message => (Throw message, mkWorld (fs w) lines)
    | Ok data =>
        match bunWrite path data (fs w) with
        | (Throw message, fs') => (Throw message, mkWorld fs' lines)
        | (Ok _, fs') =>
            match bunFileArrayBuffer path fs' with
            | Throw message =>
                (Throw message, mkWorld fs' (lines ++ [savedLine server emoji]))
            | Ok file =>
                (Ok tt, mkWorld fs' (lines ++ [savedLine server emoji;
                                               fileSizeLine (length file)]))
            end
        end
    end.
Proof.
  unfold prewrite, prewriteLines, tryBody. run_js.
  destruct (fetch (url emoji)) as [response | m]; simpl.
  2:{ by rewrite app_nil_r; destruct w. }
  destruct (ok response); simpl.
  2:{ by rewrite app_nil_r; destruct w. }
  destruct (length (arrayBuffer response) =? 0)%nat; simpl; [done |].
  destruct (sharp _ _ _) as [resized | m]; simpl; [|done].
  destruct (length resized =? 0)%nat; simpl; [by rewrite <- app_assoc |].
  destruct (bunWrite _ resized (fs w)) as [[n | m] fs']; simpl.
  - destruct (bunFileArrayBuffer _ fs') as [file | m]; simpl;
      by rewrite <- !app_assoc.
  - by rewrite <- !app_assoc.
Qed.

(** The body of the [for] loop, outcome by outcome: it never throws. *)
Lemma processEmoji_unfold server outputBaseDir emojiSize total index emoji w :
  let lines := console w ++ downloadingLine total index emoji
                 :: prewriteLines emojiSize index emoji in
  let path := filePath outputBaseDir server emoji in
  processEmoji server outputBaseDir emojiSize total index emoji w =
    (Ok tt,
     match prewrite emojiSize emoji with
     | Throw message =>
         mkWorld (fs w) (lines ++ [failureLine server index emoji message])
     | Ok data =>
         match bunWrite path data (fs w) with
         | (Throw message, fs') =>
             mkWorld fs' (lines ++ [failureLine server index emoji message])
         | (Ok _, fs') =>
             match bunFileArrayBuffer path fs' with
             | Throw message =>
                 mkWorld fs' (lines ++ [savedLine server emoji;
                                        failureLine server index emoji message])
             | Ok file =>
                 mkWorld fs' (lines ++ [savedLine server emoji;
                                        fileSizeLine (length file)])
             end
         end
     end).
Proof.
  intros lines path. unfold processEmoji.
  unfold Js.bind at 1. unfold Js.consoleLog at 1. unfold Js.tryCatch.
  rewrite tryBody_unfold. simpl. fold path.
  fold (downloadingLine total index emoji). unfold Js.consoleError.
  fold (failureLine server index emoji).
  subst lines. rewrite <- !app_assoc. simpl.
  destruct (prewrite emojiSize emoji) as [data | m]; simpl; [|done].
  destruct (bunWrite path data (fs w)) as [[n | m] fs']; simpl; [|done].
  destruct (bunFileArrayBuffer path fs') as [file | m]; simpl.
  - done.
  - unfold failureLine. do 2 f_equal. rewrite <- !app_assoc. simpl.
    by rewrite <- app_assoc.
Qed.

Lemma processEmoji_Ok server outputBaseDir emojiSize total index emoji w :
  fst (processEmoji server outputBaseDir emojiSize total index emoji w) = Ok tt.
Proof. by rewrite processEmoji_unfold. Qed.

(** Every item adds to the console, and starts with its "Downloading"
    line. *)
Lemma processEmoji_console server outputBaseDir emojiSize total index emoji w :
  ∃ new,
    console (snd (processEmoji server outputBaseDir emojiSize total index emoji w))
    = console w ++ downloadingLine total index emoji :: new.
Proof.
  rewrite processEmoji_unfold. simpl.
  destruct (prewrite emojiSize emoji) as [data | m]; simpl.
  - destruct (bunWrite _ data (fs w)) as [[n | m] fs']; simpl.
    + destruct (bunFileArrayBuffer _ fs') as [file | m]; simpl;
        rewrite <- app_assoc; simpl; eauto.
    + rewrite <- app_assoc; simpl; eauto.
  - rewrite <- app_assoc; simpl; eauto.
Qed.

(** The loop over the items: no item makes it throw, and a longer list
    continues from the world the shorter one leaves. *)
Lemma forEntries_Ok server outputBaseDir emojiSize total (emojis : list Emoji)
    index w :
  fst (Js.forEntries (processEmoji server outputBaseDir emojiSize total)
         index emojis w) = Ok tt.
Proof.
  revert index w. induction emojis as [|e emojis IH]; intros index w; simpl; [done |].
  unfold Js.bind. rewrite processEmoji_unfold. apply IH.
Qed.

Lemma forEntries_snoc server outputBaseDir emojiSize total (emojis : list Emoji)
    emoji index w :
  Js.forEntries (processEmoji server outputBaseDir emojiSize total) index
    (emojis ++ [emoji]) w
  = processEmoji server outputBaseDir emojiSize total (index + length emojis) emoji
      (snd (Js.forEntries (processEmoji server outputBaseDir emojiSize total)
              index emojis w)).
Proof.
  revert index w. induction emojis as [|e emojis IH]; intros index w; simpl.
  - unfold Js.bind, Js.ret. by rewrite Nat.add_0_r, processEmoji_unfold.
  - unfold Js.bind. rewrite (processEmoji_unfold _ _ _ _ index e w), IH.
    by replace (S index + length emojis) with (index + S (length emojis)) by lia.
Qed.

Lemma worldAfter_0 (emojis : list Emoji) server outputBaseDir emojiSize w :
  worldAfter emojis server outputBaseDir emojiSize 0 w = w.
Proof. unfold worldAfter. by rewrite take_0. Qed.

Lemma worldAfter_S (emojis : list Emoji) server outputBaseDir emojiSize k emoji w :
  emojis !! k = Some emoji →
  worldAfter emojis server outputBaseDir emojiSize (S k) w
  = snd (processEmoji server outputBaseDir emojiSize (length emojis) k emoji
           (worldAfter emojis server outputBaseDir emojiSize k w)).
Proof.
  intros Hk. unfold worldAfter. rewrite (take_S_r _ _ _ Hk), forEntries_snoc.
  rewrite length_take_le by (apply lookup_lt_Some in Hk; lia). done.
Qed.

Lemma download_worldAfter (emojis : list Emoji) server outputBaseDir emojiSize w :
  downloadAndProcessEmojis emojis server outputBaseDir emojiSize w
  = (Ok tt, worldAfter emojis server outputBaseDir emojiSize (length emojis) w).
Proof.
  unfold worldAfter, downloadAndProcessEmojis. rewrite firstn_all.
  pose proof (forEntries_Ok server outputBaseDir emojiSize (length emojis) emojis 0 w).
  by destruct (Js.forEntries _ _ _ _) as [r w']; simpl in *; subst.
Qed.

Lemma worldAfter_console (emojis : list Emoji) server outputBaseDir emojiSize k k' w :
  k ≤ k' → k' ≤ length emojis →
  ∃ new, console (worldAfter emojis server outputBaseDir emojiSize k' w)
         = console (worldAfter emojis server outputBaseDir emojiSize k w) ++ new.
Proof.
  induction 1 as [|k' Hle IH]; intros Hlen.
  - exists []. by rewrite app_nil_r.
  - destruct IH as [new Hnew]; [lia |].
    destruct (lookup_lt_is_Some_2 emojis k' ltac:(lia)) as [e He].
    rewrite (worldAfter_S _ _ _ _ _ _ _ He).
    destruct (processEmoji_console server outputBaseDir emojiSize (length emojis) k' e
                (worldAfter emojis server outputBaseDir emojiSize k' w)) as [new' ->].
    rewrite Hnew, <- app_assoc. eauto.
Qed.

(** What an item logs stays in the console to the end of the run. *)
Lemma worldAfter_console_elem (emojis : list Emoji) server outputBaseDir emojiSize
    k c w :
  k ≤ length emojis →
  c ∈ console (worldAfter emojis server outputBaseDir emojiSize k w) →
  c ∈ console (worldAfter emojis server outputBaseDir emojiSize (length emojis) w).
Proof.
  intros Hk Hc.
  destruct (worldAfter_console emojis server outputBaseDir emojiSize k (length emojis) w)
    as [new ->]; [done | done |].
  apply elem_of_app. by left.
Qed.

End PipelineFacts.

(** *** On a file system that stores what is written *)

Section MapRuntime.
Variable fetch0 : string → result Response.
Variable sharp0 : bytes → bool → Z → result bytes.
Implicit Types (w : World (gmap string bytes)) (emoji : Emoji) (server : Server.t).

Lemma map_processEmoji server outputBaseDir emojiSize total index emoji w :
  processEmoji (rt := mapRuntime fetch0 sharp0) server outputBaseDir emojiSize
    total index emoji w
  = (Ok tt,
     mkWorld
       (applyWrites
          (option_list (itemWrite (rt := mapRuntime fetch0 sharp0) server
                          outputBaseDir emojiSize emoji)) (fs w))
       (console w
        ++ itemLines (rt := mapRuntime fetch0 sharp0) server emojiSize total
             index emoji)).
Proof.
  rewrite processEmoji_unfold. unfold itemWrite, itemLines.
  destruct (prewrite emojiSize emoji) as [data | m]; simpl.
  - rewrite lookup_insert_eq. simpl. by rewrite <- !app_assoc.
  - by rewrite <- !app_assoc.
Qed.

Lemma map_forEntries server outputBaseDir emojiSize total (emojis : list Emoji)
    index w :
  Js.forEntries (processEmoji (rt := mapRuntime fetch0 sharp0) server
                   outputBaseDir emojiSize total) index emojis w
  = (Ok tt,
     mkWorld
       (applyWrites
          (omap (itemWrite (rt := mapRuntime fetch0 sharp0) server outputBaseDir
                   emojiSize) emojis) (fs w))
       (console w
        ++ runLines (rt := mapRuntime fetch0 sharp0) server emojiSize total
             index emojis)).
Proof.
  revert index w. induction emojis as [|e emojis IH]; intros index w; simpl.
  - unfold Js.ret. rewrite app_nil_r. by destruct w.
  - unfold Js.bind. rewrite map_processEmoji, IH. simpl.
    rewrite <- app_assoc. do 2 f_equal.
    by destruct (itemWrite _ _ _ e) as [[p d]|].
Qed.

End MapRuntime.

Lemma applyWrites_lookup (writes : list (string * bytes))
    (files : gmap string bytes) (path : string) :
  applyWrites writes files !! path
  = match lastWrite path writes with
    | Some data => Some data
    | None => files !! path
    end.
Proof.
  revert files. induction writes as [|[p d] writes IH]; intros files; simpl; [done |].
  unfold applyWrites in *. simpl. rewrite IH.
  destruct (lastWrite path writes); [done |].
  case_decide as Hp; simpl in Hp.
  - subst. apply lookup_insert_eq.
  - by apply lookup_insert_ne.
Qed.


(** *** The pipeline's properties *)

Lemma filter_isError_log (lines : list ConsoleCall) :
  Forall (λ c, isError c = false) lines → List.filter isError lines = [].
Proof. induction 1 as [|c l Hc _ IH]; simpl; [done | by rewrite Hc]. Qed.

(** The failures that can happen before the write, one by one. *)
Lemma prewrite_Throw_iff {FS : Type} {rt : Runtime FS} (emojiSize : Z)
    (emoji : Emoji) (message : string) :
  prewrite emojiSize emoji = Throw message ↔
    fetch (url emoji) = Throw message
    ∨ ∃ response, fetch (url emoji) = Ok response
        ∧ ((ok response = false
            ∧ message = "Failed to fetch emoji: " +:+ statusText response)
           ∨ (ok response = true ∧ length (arrayBuffer response) = 0
              ∧ message = "Downloaded buffer is empty")
           ∨ (ok response = true ∧ length (arrayBuffer response) ≠ 0
              ∧ (sharp (arrayBuffer response)
                   (includes (url emoji) "animated=true") emojiSize = Throw message
                 ∨ ∃ resizedImage,
                     sharp (arrayBuffer response)
                       (includes (url emoji) "animated=true") emojiSize
                     = Ok resizedImage
                     ∧ length resizedImage = 0
                     ∧ message = "Resized buffer is empty"))).
Proof.
  unfold prewrite. split.
  - destruct (fetch (url emoji)) as [response | m]; [|intros [= <-]; by left].
    intros H. right. exists response. split; [done |].
    destruct (ok response); simpl in H; [|injection H as <-; by left].
    right. destruct (Nat.eqb_spec (length (arrayBuffer response)) 0) as [Hz | Hnz];
      [injection H as <-; by left |].
    right. split_and!; try done.
    destruct (sharp _ _ _) as [resized | m]; [|injection H as <-; by left].
    right. exists resized.
    destruct (Nat.eqb_spec (length resized) 0); [by injection H as <- | done].
  - intros [-> | (response & -> & [(-> & ->) | [(-> & Hz & ->) | (-> & Hnz & H)]])];
      simpl; try done.
    + by rewrite Hz.
    + destruct (Nat.eqb_spec (length (arrayBuffer response)) 0); [done |].
      destruct H as [-> | (resized & -> & Hz & ->)]; [done | by rewrite Hz].
Qed.

(** C2, as stated, does not hold: an item with an empty name gets no
    positional file name.  The descriptor of a thumbnail whose [alt] is
    [::] has the empty name; processed at index 0 it is written to
    [.webp], and no [emoji_1.webp] is created. *)
Lemma C2_counterexample :
  let w' := snd (downloadAndProcessEmojis (rt := mapRuntime cdn encoder)
                   [unnamedEmoji] cozy "/srv/emojis" 512 emptyWorld) in
  name unnamedEmoji = ""
  ∧ filePath "/srv/emojis" cozy unnamedEmoji = "/srv/emojis/Cozyhive/.webp"
  ∧ Path.join ["/srv/emojis"; Server.folder cozy; "emoji_" +:+ pretty (0 + 1) +:+ ".webp"]
    = "/srv/emojis/Cozyhive/emoji_1.webp"
  ∧ fs w' !! "/srv/emojis/Cozyhive/.webp" = Some [Byte.x57; Byte.x45; Byte.x42]
  ∧ fs w' !! "/srv/emojis/Cozyhive/emoji_1.webp" = None.
Proof. vm_compute. by split_and!. Qed.

(** C2, amended: for an item at any index that gets to the write, the
    destination is [path.join(outputBaseDir, server.folder, name +
    ".webp")], computed from the name alone; with an empty name this is
    [.webp] in the server's folder.  The file system after the item is
    what [Bun.write] makes of it at that path. *)
Theorem C2_destination_from_name {FS : Type} {rt : Runtime FS}
    (server : Server.t) (outputBaseDir : string) (emojiSize : Z)
    (total index : nat) (emoji : Emoji) (w : World FS) (data : bytes) :
  prewrite emojiSize emoji = Ok data →
  let path := Path.join [outputBaseDir; Server.folder server; name emoji +:+ ".webp"] in
  fs (snd (processEmoji server outputBaseDir emojiSize total index emoji w))
  = snd (bunWrite path data (fs w))
  ∧ (name emoji = "" →
     path = Path.join [outputBaseDir; Server.folder server; ".webp"]).
Proof.
  intros Hpre path. split; [|subst path; by intros ->].
  rewrite processEmoji_unfold, Hpre. simpl.
  change (filePath outputBaseDir server emoji) with path.
  destruct (bunWrite path data (fs w)) as [[n | m] fs']; simpl; [|done].
  by destruct (bunFileArrayBuffer path fs').
Qed.

Lemma C2_destination_from_name_witness :
  fs (snd (processEmoji (rt := mapRuntime cdn encoder) cozy "/srv/emojis" 512 5 3
             unnamedEmoji emptyWorld))
  = snd (bunWrite (Runtime := mapRuntime cdn encoder)
           (Path.join ["/srv/emojis"; "Cozyhive"; name unnamedEmoji +:+ ".webp"])
           [Byte.x57; Byte.x45; Byte.x42] ∅)
  ∧ (name unnamedEmoji = "" →
     Path.join ["/srv/emojis"; "Cozyhive"; name unnamedEmoji +:+ ".webp"]
     = Path.join ["/srv/emojis"; "Cozyhive"; ".webp"]).
Proof.
  apply (C2_destination_from_name (rt := mapRuntime cdn encoder) cozy "/srv/emojis"
           512 5 3 unnamedEmoji emptyWorld).
  vm_compute. reflexivity.
Defined.

(** The positional variant is where [emoji_<i+1>] comes from: there every
    item that gets to the write goes to [emoji_<i+1>.webp], whatever it
    is. *)
Lemma positional_destination {FS : Type} {rt : Runtime FS}
    (server : Server.t) (outputBaseDir : string) (emojiSize : Z)
    (total index : nat) (u : string) (w : World FS) (data : bytes) :
  prewrite emojiSize {| url := u; name := "" |} = Ok data →
  fs (snd (Positional.processEmoji server outputBaseDir emojiSize total index u w))
  = snd (bunWrite
           (Path.join [outputBaseDir; Server.folder server;
                       "emoji_" +:+ pretty (index + 1) +:+ ".webp"])
           data (fs w)).
Proof.
  unfold prewrite, Positional.processEmoji, Positional.tryBody,
    Positional.filePath, Positional.fileName.
  unfold Js.bind, Js.tryCatch, Js.await, Js.throw, Js.ret, Js.consoleLog,
    Js.consoleError, write, readArrayBuffer. simpl.
  destruct (fetch u) as [response | m]; [|done].
  destruct (ok response); [|done]. simpl.
  destruct (length (arrayBuffer response) =? 0)%nat; [done |]. simpl.
  destruct (sharp _ _ _) as [resized | m]; [|done]. simpl.
  destruct (length resized =? 0)%nat; [done |]. intros [= ->]. simpl.
  destruct (bunWrite _ data (fs w)) as [[n | m] fs']; simpl; [|done].
  by destruct (bunFileArrayBuffer _ fs').
Qed.

(** C3, as stated, does not hold: nothing is compared and no warning is
    logged.  On a storage that keeps one byte of the three written, the
    item logs its five progress lines, the last reporting the size read
    back, and nothing else. *)
Lemma C3_counterexample :
  let rt := truncatingRuntime cdn encoder in
  let path := filePath "/srv/emojis" cozy waveEmoji in
  let r := processEmoji (rt := rt) cozy "/srv/emojis" 512 1 0 waveEmoji emptyWorld in
  ∃ data file,
    prewrite (rt := rt) 512 waveEmoji = Ok data
    ∧ bunFileArrayBuffer (Runtime := rt) path (fs (snd r)) = Ok file
    ∧ length data = 3 ∧ length file = 1
    ∧ fst r = Ok tt
    ∧ console (snd r)
      = [ downloadingLine 1 0 waveEmoji; downloadedLine 0 waveEmoji 4;
          processedLine 0 waveEmoji 3; savedLine cozy waveEmoji; fileSizeLine 1 ]
    ∧ List.filter isError (console (snd r)) = [].
Proof.
  exists [Byte.x57; Byte.x45; Byte.x42], [Byte.x57]. vm_compute. by split_and!.
Qed.

(** C3, amended: after every successful write the file is read back.
    When the read gives the file, its length is logged in the "File size on
    disk" line, whatever the length is: it is not compared with the length
    written, and no warning or error is logged for a difference.  When the
    read itself fails, that failure is caught and logged as the item's
    failure, the file staying where it was written.  Either way the item
    ends normally, with these lines and no others. *)
Theorem C3_size_logged_not_compared {FS : Type} {rt : Runtime FS}
    (server : Server.t) (outputBaseDir : string) (emojiSize : Z)
    (total index : nat) (emoji : Emoji) (w : World FS) (data : bytes)
    (n : nat) (fs' : FS) :
  prewrite emojiSize emoji = Ok data →
  bunWrite (filePath outputBaseDir server emoji) data (fs w) = (Ok n, fs') →
  let readBack := bunFileArrayBuffer (filePath outputBaseDir server emoji) fs' in
  let lines := downloadingLine total index emoji
               :: prewriteLines emojiSize index emoji
               ++ [savedLine server emoji;
                   match readBack with
                   | Ok file => fileSizeLine (length file)
                   | Throw message => failureLine server index emoji message
                   end] in
  processEmoji server outputBaseDir emojiSize total index emoji w
  = (Ok tt, mkWorld fs' (console w ++ lines))
  ∧ List.filter isError lines
    = match readBack with
      | Ok file => []
      | Throw message => [failureLine server index emoji message]
      end.
Proof.
  intros Hpre Hwrite readBack lines. split.
  - rewrite processEmoji_unfold, Hpre, Hwrite. subst lines readBack.
    destruct (bunFileArrayBuffer _ fs') as [file | message];
      do 2 f_equal; by rewrite <- !app_assoc.
  - subst lines. change (?x :: ?l ++ ?t) with ((x :: l) ++ t).
    rewrite List.filter_app, (filter_isError_log (_ :: _)).
    + by destruct readBack.
    + apply Forall_cons. split; [done | apply prewriteLines_log].
Qed.

Lemma C3_size_logged_not_compared_witness :
  let rt := truncatingRuntime cdn encoder in
  let lines := downloadingLine 1 0 waveEmoji
               :: prewriteLines (rt := rt) 512 0 waveEmoji
               ++ [savedLine cozy waveEmoji; fileSizeLine (length [Byte.x57])] in
  processEmoji (rt := rt) cozy "/srv/emojis" 512 1 0 waveEmoji emptyWorld
  = (Ok tt,
     mkWorld (<["/srv/emojis/Cozyhive/wave.webp" := [Byte.x57]]> ∅)
       (console emptyWorld ++ lines))
  ∧ List.filter isError lines = [].
Proof.
  intros rt.
  apply (C3_size_logged_not_compared (rt := rt) cozy "/srv/emojis" 512 1 0
           waveEmoji emptyWorld [Byte.x57; Byte.x45; Byte.x42] 1);
    vm_compute; reflexivity.
Defined.

(** C4: the run never throws, whatever the items do; every item is
    attempted, each from the world its predecessor left; an item that
    fails before the write (fetch rejected or not ok, empty download, the
    image library failing, empty encoding) has its failure logged, and the
    items after it are processed all the same.  With three items of which
    the second is refused by the server while the first and the third
    succeed, the files of the first and the third are written and the
    console shows one error, the second item's. *)
Theorem C4_failure_isolation :
  (∀ (FS : Type) (rt : Runtime FS) (emojis : list Emoji) (server : Server.t)
     (outputBaseDir : string) (emojiSize : Z) (w : World FS),
     let r := downloadAndProcessEmojis emojis server outputBaseDir emojiSize w in
     let after := λ k, worldAfter emojis server outputBaseDir emojiSize k w in
     fst r = Ok tt
     ∧ snd r = after (length emojis)
     ∧ (∀ i e, emojis !! i = Some e →
          after (S i)
          = snd (processEmoji server outputBaseDir emojiSize (length emojis) i e
                   (after i))
          ∧ downloadingLine (length emojis) i e ∈ console (snd r))
     ∧ (∀ i e message, emojis !! i = Some e →
          prewrite emojiSize e = Throw message →
          failureLine server i e message ∈ console (snd r)))
  ∧ (∀ (fetch0 : string → result Response)
       (sharp0 : bytes → bool → Z → result bytes) (e1 e2 e3 : Emoji)
       (server : Server.t) (outputBaseDir : string) (emojiSize : Z)
       (files : gmap string bytes) (response : Response) (d1 d3 : bytes),
       fetch0 (url e2) = Ok response →
       ok response = false →
       prewrite (rt := mapRuntime fetch0 sharp0) emojiSize e1 = Ok d1 →
       prewrite (rt := mapRuntime fetch0 sharp0) emojiSize e3 = Ok d3 →
       let r := downloadAndProcessEmojis (rt := mapRuntime fetch0 sharp0)
                  [e1; e2; e3] server outputBaseDir emojiSize (mkWorld files []) in
       fst r = Ok tt
       ∧ fs (snd r)
         = <[filePath outputBaseDir server e3 := d3]>
             (<[filePath outputBaseDir server e1 := d1]> files)
       ∧ List.filter isError (console (snd r))
         = [failureLine server 1 e2
              ("Failed to fetch emoji: " +:+ statusText response)]).
Proof.
  split.
  - intros FS rt emojis server outputBaseDir emojiSize w r after. subst r after.
    rewrite download_worldAfter. simpl. split_and!; try done.
    + intros i e He. split; [by apply worldAfter_S |].
      apply (worldAfter_console_elem _ _ _ _ (S i)).
      { apply lookup_lt_Some in He. lia. }
      rewrite (worldAfter_S _ _ _ _ _ _ _ He).
      destruct (processEmoji_console server outputBaseDir emojiSize (length emojis) i e
                  (worldAfter emojis server outputBaseDir emojiSize i w)) as [new ->].
      apply elem_of_app. right. by left.
    + intros i e message He Hpre.
      apply (worldAfter_console_elem _ _ _ _ (S i)).
      { apply lookup_lt_Some in He. lia. }
      rewrite (worldAfter_S _ _ _ _ _ _ _ He), processEmoji_unfold, Hpre. simpl.
      apply elem_of_app. right. by left.
  - intros fetch0 sharp0 e1 e2 e3 server outputBaseDir emojiSize files response
      d1 d3 Hfetch Hok H1 H3 r. subst r.
    assert (H2 : prewrite (rt := mapRuntime fetch0 sharp0) emojiSize e2
                 = Throw ("Failed to fetch emoji: " +:+ statusText response)).
    { unfold prewrite. simpl. by rewrite Hfetch, Hok. }
    assert (P2 : prewriteLines (rt := mapRuntime fetch0 sharp0) emojiSize 1 e2 = []).
    { unfold prewriteLines. simpl. by rewrite Hfetch, Hok. }
    unfold downloadAndProcessEmojis. rewrite map_forEntries.
    cbn [fst snd fs console omap list_omap runLines length]. unfold itemWrite, itemLines.
    rewrite H1, H2, H3, P2. split_and!; [done | done |].
    rewrite app_nil_l, !List.filter_app. cbn [List.filter isError downloadingLine].
    rewrite !List.filter_app.
    rewrite !(filter_isError_log (prewriteLines _ _ _)) by apply prewriteLines_log.
    done.
Qed.

Lemma C4_failure_isolation_witness :
  let r := downloadAndProcessEmojis (rt := mapRuntime cdn encoder)
             [waveEmoji; bunnyEmoji; smileEmoji] cozy "/srv/emojis" 512
             (mkWorld ∅ []) in
  (failureLine cozy 1 bunnyEmoji "Failed to fetch emoji: Not Found" ∈ console (snd r))
  ∧ fst r = Ok tt
  ∧ fs (snd r)
    = <[filePath "/srv/emojis" cozy smileEmoji := [Byte.x57; Byte.x45; Byte.x42]]>
        (<[filePath "/srv/emojis" cozy waveEmoji := [Byte.x57; Byte.x45; Byte.x42]]> ∅)
  ∧ List.filter isError (console (snd r))
    = [failureLine cozy 1 bunnyEmoji
         ("Failed to fetch emoji: "
          +:+ statusText {| ok := false; statusText := "Not Found"; arrayBuffer := [] |})].
Proof.
  intros r. split.
  - apply (proj2 (proj2 (proj2 (proj1 C4_failure_isolation _ (mapRuntime cdn encoder)
             [waveEmoji; bunnyEmoji; smileEmoji] cozy "/srv/emojis" 512%Z
             (mkWorld ∅ [])))) 1 bunnyEmoji); vm_compute; reflexivity.
  - apply (proj2 C4_failure_isolation cdn encoder waveEmoji bunnyEmoji smileEmoji
             cozy "/srv/emojis" 512%Z ∅
             {| ok := false; statusText := "Not Found"; arrayBuffer := [] |});
      vm_compute; reflexivity.
Defined.

(** C10: an item that fails before the write step leaves the file system
    as it found it: after item [i] the files are those the items before it
    left, none created and none changed; the item's only trace is its
    failure line. *)
Theorem C10_failure_before_write_leaves_files {FS : Type} {rt : Runtime FS}
    (emojis : list Emoji) (server : Server.t) (outputBaseDir : string)
    (emojiSize : Z) (i : nat) (e : Emoji) (message : string) (w : World FS) :
  emojis !! i = Some e →
  prewrite emojiSize e = Throw message →
  let before := worldAfter emojis server outputBaseDir emojiSize i w in
  let after := worldAfter emojis server outputBaseDir emojiSize (S i) w in
  fs after = fs before
  ∧ console after
    = console before
      ++ downloadingLine (length emojis) i e :: prewriteLines emojiSize i e
      ++ [failureLine server i e message].
Proof.
  intros He Hpre before after. subst after.
  rewrite (worldAfter_S _ _ _ _ _ _ _ He), processEmoji_unfold, Hpre. simpl.
  split; [done |]. by rewrite <- app_assoc.
Qed.

Lemma C10_failure_before_write_leaves_files_witness :
  let before := worldAfter (rt := mapRuntime cdn encoder)
                  [waveEmoji; bunnyEmoji; smileEmoji] cozy "/srv/emojis" 512 1
                  emptyWorld in
  let after := worldAfter (rt := mapRuntime cdn encoder)
                 [waveEmoji; bunnyEmoji; smileEmoji] cozy "/srv/emojis" 512 2
                 emptyWorld in
  fs after = fs before
  ∧ console after
    = console before
      ++ downloadingLine 3 1 bunnyEmoji
         :: prewriteLines (rt := mapRuntime cdn encoder) 512 1 bunnyEmoji
      ++ [failureLine cozy 1 bunnyEmoji "Failed to fetch emoji: Not Found"].
Proof.
  apply (C10_failure_before_write_leaves_files (rt := mapRuntime cdn encoder)
           [waveEmoji; bunnyEmoji; smileEmoji] cozy "/srv/emojis" 512 1 bunnyEmoji);
    vm_compute; reflexivity.
Defined.




(** * Further properties of the code *)

(** ** The two variants of the collector *)

Lemma scanEmoji_inStep (old : UrlsOnly.LoopState) (st : LoopState) (emoji : Img) :
  inStep old st → inStep (UrlsOnly.scanEmoji old emoji) (scanEmoji st emoji).
Proof.
  intros (Hu & Hd & Hn & Hp & Ha & Hc & He).
  unfold inStep, UrlsOnly.scanEmoji, scanEmoji, UrlsOnly.setAdd. simpl.
  assert (Hiff : normalizeSrc (src emoji) ∈ emojiData st
                 ↔ normalizeSrc (src emoji) ∈ UrlsOnly.urls old).
  { by rewrite Hd, elem_of_list_to_set. }
  destruct (decide (normalizeSrc (src emoji) ∈ emojiData st)) as [Hin | Hnin].
  - rewrite decide_True by by apply Hiff. by split_and!.
  - rewrite decide_False by (intros H; by apply Hnin, Hiff). simpl.
    split_and!; try done.
    + by rewrite fmap_snoc, Hu.
    + rewrite list_to_set_app_L, list_to_set_singleton_L, <- Hd.
      apply (comm_L (∪)).
    + apply NoDup_app. split_and!; [done | | apply NoDup_singleton].
      intros x Hx ->%list_elem_of_singleton. by apply Hnin, Hiff.
Qed.

Lemma scan_inStep (imgs0 : list Img) (old : UrlsOnly.LoopState) (st : LoopState) :
  inStep old st →
  inStep (foldl UrlsOnly.scanEmoji old imgs0) (foldl scanEmoji st imgs0).
Proof.
  revert old st. induction imgs0 as [|i imgs0 IH]; intros old st H; simpl; [done |].
  by apply IH, scanEmoji_inStep.
Qed.

Lemma iteration_inStep (view : SectionView) (old : UrlsOnly.LoopState)
    (st : LoopState) :
  inStep old st →
  flowsInStep (UrlsOnly.iteration view old) (iteration view st).
Proof.
  intros H0. pose proof (scan_inStep (querySelectorAll view) old st H0) as H1.
  unfold UrlsOnly.iteration, iteration, UrlsOnly.scrollOn, scrollOn.
  destruct H1 as (Hu & Hd & Hn & Hp & Ha & Hc & He).
  set (old1 := foldl UrlsOnly.scanEmoji old (querySelectorAll view)) in *.
  set (st1 := foldl scanEmoji st (querySelectorAll view)) in *.
  assert (Hsize : length (UrlsOnly.urls old1) = size (emojiData st1)).
  { by rewrite Hd, size_list_to_set. }
  rewrite Hsize, Ha.
  unfold UrlsOnly.emit, emit, UrlsOnly.set_noNewEmojisCount, set_noNewEmojisCount.
  simpl. rewrite ?Hp, ?Ha, ?Hc, ?He.
  destruct (reachedNextSection view); [by split_and! |].
  destruct (size (emojiData st1) =? previousEmojiCount st1)%nat.
  - match goal with
    | |- context [if ?b then UrlsOnly.Break _ else _] => destruct b
    end; by split_and!.
  - by split_and!.
Qed.

Lemma scrollLoop_inStep (section : nat → SectionView) (fuel : nat)
    (old : UrlsOnly.LoopState) (st : LoopState) :
  inStep old st →
  inStep (UrlsOnly.scrollLoop section fuel old) (scrollLoop section fuel st).
Proof.
  revert old st. induction fuel as [|fuel IH]; intros old st H; simpl; [done |].
  pose proof H as (_ & _ & _ & _ & Ha & _). rewrite Ha.
  destruct (scrollAttempts st <? maxScrollAttempts)%nat; [|done].
  pose proof (iteration_inStep (section (scrollAttempts st)) old st H) as Hf.
  destruct (UrlsOnly.iteration _ old), (iteration _ st); simpl in Hf; try done.
  by apply IH.
Qed.

(** X1: the earlier collector and the later one agree: on every page the
    earlier [extractEmojiUrls] returns the URLs of the descriptors the
    later one returns, in the same order, and fails with the same error;
    on every section both leave the same trace in the browser. *)
Theorem X1_variants_agree :
  (∀ page : Page,
     UrlsOnly.extractEmojiUrls page = mapResult (fmap url) (extractEmojiUrls page))
  ∧ (∀ section : nat → SectionView,
       UrlsOnly.effects (UrlsOnly.finalState section)
       = effects (finalState section)).
Proof.
  assert (H0 : inStep UrlsOnly.initialState initialState).
  { unfold inStep. simpl. split_and!; try done. constructor. }
  split.
  - intros page. unfold UrlsOnly.extractEmojiUrls, extractEmojiUrls.
    destruct (negb (emojiPickerContainer page)); [done |].
    destruct (serverEmojiSection page) as [section|]; [|done]. simpl.
    unfold UrlsOnly.finalState, finalState.
    destruct (scrollLoop_inStep section maxScrollAttempts _ _ H0) as (Hu & _).
    by rewrite Hu.
  - intros section. unfold UrlsOnly.finalState, finalState.
    by destruct (scrollLoop_inStep section maxScrollAttempts _ _ H0)
      as (_ & _ & _ & _ & _ & _ & He).
Qed.

(** ** How the scan ends *)

(** A pass that continues ends with the wait for the picker. *)
Lemma reach_last_effect (section : nat → SectionView) (k : nat) (st : LoopState) :
  reach section (S k) = Some st → last (effects st) = Some (SetTimeout 1500).
Proof.
  simpl. destruct (reach section k) as [st0|]; [|done].
  destruct (scrollAttempts st0 <? maxScrollAttempts)%nat; [|done].
  rewrite iteration_unfold.
  repeat (match goal with
          | |- context [if ?b then _ else _] => destruct b
          end); intros [= <-]; simpl; by rewrite last_app.
Qed.

(** The loop either leaves through a [break] in some pass or gets to the
    head of pass [maxScrollAttempts]. *)
Lemma loop_exit (section : nat → SectionView) :
  (∃ k st st', k < maxScrollAttempts ∧ reach section k = Some st
               ∧ iteration (section k) st = Break st')
  ∨ (∃ st, reach section maxScrollAttempts = Some st).
Proof.
  assert (H : ∀ n, (∃ k st st', k < n ∧ k < maxScrollAttempts
                                ∧ reach section k = Some st
                                ∧ iteration (section k) st = Break st')
                   ∨ (∃ st, reach section (n `min` maxScrollAttempts) = Some st)).
  { induction n as [|n [(k & st & st' & Hk & ?) | [st Hr]]].
    - right. by eexists.
    - left. exists k, st, st'. split; [lia | done].
    - destruct (decide (n < maxScrollAttempts)) as [Hlt | Hge].
      + rewrite Nat.min_l in Hr by lia.
        destruct (iteration (section n) st) as [st' | st'] eqn:Hit.
        * left. exists n, st, st'. split_and!; [lia | done..].
        * right. exists st'. rewrite Nat.min_l by lia.
          by apply (reach_step section n st).
      + right. exists st. rewrite Nat.min_r in * by lia. done. }
  destruct (H maxScrollAttempts) as [(k & st & st' & _ & ?) | [st Hr]].
  - left. by exists k, st, st'.
  - right. exists st. by rewrite Nat.min_id in Hr.
Qed.

Lemma final_cap (section : nat → SectionView) (st : LoopState) :
  reach section maxScrollAttempts = Some st →
  finalState section = st ∧ passes section = maxScrollAttempts.
Proof.
  intros Hr. destruct (reach_loop section _ st Hr) as [Hf Hp].
  rewrite Nat.sub_diag in Hf, Hp. split; [done |].
  rewrite <- Hp. cbn [passesFrom]. lia.
Qed.

(** One scroll step per completed pass, to the end. *)
Lemma final_scrolls (section : nat → SectionView) :
  scrollsIssued (finalState section) = scrollAttempts (finalState section).
Proof.
  destruct (loop_exit section) as [(k & st & st' & Hk & Hr & Hit) | [st Hr]].
  - destruct (final_break section k st st' Hr Hk Hit) as [-> _].
    destruct (reach_LoopInv section k st Hr) as [(_ & _ & Hs & _) _].
    destruct (iteration_cases (section k) st) as (_ & _ & Hc).
    rewrite Hit in Hc. simpl in Hc. destruct Hc as (Ha' & Hs' & _). lia.
  - destruct (final_cap section st Hr) as [-> _].
    by destruct (reach_LoopInv section _ st Hr) as [(_ & _ & Hs & _) _].
Qed.


(** X3: every scan ends in exactly one of three ways, and within its
    bounds: at a pass that sees the next section; at a pass that brings
    the stagnation counter to 3; or at the round limit.  In each case the
    scroll steps issued are as many as [scrollAttempts], at most 50, and
    one less than the passes made unless the limit was hit. *)
Theorem X3_scan_exit (section : nat → SectionView) :
  let fin := finalState section in
  scrollsIssued fin = scrollAttempts fin
  ∧ scrollAttempts fin ≤ maxScrollAttempts
  ∧ passes section ≤ maxScrollAttempts
  ∧ ((last (effects fin)
      = Some (ConsoleLog "Reached the next category section, stopping scroll")
      ∧ passes section = S (scrollAttempts fin)
      ∧ reachedNextSection (section (scrollAttempts fin)) = true)
     ∨ (last (effects fin)
        = Some (ConsoleLog "No new emojis loaded after 3 attempts, stopping scroll")
        ∧ passes section = S (scrollAttempts fin)
        ∧ reachedNextSection (section (scrollAttempts fin)) = false
        ∧ noNewEmojisCount fin = 3)
     ∨ (last (effects fin) = Some (SetTimeout 1500)
        ∧ passes section = maxScrollAttempts
        ∧ scrollAttempts fin = maxScrollAttempts)).
Proof.
  intros fin. subst fin. pose proof (passes_bound section) as Hpb.
  destruct (loop_exit section) as [(k & st & st' & Hk & Hr & Hit) | [st Hr]].
  - destruct (final_break section k st st' Hr Hk Hit) as [-> Hp].
    destruct (reach_LoopInv section k st Hr) as [(_ & Hn & Hs & _) Ha].
    destruct (iteration_cases (section k) st) as (_ & _ & Hc).
    rewrite Hit in Hc. simpl in Hc. destruct Hc as (Ha' & Hs' & Hc).
    rewrite Ha', Hs', Ha. split_and!; [lia | lia | done |].
    destruct Hc as [(Hb & _ & Hl) | (Hb & _ & Hn' & H3 & Hl)].
    + left. by split_and!.
    + right. left. split_and!; try done. lia.
  - destruct (final_cap section st Hr) as [-> Hp].
    destruct (reach_LoopInv section _ st Hr) as [(_ & _ & Hs & _) Ha].
    rewrite Hs, Ha. split_and!; [done | done | done |].
    right. right. split_and!; [|done..].
    by apply (reach_last_effect section 49).
Qed.


Lemma reach_le (section : nat → SectionView) (k : nat) (st : LoopState) :
  reach section k = Some st → k ≤ maxScrollAttempts.
Proof.
  destruct k as [|k]; [lia |]. simpl.
  destruct (reach section k) as [st0|] eqn:Hr; [|done].
  destruct (reach_LoopInv section k st0 Hr) as [_ Ha].
  destruct (Nat.ltb_spec (scrollAttempts st0) maxScrollAttempts); [lia | done].
Qed.

Lemma firstSeen_prefix (a b : list Emoji) : firstSeen a `prefix_of` firstSeen (a ++ b).
Proof.
  induction b as [|d b IH] using rev_ind.
  - by rewrite app_nil_r.
  - rewrite app_assoc, firstSeen_snoc. case_decide; [done |].
    by apply prefix_app_r.
Qed.

(** X4: the list only grows at its end: what the loop holds at the head
    of any pass is an initial part of what the call returns, so nothing
    collected is dropped or moved later. *)
Theorem X4_collected_prefix (section : nat → SectionView) (k : nat) (st : LoopState) :
  reach section k = Some st →
  emojisWithNames st `prefix_of` emojisWithNames (finalState section)
  ∧ k ≤ passes section.
Proof.
  intros Hr. pose proof (reach_le section k st Hr) as Hle.
  assert (Hk : k ≤ passes section).
  { destruct (decide (k < maxScrollAttempts)) as [Hlt | Hge].
    - assert (k < passes section); [|lia].
      apply passes_reach. split; [done | by eexists].
    - replace k with maxScrollAttempts in * by lia.
      by destruct (final_cap section st Hr) as [_ ->]. }
  split; [|done].
  destruct (reach_LoopInv section k st Hr) as [(_ & _ & _ & _ & ->) ->].
  destruct (final_harvested section) as [_ ->].
  unfold scanned, scannedIn.
  replace (passes section) with (k + (passes section - k)) by lia.
  rewrite seq_app, flat_map_app, fmap_app. apply firstSeen_prefix.
Qed.

Lemma X4_collected_prefix_witness :
  emojisWithNames (default initialState (reach shortSection 1))
    `prefix_of` emojisWithNames (finalState shortSection)
  ∧ 1 ≤ passes shortSection.
Proof.
  apply (X4_collected_prefix shortSection 1). vm_compute. reflexivity.
Defined.

(** X5: a section that shows no custom emoji in its first three passes
    (and is not followed by the next section) yields the empty list, not
    an error: the loop makes three passes and two scroll steps and stops
    for stagnation. *)
Theorem X5_empty_section (section : nat → SectionView) :
  stagnantPass section ∅ 0 = true →
  stagnantPass section ∅ 1 = true →
  stagnantPass section ∅ 2 = true →
  extractEmojiUrls (pageOf section) = Ok []
  ∧ passes section = 3
  ∧ scrollsIssued (finalState section) = 2
  ∧ last (effects (finalState section))
    = Some (ConsoleLog "No new emojis loaded after 3 attempts, stopping scroll").
Proof.
  intros H0 H1 H2.
  destruct (stagnation_stops section 2 0 initialState) as (Ha & Hp & Hl & He);
    try done; try (unfold maxScrollAttempts; lia).
  { intros i Hi. simpl.
    destruct i as [|[|[|i]]]; [done | done | done | lia]. }
  pose proof (final_scrolls section) as Hs.
  unfold extractEmojiUrls. simpl. rewrite Hl, Hs, Ha. by split_and!.
Qed.

Lemma X5_empty_section_witness :
  extractEmojiUrls (pageOf emptySection) = Ok []
  ∧ passes emptySection = 3
  ∧ scrollsIssued (finalState emptySection) = 2
  ∧ last (effects (finalState emptySection))
    = Some (ConsoleLog "No new emojis loaded after 3 attempts, stopping scroll").
Proof. apply (X5_empty_section emptySection); vm_compute; reflexivity. Defined.

(** ** The stored URL *)

(** X6: the branch that would put [&animated=true] back is never taken:
    the rewrite of the size cannot remove [animated=true] from a URL, so
    for every URL what is stored is the URL with the size rewritten and
    nothing appended. *)
Theorem X6_nothing_appended (s : string) : normalizeSrc s = replaceSize s.
Proof.
  unfold normalizeSrc. destruct (includes s "animated=true") eqn:Ha.
  - pose proof (replaceSize_keeps_animated s Ha) as Hkept.
    by rewrite Hkept.
  - done.
Qed.

Lemma replaceSize_no_match (s : string) : testSize s = false → replaceSize s = s.
Proof.
  induction s as [|c s IH]; [done |].
  rewrite testSize_unfold, replaceSize_unfold.
  destruct (matchSize (String c s)); [done |]. intros H. by rewrite IH.
Qed.

(** X7: a URL without a size parameter is stored as it is: no
    [size=512] is added to it. *)
Theorem X7_no_size_unchanged (s : string) :
  testSize s = false →
  normalizeSrc s = s
  ∧ includes (normalizeSrc s) "size=512" = false.
Proof.
  intros Hno.
  assert (Hs : normalizeSrc s = s).
  { unfold normalizeSrc. rewrite (replaceSize_no_match s Hno).
    by destruct (includes s "animated=true"). }
  split; [done |]. rewrite Hs.
  destruct (includes s "size=512") eqn:Hin; [|done].
  apply includes_spec in Hin as (pre & post & ->).
  rewrite (hasSizeParam_testSize (pre +:+ "size=512" +:+ post)) in Hno; [done |].
  by exists pre, "512", post.
Qed.

Lemma X7_no_size_unchanged_witness :
  normalizeSrc "https://cdn.discordapp.com/emojis/9.gif?animated=true"
  = "https://cdn.discordapp.com/emojis/9.gif?animated=true"
  ∧ includes (normalizeSrc "https://cdn.discordapp.com/emojis/9.gif?animated=true")
      "size=512" = false.
Proof. apply X7_no_size_unchanged. reflexivity. Defined.

Lemma dropDigits_fixed (post : string) :
  noLeadingDigit post = true → dropDigits post = post.
Proof.
  destruct post as [|c post]; [done |]. simpl.
  intros Hc%negb_true_iff. by rewrite Hc.
Qed.

Lemma dropDigits_append (ds post : string) :
  allDigits ds = true → noLeadingDigit post = true →
  dropDigits (ds +:+ post) = post.
Proof.
  intros Hds Hpost. induction ds as [|d ds IH]; [by apply dropDigits_fixed |].
  change (allDigits (String d ds)) with (isDigit d && allDigits ds) in Hds.
  apply andb_true_iff in Hds as [Hd Hds].
  rewrite append_cons. simpl. rewrite Hd. by apply IH.
Qed.

(** Whether a text starts with a match is decided by its first six
    characters. *)
Lemma matchSize_six (t u : string) :
  6 ≤ String.length t → is_Some (matchSize (t +:+ u)) → is_Some (matchSize t).
Proof.
  intros Hlen.
  do 6 (destruct t as [|? t]; [simpl in Hlen; lia |]).
  rewrite !append_cons. unfold matchSize. cbn [stripPrefix].
  repeat (match goal with
          | |- context [if ?b then _ else _] => destruct b
          end; try (intros [? [=]]; fail)); eauto.
Qed.

Lemma length_append (s t : string) :
  String.length (s +:+ t) = String.length s + String.length t.
Proof.
  induction s as [|c s IH]; [done |]. rewrite append_cons. simpl. by rewrite IH.
Qed.

(** The leftmost match is the one that is rewritten. *)
Lemma replaceSize_at (pre ds post : string) :
  testSize (pre +:+ "size=") = false →
  ds ≠ "" → allDigits ds = true → noLeadingDigit post = true →
  replaceSize (pre +:+ "size=" +:+ ds +:+ post) = pre +:+ "size=512" +:+ post.
Proof.
  intros Hleft Hne Hds Hpost. induction pre as [|c pre IH].
  - rewrite !append_empty_l, replaceSize_unfold.
    destruct ds as [|d ds]; [done |].
    change (allDigits (String d ds)) with (isDigit d && allDigits ds) in Hds.
    apply andb_true_iff in Hds as [Hd Hds].
    unfold matchSize.
    rewrite (proj2 (stripPrefix_spec "size=" _ (String d ds +:+ post)) eq_refl).
    rewrite append_cons, Hd. by rewrite dropDigits_append.
  - rewrite append_cons, testSize_unfold in Hleft.
    destruct (matchSize (String c (pre +:+ "size="))) as [?|] eqn:Hm; [done |].
    rewrite append_cons, replaceSize_unfold.
    destruct (matchSize (String c (pre +:+ "size=" +:+ ds +:+ post))) as [rest|] eqn:Hm'.
    + destruct (matchSize_six (String c (pre +:+ "size=")) (ds +:+ post)) as [? Hs].
      * simpl. rewrite length_append. simpl. lia.
      * rewrite append_cons, append_assoc. by eexists.
      * by rewrite Hm in Hs.
    + rewrite (append_cons c pre). by rewrite IH.
Qed.

(** X8: normalising is idempotent: a URL that has been normalised is
    left as it is by a second normalisation, so scanning the stored URL
    again would give the same key. *)
Theorem X8_normalize_idempotent (s : string) :
  normalizeSrc (normalizeSrc s) = normalizeSrc s.
Proof.
  rewrite !normalizeSrc_replaceSize.
  destruct (testSize s) eqn:Ht.
  - destruct (replaceSize_match s Ht)
      as (pre & ds & post & _ & _ & _ & Hpost & Hleft & ->).
    by apply replaceSize_at.
  - by rewrite !(replaceSize_no_match s Ht).
Qed.

(** ** The stored name *)

Lemma allNameChars_cons (c : ascii) (s : string) :
  allNameChars (String c s) = isNameChar c && allNameChars s.
Proof. reflexivity. Qed.

Lemma sanitize_cons (c : ascii) (s : string) :
  sanitize (String c s) = String (if isNameChar c then c else "_"%char) (sanitize s).
Proof. reflexivity. Qed.

Lemma sanitize_allNameChars (s : string) : allNameChars (sanitize s) = true.
Proof.
  induction s as [|c s IH]; [done |].
  rewrite sanitize_cons, allNameChars_cons, IH, andb_true_r.
  by destruct (isNameChar c) eqn:Hc.
Qed.

Lemma sanitize_fixed (s : string) : allNameChars s = true → sanitize s = s.
Proof.
  induction s as [|c s IH]; [done |].
  rewrite allNameChars_cons, sanitize_cons.
  intros [Hc Hs]%andb_true_iff. by rewrite Hc, IH.
Qed.

Lemma stripTrailingColon_cons (c : ascii) (s : string) :
  c ≠ ":"%char ∨ s ≠ "" →
  stripTrailingColon (String c s) = String c (stripTrailingColon s).
Proof.
  intros H. destruct (Ascii.eqb_spec c ":") as [-> | Hc].
  - destruct H as [? | Hs]; [done |]. by destruct s.
  - clear H. destruct c as [[] [] [] [] [] [] [] []]; try done.
Qed.

Lemma stripTrailingColon_snoc (s : string) : stripTrailingColon (s +:+ ":") = s.
Proof.
  induction s as [|c s IH]; [done |].
  rewrite append_cons, stripTrailingColon_cons, IH; [done |].
  right. by destruct s.
Qed.

Lemma isNameChar_not_colon (c : ascii) : isNameChar c = true → c ≠ ":"%char.
Proof. intros Hc ->. by vm_compute in Hc. Qed.

Lemma stripTrailingColon_fixed (s : string) :
  allNameChars s = true → stripTrailingColon s = s.
Proof.
  induction s as [|c s IH]; [done |]. rewrite allNameChars_cons.
  intros [Hc Hs]%andb_true_iff.
  rewrite stripTrailingColon_cons, IH; [done | done |].
  left. by apply isNameChar_not_colon.
Qed.

Lemma stripLeadingColon_fixed (s : string) :
  allNameChars s = true → stripLeadingColon s = s.
Proof.
  destruct s as [|c s]; [done |]. rewrite allNameChars_cons.
  intros [Hc%isNameChar_not_colon _]%andb_true_iff.
  destruct c as [[] [] [] [] [] [] [] []]; try done.
Qed.

Lemma cleanName_fixed (n : string) : allNameChars n = true → cleanName n = n.
Proof.
  intros Hn. unfold cleanName.
  by rewrite stripLeadingColon_fixed, stripTrailingColon_fixed, sanitize_fixed.
Qed.

Lemma firstSeen_elem (l : list Emoji) (e : Emoji) : e ∈ firstSeen l → e ∈ l.
Proof.
  induction l as [|d l IH]; [done |]. rewrite firstSeen_cons.
  intros [-> | [_ He]%list_elem_of_filter]%elem_of_cons.
  - by left.
  - right. by apply IH.
Qed.

(** X9: every name the collector returns is made of the characters
    [A-Z a-z 0-9 _ -] only, whatever the thumbnails' [alt] texts were; it
    is the cleaned [alt] of a thumbnail that was scanned. *)
Theorem X9_names_are_clean (page : Page) (out : list Emoji) (i : nat) (e : Emoji) :
  extractEmojiUrls page = Ok out →
  out !! i = Some e →
  allNameChars (name e) = true
  ∧ ∃ section img, serverEmojiSection page = Some section
      ∧ img ∈ scanned section ∧ e = descriptor img.
Proof.
  unfold extractEmojiUrls.
  destruct (negb (emojiPickerContainer page)); [done |].
  destruct (serverEmojiSection page) as [section|]; [|done].
  intros [= <-] He. apply list_elem_of_lookup_2 in He.
  destruct (final_harvested section) as [_ Hl]. rewrite Hl in He.
  apply firstSeen_elem, list_elem_of_fmap in He as (img & -> & Himg).
  split; [apply sanitize_allNameChars | by exists section, img].
Qed.

Lemma X9_names_are_clean_witness :
  allNameChars (name {| url := "https://cdn.discordapp.com/emojis/2.webp?size=512";
                        name := "PES_Bunny" |}) = true
  ∧ ∃ section img, serverEmojiSection (pageOf shortSection) = Some section
      ∧ img ∈ scanned section
      ∧ {| url := "https://cdn.discordapp.com/emojis/2.webp?size=512";
           name := "PES_Bunny" |} = descriptor img.
Proof.
  apply (X9_names_are_clean (pageOf shortSection)
           (emojisWithNames (finalState shortSection)) 1);
    vm_compute; reflexivity.
Defined.

(** X10: a name that is already clean comes through unchanged: for [n]
    made of the allowed characters, the [alt] text [:n:] (Discord's form)
    gives the name [n], and so do [n] itself, [:n] and [n:]. *)
Theorem X10_clean_name_round_trip (n : string) :
  allNameChars n = true →
  cleanName (":" +:+ n +:+ ":") = n
  ∧ cleanName n = n
  ∧ cleanName (":" +:+ n) = n
  ∧ cleanName (n +:+ ":") = n.
Proof.
  intros Hn. split_and!.
  - unfold cleanName. change (stripLeadingColon (":" +:+ n +:+ ":")) with (n +:+ ":").
    by rewrite stripTrailingColon_snoc, sanitize_fixed.
  - by apply cleanName_fixed.
  - unfold cleanName. change (stripLeadingColon (":" +:+ n)) with n.
    by rewrite stripTrailingColon_fixed, sanitize_fixed.
  - unfold cleanName. destruct n as [|c n]; [done |].
    rewrite allNameChars_cons in Hn.
    apply andb_true_iff in Hn as [Hc Hn'].
    assert (Hlead : stripLeadingColon (String c n +:+ ":") = String c n +:+ ":").
    { rewrite append_cons. apply isNameChar_not_colon in Hc.
      destruct c as [[] [] [] [] [] [] [] []]; try done. }
    rewrite Hlead, stripTrailingColon_snoc, sanitize_fixed; [done |].
    by rewrite allNameChars_cons, Hc, Hn'.
Qed.

Lemma X10_clean_name_round_trip_witness :
  cleanName (":" +:+ "PES_Bunny" +:+ ":") = "PES_Bunny"
  ∧ cleanName "PES_Bunny" = "PES_Bunny"
  ∧ cleanName (":" +:+ "PES_Bunny") = "PES_Bunny"
  ∧ cleanName ("PES_Bunny" +:+ ":") = "PES_Bunny".
Proof. apply X10_clean_name_round_trip. reflexivity. Defined.

(** X11: cleaning is idempotent and never lengthens: cleaning a cleaned
    name changes nothing, and the name is no longer than the [alt] text
    it comes from. *)
Theorem X11_clean_name_idempotent (alt0 : string) :
  cleanName (cleanName alt0) = cleanName alt0
  ∧ String.length (cleanName alt0) ≤ String.length alt0.
Proof.
  split.
  - apply cleanName_fixed, sanitize_allNameChars.
  - unfold cleanName.
    assert (Hsan : ∀ s, String.length (sanitize s) = String.length s).
    { intros s. induction s as [|c s IH]; [done |]. rewrite sanitize_cons. simpl.
      by rewrite IH. }
    assert (Htrail : ∀ s, String.length (stripTrailingColon s) ≤ String.length s).
    { intros s. induction s as [|c s IH]; [done |].
      destruct (Ascii.eqb_spec c ":") as [-> | Hc].
      - destruct s as [|c' s]; [simpl; lia |].
        rewrite stripTrailingColon_cons by (by right).
        change (String.length (String ":" ?x)) with (S (String.length x)). lia.
      - rewrite stripTrailingColon_cons by (by left).
        change (String.length (String c ?x)) with (S (String.length x)). lia. }
    assert (Hlead : String.length (stripLeadingColon alt0) ≤ String.length alt0).
    { destruct alt0 as [|c s]; [done |].
      destruct c as [[] [] [] [] [] [] [] []]; simpl; lia. }
    rewrite Hsan. etrans; [apply Htrail | done].
Qed.

(** ** What a run does to the files *)

Section FileEffects.
Context {FS : Type} {rt : Runtime FS}.
Implicit Types (w : World FS) (emoji : Emoji) (server : Server.t).

Lemma processEmoji_fs server outputBaseDir emojiSize total index emoji w :
  fs (snd (processEmoji server outputBaseDir emojiSize total index emoji w))
  = fsStep server outputBaseDir emojiSize (fs w) emoji.
Proof.
  rewrite processEmoji_unfold. unfold fsStep. simpl.
  destruct (prewrite emojiSize emoji) as [data | m]; [|done].
  destruct (bunWrite _ data (fs w)) as [[n | m] fs']; simpl; [|done].
  by destruct (bunFileArrayBuffer _ fs').
Qed.

Lemma forEntries_fs server outputBaseDir emojiSize total (emojis : list Emoji)
    index w :
  fs (snd (Js.forEntries (processEmoji server outputBaseDir emojiSize total)
             index emojis w))
  = foldl (fsStep server outputBaseDir emojiSize) (fs w) emojis.
Proof.
  revert index w. induction emojis as [|e emojis IH]; intros index w; [done |].
  simpl. unfold Js.bind.
  pose proof (processEmoji_fs server outputBaseDir emojiSize total index e w) as Hfs.
  pose proof (processEmoji_Ok server outputBaseDir emojiSize total index e w) as Hok.
  destruct (processEmoji server outputBaseDir emojiSize total index e w) as [r w'].
  simpl in Hfs, Hok. subst r. by rewrite IH, Hfs.
Qed.

(** X12: the files a run leaves depend on the items alone, one after the
    other: running a list in two parts, the second from where the first
    ended, leaves the files of running it whole; and the items that fail
    before the write could as well be left out. *)
Theorem X12_files_compose (l1 l2 : list Emoji) (server : Server.t)
    (outputBaseDir : string) (emojiSize : Z) (w : World FS) :
  let run := λ l, downloadAndProcessEmojis l server outputBaseDir emojiSize in
  fs (snd (run (l1 ++ l2) w)) = fs (snd (run l2 (snd (run l1 w))))
  ∧ fs (snd (run l1 w))
    = fs (snd (run (List.filter (getsToWrite emojiSize) l1) w)).
Proof.
  intros run. subst run. unfold downloadAndProcessEmojis.
  rewrite !forEntries_fs, foldl_app. split; [done |].
  generalize (fs w). induction l1 as [|e l1 IH]; intros files; [done |].
  simpl. unfold getsToWrite at 1, fsStep at 2.
  destruct (prewrite emojiSize e) as [data | m] eqn:Hpre; simpl.
  - rewrite IH. unfold fsStep at 3. by rewrite Hpre.
  - apply IH.
Qed.

End FileEffects.

Section MapFiles.
Variable fetch0 : string → result Response.
Variable sharp0 : bytes → bool → Z → result bytes.
Implicit Types (w : World (gmap string bytes)) (emoji : Emoji) (server : Server.t).

Lemma lastWrite_app (path : string) (ws1 ws2 : list (string * bytes)) :
  lastWrite path (ws1 ++ ws2)
  = match lastWrite path ws2 with
    | Some data => Some data
    | None => lastWrite path ws1
    end.
Proof.
  induction ws1 as [|pd ws1 IH]; simpl.
  - by destruct (lastWrite path ws2).
  - rewrite IH. by destruct (lastWrite path ws2).
Qed.

Lemma lastWrite_none server outputBaseDir emojiSize path (emojis : list Emoji) :
  forallb (λ e, negb (writesTo (rt := mapRuntime fetch0 sharp0) server
                        outputBaseDir emojiSize path e)) emojis = true →
  lastWrite path
    (omap (itemWrite (rt := mapRuntime fetch0 sharp0) server outputBaseDir
             emojiSize) emojis) = None.
Proof.
  induction emojis as [|e emojis IH]; [done |].
  intros H. simpl in H. apply andb_true_iff in H as [He Hl]. specialize (IH Hl).
  cbn [omap list_omap].
  destruct (itemWrite server outputBaseDir emojiSize e) as [[p d]|] eqn:Hw; [|done].
  cbn [lastWrite]. fold (omap (itemWrite (rt := mapRuntime fetch0 sharp0) server
                                 outputBaseDir emojiSize) emojis).
  rewrite IH. rewrite decide_False; [done |].
  unfold writesTo, getsToWrite in He. unfold itemWrite in Hw.
  destruct (prewrite emojiSize e) as [data | m]; [|done].
  injection Hw as <- <-. simpl in He.
  by apply negb_true_iff, bool_decide_eq_false in He.
Qed.

Lemma run_lookup server outputBaseDir emojiSize (emojis : list Emoji) w path :
  fs (snd (downloadAndProcessEmojis (rt := mapRuntime fetch0 sharp0) emojis server
             outputBaseDir emojiSize w)) !! path
  = match lastWrite path
            (omap (itemWrite (rt := mapRuntime fetch0 sharp0) server
                     outputBaseDir emojiSize) emojis) with
    | Some data => Some data
    | None => fs w !! path
    end.
Proof.
  unfold downloadAndProcessEmojis. rewrite map_forEntries. simpl.
  apply applyWrites_lookup.
Qed.

(** X13: the last writer wins: when an item gets to the write and no
    later item of the run is written to the same destination, the file at
    that destination holds this item's image after the run, whatever
    earlier items of the same name put there. *)
Theorem X13_last_write_wins server outputBaseDir emojiSize
    (l1 l2 : list Emoji) emoji (data : bytes) w :
  prewrite (rt := mapRuntime fetch0 sharp0) emojiSize emoji = Ok data →
  forallb (λ e, negb (writesTo (rt := mapRuntime fetch0 sharp0) server
                        outputBaseDir emojiSize
                        (filePath outputBaseDir server emoji) e)) l2 = true →
  fs (snd (downloadAndProcessEmojis (rt := mapRuntime fetch0 sharp0)
             (l1 ++ emoji :: l2) server outputBaseDir emojiSize w))
    !! filePath outputBaseDir server emoji
  = Some data.
Proof.
  intros Hpre Hlater.
  rewrite run_lookup, (cons_middle emoji l1 l2), !omap_app, !lastWrite_app.
  rewrite (lastWrite_none _ _ _ _ l2 Hlater).
  cbn [omap list_omap]. unfold itemWrite at 1. rewrite Hpre. simpl.
  by rewrite decide_True.
Qed.

(** X14: a run touches nothing but its destinations: a file that is not
    the destination of an item that gets to the write is after the run
    what it was before, and no file that existed before is gone after. *)
Theorem X14_other_files_untouched server outputBaseDir emojiSize
    (emojis : list Emoji) w :
  let after := fs (snd (downloadAndProcessEmojis (rt := mapRuntime fetch0 sharp0)
                          emojis server outputBaseDir emojiSize w)) in
  (∀ path,
     forallb (λ e, negb (writesTo (rt := mapRuntime fetch0 sharp0) server
                           outputBaseDir emojiSize path e)) emojis = true →
     after !! path = fs w !! path)
  ∧ (∀ path, is_Some (fs w !! path) → is_Some (after !! path)).
Proof.
  intros after. subst after. split; intros path H; rewrite run_lookup.
  - by rewrite lastWrite_none.
  - by destruct (lastWrite path _).
Qed.

End MapFiles.

Lemma X13_last_write_wins_witness :
  fs (snd (downloadAndProcessEmojis (rt := mapRuntime echoCdn copyEncoder)
             ([waveEmoji] ++ otherWave :: [smileEmoji]) cozy "/srv/emojis" 512
             emptyWorld))
    !! filePath "/srv/emojis" cozy otherWave
  = Some [Byte.x52; Byte.x49; Byte.x37].
Proof.
  apply (X13_last_write_wins echoCdn copyEncoder cozy "/srv/emojis" 512%Z
           [waveEmoji] [smileEmoji] otherWave);
    vm_compute; reflexivity.
Defined.

Lemma X14_other_files_untouched_witness :
  let w := mkWorld (<["/srv/emojis/Cozyhive/notes.txt" := [Byte.x68; Byte.x69]]> ∅) [] in
  fs (snd (downloadAndProcessEmojis (rt := mapRuntime echoCdn copyEncoder)
             [waveEmoji; smileEmoji] cozy "/srv/emojis" 512 w))
    !! "/srv/emojis/Cozyhive/notes.txt"
  = fs w !! "/srv/emojis/Cozyhive/notes.txt".
Proof.
  intros w.
  apply (proj1 (X14_other_files_untouched echoCdn copyEncoder cozy "/srv/emojis"
                  512%Z [waveEmoji; smileEmoji] w)).
  vm_compute. reflexivity.
Defined.

(** ** Destinations: [path.join] *)

Lemma rev_app_append (s t : string) : String.rev_app s t = String.rev s +:+ t.
Proof.
  unfold String.rev. revert t.
  induction s as [|a s IH]; intros t; [done|].
  cbn [String.rev_app]. rewrite (IH (String a t)), (IH (String a "")).
  by rewrite append_assoc.
Qed.

Lemma rev_cons (a : ascii) (s : string) :
  String.rev (String a s) = String.rev s +:+ String a "".
Proof. unfold String.rev at 1. cbn [String.rev_app]. apply rev_app_append. Qed.

Lemma rev_append (s t : string) :
  String.rev (s +:+ t) = String.rev t +:+ String.rev s.
Proof.
  induction s as [|a s IH].
  - by rewrite append_empty_l, append_empty_r.
  - by rewrite append_cons, !rev_cons, IH, append_assoc.
Qed.

Lemma rev_head (f : string) :
  f ≠ "" → noChar "/" f = true →
  ∃ c r, String.rev f = String c r ∧ Ascii.eqb "/" c = false.
Proof.
  induction f as [|a f IH]; [done|]. intros _ Hf.
  cbn [noChar] in Hf. apply andb_true_iff in Hf as [Ha Hf].
  apply negb_true_iff in Ha. rewrite rev_cons.
  destruct f as [|b f].
  - by exists a, "".
  - destruct IH as (c & r & -> & Hc); [done..|].
    exists c, (r +:+ String a ""). by rewrite append_cons.
Qed.

Lemma endsWithSlash_head (s : string) (c : ascii) (r : string) :
  String.rev s = String c r → Ascii.eqb "/" c = false →
  Path.endsWithSlash s = false.
Proof.
  unfold Path.endsWithSlash. intros -> Hc.
  destruct c as [[] [] [] [] [] [] [] []]; try done.
Qed.

Lemma endsWithSlash_append (a f : string) :
  f ≠ "" → noChar "/" f = true → Path.endsWithSlash (a +:+ f) = false.
Proof.
  intros Hne Hf. destruct (rev_head f Hne Hf) as (c & r & Hr & Hc).
  apply (endsWithSlash_head _ c (r +:+ String.rev a)); [|done].
  by rewrite rev_append, Hr, append_cons.
Qed.

Lemma splitGo_simple (acc f : string) :
  noChar "/" f = true → Path.splitGo acc f = [String.rev acc +:+ f].
Proof.
  revert acc. induction f as [|c f IH]; intros acc Hf.
  - by rewrite append_empty_r.
  - cbn [noChar] in Hf. apply andb_true_iff in Hf as [Hc Hf].
    apply negb_true_iff in Hc. cbn [Path.splitGo].
    rewrite Ascii.eqb_sym, Hc, (IH _ Hf), rev_cons, append_assoc. done.
Qed.

Lemma splitGo_append (acc a b : string) :
  Path.splitGo acc (a +:+ "/" +:+ b) = Path.splitGo acc a ++ Path.splitGo "" b.
Proof.
  revert acc. induction a as [|c a IH]; intros acc.
  - done.
  - rewrite (append_cons c a). cbn [Path.splitGo].
    destruct (Ascii.eqb c "/"); [by rewrite IH | apply IH].
Qed.

Lemma joinWith_snoc (sep : string) (l : list string) (f : string) :
  Path.joinWith sep (l ++ [f])
  = match l with
    | [] => f
    | _ => Path.joinWith sep l +:+ sep +:+ f
    end.
Proof.
  induction l as [|x l IH]; [done|].
  destruct l as [|y l]; [done|].
  change (Path.joinWith sep ((x :: y :: l) ++ [f]))
    with (x +:+ sep +:+ Path.joinWith sep ((y :: l) ++ [f])).
  rewrite IH.
  change (Path.joinWith sep (x :: y :: l))
    with (x +:+ sep +:+ Path.joinWith sep (y :: l)).
  by rewrite !append_assoc.
Qed.

Lemma simpleSegment_spec (f : string) :
  simpleSegment f = true
  ↔ noChar "/" f = true ∧ f ≠ "" ∧ f ≠ "." ∧ f ≠ "..".
Proof.
  unfold simpleSegment. rewrite !andb_true_iff, !negb_true_iff, !String.eqb_neq.
  tauto.
Qed.

Lemma pushSegment_simple (allow : bool) (stack : list string) (f : string) :
  simpleSegment f = true → Path.pushSegment allow stack f = stack ++ [f].
Proof.
  intros (_ & ? & ? & ?)%simpleSegment_spec. unfold Path.pushSegment.
  rewrite decide_False by tauto. by rewrite decide_False.
Qed.

Lemma append_nonempty_r (s f : string) : f ≠ "" → s +:+ f ≠ "".
Proof. destruct s; [done|]. by rewrite append_cons. Qed.

Lemma split_snoc (J f : string) :
  noChar "/" f = true → Path.split (J +:+ "/" +:+ f) = Path.split J ++ [f].
Proof.
  intros Hf. unfold Path.split. by rewrite splitGo_append, (splitGo_simple "" f Hf).
Qed.

Lemma normalizeString_snoc (J f : string) (allow : bool) :
  simpleSegment f = true →
  Path.normalizeString (J +:+ "/" +:+ f) allow
  = match foldl (Path.pushSegment allow) [] (Path.split J) with
    | [] => ""
    | stack => Path.joinWith "/" stack +:+ "/"
    end +:+ f.
Proof.
  intros Hf. unfold Path.normalizeString.
  rewrite split_snoc by (by apply simpleSegment_spec in Hf as [? _]).
  rewrite foldl_app. cbn [foldl]. rewrite (pushSegment_simple _ _ _ Hf), joinWith_snoc.
  destruct (foldl _ _ _); [done | by rewrite append_assoc].
Qed.

Lemma normalize_shape (path pre f : string) (c : ascii) (rest : string) :
  path = String c rest → Path.endsWithSlash path = false →
  Path.normalizeString path (negb (Ascii.eqb c "/")) = pre +:+ f → f ≠ "" →
  Path.normalize path = (if Ascii.eqb c "/" then "/" else "") +:+ pre +:+ f.
Proof.
  intros -> Hends Hres Hf. unfold Path.normalize. rewrite Hends, Hres.
  destruct (pre +:+ f) as [|a s] eqn:E; [by destruct (append_nonempty_r pre f Hf)|].
  by destruct (Ascii.eqb c "/").
Qed.

Lemma normalize_simple (f : string) :
  simpleSegment f = true → Path.normalize f = f.
Proof.
  intros Hf. pose proof Hf as (Hno & Hne & _)%simpleSegment_spec.
  destruct f as [|c rest] eqn:E; [done|]. rewrite <- E in *.
  assert (Ascii.eqb c "/" = false) as Hc.
  { rewrite E in Hno. cbn [noChar] in Hno.
    apply andb_true_iff in Hno as [Hc _]. apply negb_true_iff in Hc.
    by rewrite Ascii.eqb_sym. }
  rewrite (normalize_shape f "" f c rest E); [by rewrite Hc | | | done].
  - by apply (endsWithSlash_append "" f).
  - unfold Path.normalizeString, Path.split.
    rewrite (splitGo_simple "" f Hno). cbn [foldl].
    by rewrite (pushSegment_simple _ _ _ Hf).
Qed.

Lemma joinWith_head (sep p : string) (l : list string) :
  p ≠ "" → ∃ c rest, p = String c rest
    ∧ ∃ rest', Path.joinWith sep (p :: l) = String c rest'.
Proof.
  intros Hp. destruct p as [|c rest]; [done|]. exists c, rest. split; [done|].
  destruct l as [|q l]; [by exists rest|].
  by exists (rest +:+ sep +:+ Path.joinWith sep (q :: l)).
Qed.

Lemma normalize_parts (p : string) (l : list string) (f : string) :
  p ≠ "" → simpleSegment f = true →
  Path.normalize (Path.joinWith "/" ((p :: l) ++ [f]))
  = (let joined := Path.joinWith "/" (p :: l) in
     let isAbsolute := match joined with
                       | String c _ => Ascii.eqb c "/"
                       | EmptyString => false
                       end in
     let stack := foldl (Path.pushSegment (negb isAbsolute)) [] (Path.split joined) in
     (if isAbsolute then "/" else "")
     +:+ match stack with
         | [] => ""
         | _ => Path.joinWith "/" stack +:+ "/"
         end) +:+ f.
Proof.
  intros Hp Hf. pose proof Hf as (Hno & Hne & _)%simpleSegment_spec.
  rewrite joinWith_snoc. cbv zeta.
  destruct (joinWith_head "/" p l Hp) as (c & rest & _ & rest' & HJ).
  set (J := Path.joinWith "/" (p :: l)) in *.
  erewrite (normalize_shape (J +:+ "/" +:+ f) _ f c); cycle 1.
  - by rewrite HJ.
  - rewrite <- append_assoc. by apply endsWithSlash_append.
  - by apply normalizeString_snoc.
  - done.
  - rewrite HJ. destruct (foldl _ _ _); symmetry; apply append_assoc.
Qed.

Lemma join_directoryPrefix (dir folder f : string) :
  simpleSegment f = true →
  Path.join [dir; folder; f] = directoryPrefix dir folder +:+ f.
Proof.
  intros Hf. pose proof Hf as (Hno & Hne & _)%simpleSegment_spec.
  apply String.eqb_neq in Hne as Hne'.
  unfold Path.join, directoryPrefix. cbn [List.filter]. rewrite Hne'. cbn [negb].
  destruct (String.eqb dir "") eqn:Hd; destruct (String.eqb folder "") eqn:Hs;
    cbn [negb]; rewrite ?String.eqb_neq in *.
  - by apply normalize_simple.
  - by apply (normalize_parts folder []).
  - by apply (normalize_parts dir []).
  - by apply (normalize_parts dir [folder]).
Qed.

Lemma append_inj_r (a b t : string) : a +:+ t = b +:+ t → a = b.
Proof.
  intros H. assert (String.length a = String.length b) as Hlen.
  { apply (f_equal String.length) in H. rewrite !length_append in H. lia. }
  revert b H Hlen. induction a as [|c a IH]; intros [|d b] H Hlen; try done.
  rewrite !append_cons in H. injection H as -> H. f_equal. apply IH; [done | simpl in Hlen; lia].
Qed.

Lemma allNameChars_noChar (c : ascii) (s : string) :
  isNameChar c = false → allNameChars s = true → noChar c s = true.
Proof.
  intros Hc. induction s as [|d s IH]; [done|].
  rewrite allNameChars_cons. intros [Hd Hs]%andb_true_iff.
  rewrite noChar_cons, (IH Hs), andb_true_r.
  destruct (Ascii.eqb_spec c d) as [<- | _]; [congruence | done].
Qed.

Lemma allDigits_noChar (c : ascii) (s : string) :
  isDigit c = false → allDigits s = true → noChar c s = true.
Proof.
  intros Hc. induction s as [|d s IH]; [done|].
  change (allDigits (String d s)) with (isDigit d && allDigits s).
  intros [Hd Hs]%andb_true_iff.
  rewrite noChar_cons, (IH Hs), andb_true_r.
  destruct (Ascii.eqb_spec c d) as [<- | _]; [congruence | done].
Qed.

Lemma allDigits_pretty_N_go (x : N) (s : string) :
  allDigits s = true → allDigits (pretty_N_go x s) = true.
Proof.
  revert s. induction (N.lt_wf_0 x) as [x _ IH]; intros s Hs.
  assert (x = 0 ∨ 0 < x)%N as [-> | Hx] by lia; [done|].
  rewrite pretty_N_go_step by done. apply IH; [by apply N.div_lt|].
  change (isDigit (pretty_N_char (x `mod` 10)) && allDigits s = true).
  rewrite Hs, andb_true_r. unfold pretty_N_char. by repeat case_match.
Qed.

Lemma allDigits_pretty (n : nat) : allDigits (pretty n) = true.
Proof.
  unfold pretty, pretty_nat, pretty, pretty_N.
  case_decide; [done | by apply allDigits_pretty_N_go].
Qed.

Lemma simpleSegment_webp (n : string) :
  noChar "/" n = true → simpleSegment (n +:+ ".webp") = true.
Proof.
  intros Hn. apply simpleSegment_spec. split_and!.
  - by rewrite noChar_append, Hn.
  - by apply append_nonempty_r.
  - intros H%(f_equal String.length). rewrite length_append in H. simpl in H. lia.
  - intros H%(f_equal String.length). rewrite length_append in H. simpl in H. lia.
Qed.

Lemma filePath_prefix (dir : string) (server : Server.t) (e : Emoji) :
  noChar "/" (name e) = true →
  filePath dir server e
  = directoryPrefix dir (Server.folder server) +:+ name e +:+ ".webp".
Proof.
  intros Hn. unfold filePath, fileName.
  by apply join_directoryPrefix, simpleSegment_webp.
Qed.

Lemma directoryPrefix_shape (dir folder : string) :
  directoryPrefix dir folder = "" ∨ ∃ d, directoryPrefix dir folder = d +:+ "/".
Proof.
  unfold directoryPrefix. destruct (List.filter _ _) as [|p l]; [by left|].
  cbv zeta. set (abs := match Path.joinWith "/" (p :: l) with
                        | String c _ => Ascii.eqb c "/"
                        | EmptyString => false
                        end).
  destruct (foldl _ _ _) as [|x stack]; destruct abs.
  - right. by exists "".
  - by left.
  - right. exists ("/" +:+ Path.joinWith "/" (x :: stack)). by rewrite append_assoc.
  - right. by exists (Path.joinWith "/" (x :: stack)).
Qed.

Lemma last_split_prefix (dir folder f : string) :
  noChar "/" f = true →
  last (Path.split (directoryPrefix dir folder +:+ f)) = Some f.
Proof.
  intros Hf. destruct (directoryPrefix_shape dir folder) as [-> | [d ->]].
  - unfold Path.split. by rewrite append_empty_l, splitGo_simple.
  - rewrite append_assoc.
    rewrite (split_snoc d f Hf). apply last_snoc.
Qed.

(** X15: the emoji's name only ever chooses the file inside the server's
    folder.  For a name without a separator the destination is a directory
    prefix fixed by [outputBaseDir] and the server's folder, followed by
    [<name>.webp], and [<name>.webp] is the last segment of the path. *)
Theorem X15_destination_under_folder (outputBaseDir : string) (server : Server.t)
    (emoji : Emoji) :
  noChar "/" (name emoji) = true →
  filePath outputBaseDir server emoji
  = directoryPrefix outputBaseDir (Server.folder server) +:+ name emoji +:+ ".webp"
  ∧ last (Path.split (filePath outputBaseDir server emoji))
    = Some (name emoji +:+ ".webp").
Proof.
  intros Hn. rewrite (filePath_prefix _ _ _ Hn). split; [done|].
  apply last_split_prefix. by rewrite noChar_append, Hn.
Qed.

Lemma X15_destination_under_folder_witness :
  filePath "/srv/../srv/emojis/" cozy waveEmoji
  = directoryPrefix "/srv/../srv/emojis/" (Server.folder cozy)
    +:+ name waveEmoji +:+ ".webp"
  ∧ last (Path.split (filePath "/srv/../srv/emojis/" cozy waveEmoji))
    = Some (name waveEmoji +:+ ".webp").
Proof.
  apply (X15_destination_under_folder "/srv/../srv/emojis/" cozy waveEmoji).
  vm_compute. reflexivity.
Defined.

(** X16: two descriptors are written to the same file exactly when they
    carry the same name: the URL plays no part in the destination, and two
    different names never meet in one file. *)
Theorem X16_same_file_same_name (outputBaseDir : string) (server : Server.t)
    (e1 e2 : Emoji) :
  noChar "/" (name e1) = true → noChar "/" (name e2) = true →
  filePath outputBaseDir server e1 = filePath outputBaseDir server e2
  ↔ name e1 = name e2.
Proof.
  intros H1 H2. rewrite (filePath_prefix _ _ _ H1), (filePath_prefix _ _ _ H2).
  split.
  - intros H%(inj (String.app _)). by apply append_inj_r in H.
  - by intros ->.
Qed.

Lemma X16_same_file_same_name_witness :
  filePath "emojis" cozy waveEmoji = filePath "emojis" cozy otherWave
  ↔ name waveEmoji = name otherWave.
Proof.
  apply (X16_same_file_same_name "emojis" cozy waveEmoji otherWave);
    vm_compute; reflexivity.
Defined.

Lemma positional_filePath_prefix (dir : string) (server : Server.t) (i : nat) :
  Positional.filePath dir server i
  = directoryPrefix dir (Server.folder server) +:+ Positional.fileName i.
Proof.
  unfold Positional.filePath. apply join_directoryPrefix.
  unfold Positional.fileName.
  change ("emoji_" +:+ pretty (i + 1) +:+ ".webp")
    with ("emoji_" +:+ (pretty (i + 1) +:+ ".webp")).
  rewrite <- append_assoc. apply simpleSegment_webp.
  rewrite noChar_append. apply andb_true_iff. split; [done|].
  apply allDigits_noChar; [done | apply allDigits_pretty].
Qed.

Lemma positional_filePath_inj (dir : string) (server : Server.t) (i j : nat) :
  Positional.filePath dir server i = Positional.filePath dir server j → i = j.
Proof.
  rewrite !positional_filePath_prefix. intros H%(inj (String.app _)).
  unfold Positional.fileName in H. apply (inj (String.app _)) in H.
  apply append_inj_r, (inj pretty) in H. lia.
Qed.

(** X17: the earlier, positional variant gives every item of a run a
    destination of its own: the [n] items of a run have [n] different
    paths, each the directory prefix followed by [emoji_<i+1>.webp]. *)
Theorem X17_positional_destinations_distinct (outputBaseDir : string)
    (server : Server.t) (n : nat) :
  NoDup (Positional.filePath outputBaseDir server <$> seq 0 n)
  ∧ Positional.filePath outputBaseDir server <$> seq 0 n
    = (λ i, directoryPrefix outputBaseDir (Server.folder server)
            +:+ "emoji_" +:+ pretty (i + 1) +:+ ".webp") <$> seq 0 n.
Proof.
  split.
  - apply NoDup_fmap_2_strong; [|apply NoDup_seq].
    intros i j _ _. apply positional_filePath_inj.
  - apply list_fmap_ext. intros _ i _. apply positional_filePath_prefix.
Qed.

Lemma lastWrite_Some (path : string) (ws : list (string * bytes)) (data : bytes) :
  lastWrite path ws = Some data → (path, data) ∈ ws.
Proof.
  induction ws as [|[p d] ws IH]; [done|]. cbn [lastWrite].
  destruct (lastWrite path ws) as [data'|].
  - intros [= ->]. right. by apply IH.
  - cbn [fst snd]. case_decide as Hp; [|done]. intros [= ->]. subst p. by left.
Qed.

Lemma extract_names_clean (page : Page) (out : list Emoji) (e : Emoji) :
  extractEmojiUrls page = Ok out → e ∈ out → allNameChars (name e) = true.
Proof.
  unfold extractEmojiUrls.
  destruct (negb (emojiPickerContainer page)); [done |].
  destruct (serverEmojiSection page) as [section|]; [|done].
  intros [= <-] He.
  destruct (final_harvested section) as [_ Hl]. rewrite Hl in He.
  apply firstSeen_elem, list_elem_of_fmap in He as (img & -> & Himg).
  apply sanitize_allNameChars.
Qed.

(** X18: collector and pipeline together: a file that is not there before
    the run and is there after it lies directly under the server's folder,
    is called [<name>.webp] for a collected name made of [A-Z a-z 0-9 _ -]
    only, and holds the non-empty image encoded for a collected item of
    that name. *)
Theorem X18_created_files (fetch0 : string → result Response)
    (sharp0 : bytes → bool → Z → result bytes) (page : Page) (out : list Emoji)
    (server : Server.t) (outputBaseDir : string) (emojiSize : Z)
    (w : World (gmap string bytes)) (path : string) (data : bytes) :
  extractEmojiUrls page = Ok out →
  fs w !! path = None →
  fs (snd (downloadAndProcessEmojis (rt := mapRuntime fetch0 sharp0) out server
             outputBaseDir emojiSize w)) !! path = Some data →
  ∃ emoji, emoji ∈ out
    ∧ allNameChars (name emoji) = true
    ∧ path = directoryPrefix outputBaseDir (Server.folder server)
             +:+ name emoji +:+ ".webp"
    ∧ prewrite (rt := mapRuntime fetch0 sharp0) emojiSize emoji = Ok data
    ∧ data ≠ [].
Proof.
  intros Hout Hbefore. rewrite run_lookup.
  destruct (lastWrite path _) as [data'|] eqn:Hlast; [|congruence].
  intros [= ->].
  apply lastWrite_Some, list_elem_of_omap in Hlast as (e & He & Hw).
  pose proof (extract_names_clean page out e Hout He) as Hclean.
  unfold itemWrite in Hw.
  destruct (prewrite emojiSize e) as [d|m] eqn:Hpre; [|done].
  injection Hw as <- ->. exists e. split_and!; try done.
  - apply filePath_prefix. by apply allNameChars_noChar.
  - intros ->. revert Hpre. unfold prewrite.
    repeat (case_match; try done). intros [= ->]. done.
Qed.

Lemma X18_created_files_witness :
  ∃ emoji, emoji ∈ emojisWithNames (finalState shortSection)
    ∧ allNameChars (name emoji) = true
    ∧ "/srv/emojis/Cozyhive/PES_Bunny.webp"
      = directoryPrefix "/srv/emojis" (Server.folder cozy) +:+ name emoji +:+ ".webp"
    ∧ prewrite (rt := mapRuntime echoCdn copyEncoder) 512 emoji
      = Ok [Byte.x52; Byte.x49; Byte.x31]
    ∧ [Byte.x52; Byte.x49; Byte.x31] ≠ [].
Proof.
  apply (X18_created_files echoCdn copyEncoder (pageOf shortSection)
           (emojisWithNames (finalState shortSection)) cozy "/srv/emojis" 512%Z
           emptyWorld "/srv/emojis/Cozyhive/PES_Bunny.webp"
           [Byte.x52; Byte.x49; Byte.x31]);
    vm_compute; reflexivity.
Defined.

(** ** The 2FA code: [promptFor2FACode] *)

Lemma trimStart_split (s : string) :
  ∃ pre, s = pre +:+ Utils.trimStart s ∧ allWhite pre = true
         ∧ headNotWhite (Utils.trimStart s) = true.
Proof.
  induction s as [|c s (pre & Hs & Hpre & Hhead)]; [by exists ""|].
  cbn [Utils.trimStart]. destruct (Utils.isWhiteSpace c) eqn:Hc.
  - exists (String c pre). rewrite append_cons, <- Hs. split_and!; [done | | done].
    cbn [allWhite]. by rewrite Hc, Hpre.
  - exists "". split_and!; [done | done |]. cbn [headNotWhite]. by rewrite Hc.
Qed.

Lemma trimEnd_split (s : string) :
  ∃ post, s = Utils.trimEnd s +:+ post ∧ allWhite post = true
          ∧ lastNotWhite (Utils.trimEnd s) = true.
Proof.
  induction s as [|c s (post & Hs & Hpost & Hlast)]; [by exists ""|].
  cbn [Utils.trimEnd]. destruct (Utils.trimEnd s) as [|d r] eqn:Ht.
  - destruct (Utils.isWhiteSpace c) eqn:Hc.
    + exists (String c post). rewrite append_empty_l in *. subst s.
      split_and!; [done | | done]. cbn [allWhite]. by rewrite Hc, Hpost.
    + exists post. rewrite append_empty_l in Hs. subst s.
      split_and!; [done | done |]. cbn [lastNotWhite]. by rewrite Hc.
  - exists post. split_and!; [by rewrite append_cons, <- Hs | done | done].
Qed.

Lemma trimEnd_head (s : string) :
  headNotWhite s = true → headNotWhite (Utils.trimEnd s) = true.
Proof.
  destruct s as [|c s]; [done|]. cbn [headNotWhite Utils.trimEnd].
  intros Hc. apply negb_true_iff in Hc.
  destruct (Utils.trimEnd s); [by rewrite Hc; cbn; rewrite Hc | by cbn; rewrite Hc].
Qed.

Lemma allWhite_append (x y : string) :
  allWhite (x +:+ y) = allWhite x && allWhite y.
Proof.
  induction x as [|c x IH]; [done|].
  rewrite append_cons. cbn [allWhite]. by rewrite IH, andb_assoc.
Qed.

Lemma trim_split (s : string) :
  ∃ pre post, s = pre +:+ Utils.trim s +:+ post
    ∧ allWhite pre = true ∧ allWhite post = true
    ∧ headNotWhite (Utils.trim s) = true ∧ lastNotWhite (Utils.trim s) = true.
Proof.
  destruct (trimStart_split s) as (pre & Hs & Hpre & Hhead).
  destruct (trimEnd_split (Utils.trimStart s)) as (post & Ht & Hpost & Hlast).
  exists pre, post. unfold Utils.trim. rewrite <- Ht.
  split_and!; [done | done | done | by apply trimEnd_head | done].
Qed.

(** X19: the 2FA code is the operator's answer without the white space
    around it.  The function returns a code exactly when the answer holds
    something other than white space; the code is then not empty and
    neither starts nor ends with white space.  Without an answer, or with a
    blank one, it throws [No 2FA code provided]. *)
Theorem X19_code_is_trimmed_answer (prompt : string → option string) :
  match Utils.promptFor2FACode prompt with
  | Ok code =>
      ∃ answer pre post,
        prompt "Please enter your 2FA code: " = Some answer
        ∧ answer = pre +:+ code +:+ post
        ∧ allWhite pre = true ∧ allWhite post = true
        ∧ code ≠ ""
        ∧ headNotWhite code = true ∧ lastNotWhite code = true
  | Throw message =>
      message = "No 2FA code provided"
      ∧ (prompt "Please enter your 2FA code: " = None
         ∨ ∃ answer, prompt "Please enter your 2FA code: " = Some answer
                     ∧ allWhite answer = true)
  end.
Proof.
  unfold Utils.promptFor2FACode.
  destruct (prompt _) as [answer|]; [|by split; [|left]]. cbn [fmap option_fmap option_map].
  destruct (trim_split answer) as (pre & post & Hs & Hpre & Hpost & Hhead & Hlast).
  destruct (String.eqb_spec (Utils.trim answer) "") as [He | Hne].
  - split; [done|]. right. exists answer. split; [done|].
    rewrite Hs, He, append_empty_l, allWhite_append. by rewrite Hpre, Hpost.
  - by exists answer, pre, post.
Qed.
(** ** The session *)

Section SessionFiles.
Context {B FS : Type} {dr : Driver B} {rt : Runtime FS}.

Lemma fsStep_browser (server : Server.t) (dir : string) (size : Z)
    (s : B * FS) (emoji : Emoji) :
  (fsStep (rt := Session.sessionRuntime) server dir size s emoji).1 = s.1.
Proof.
  unfold fsStep. destruct (prewrite size emoji) as [data|m]; [|done].
  cbn. by destruct (bunWrite _ data s.2).
Qed.

Lemma pipeline_browser (emojis : list Emoji) (server : Server.t) (dir : string)
    (size : Z) (w : World (B * FS)) :
  (fs (downloadAndProcessEmojis (rt := Session.sessionRuntime) emojis server
         dir size w).2).1 = (fs w).1.
Proof.
  unfold downloadAndProcessEmojis. rewrite forEntries_fs.
  generalize (fs w). induction emojis as [|e emojis IH]; intros s; [done|].
  cbn [foldl]. by rewrite IH, fsStep_browser.
Qed.

Lemma pipeline_Ok (emojis : list Emoji) (server : Server.t) (dir : string)
    (size : Z) (w : World (B * FS)) :
  (downloadAndProcessEmojis (rt := Session.sessionRuntime) emojis server
     dir size w).1 = Ok tt.
Proof. apply forEntries_Ok. Qed.

End SessionFiles.

Section Agreement.
Context {B FS1 FS2 : Type} {dr : Driver B} {rt1 : Runtime FS1} {rt2 : Runtime FS2}.

Lemma agree_ret {A} (a : A) :
  agree (Js.ret (FS := B * FS1) a) (Js.ret (FS := B * FS2) a).
Proof. by intros w1 w2 H. Qed.

Lemma agree_bind {A C} (c1 : M (B * FS1) A) (c2 : M (B * FS2) A)
    (k1 : A → M (B * FS1) C) (k2 : A → M (B * FS2) C) :
  agree c1 c2 → (∀ a, agree (k1 a) (k2 a)) → agree (Js.bind c1 k1) (Js.bind c2 k2).
Proof.
  intros Hc Hk w1 w2 H. unfold Js.bind. destruct (Hc w1 w2 H) as [Hr Hw].
  destruct (c1 w1) as [r1 w1'], (c2 w2) as [r2 w2']. cbn in Hr, Hw. subst r2.
  destruct r1 as [a|m]; [by apply Hk | done].
Qed.

Lemma agree_consoleLog (m1 m2 : string) :
  agree (Js.consoleLog (FS := B * FS1) m1) (Js.consoleLog (FS := B * FS2) m2).
Proof. by intros w1 w2 H. Qed.

Lemma agree_consoleError (m1 d1 m2 d2 : string) :
  agree (Js.consoleError (FS := B * FS1) m1 d1)
        (Js.consoleError (FS := B * FS2) m2 d2).
Proof. by intros w1 w2 H. Qed.

Lemma agree_onPage {A} (call : B → result A * B) :
  agree (Session.onPage (FS := FS1) call) (Session.onPage (FS := FS2) call).
Proof.
  intros w1 w2 H. unfold Session.onPage. red in H. rewrite H.
  by destruct (call (fs w2).1).
Qed.

Lemma agree_sleep (ms : Z) :
  agree (Session.sleep (FS := FS1) ms) (Session.sleep (FS := FS2) ms).
Proof. intros w1 w2 H. unfold Session.sleep, sameBrowser in *. cbn. by rewrite H. Qed.

Lemma agree_tryCatch {A} (c1 : M (B * FS1) A) (c2 : M (B * FS2) A)
    (h1 : string → M (B * FS1) A) (h2 : string → M (B * FS2) A) :
  agree c1 c2 → (∀ m, agree (h1 m) (h2 m)) →
  agree (Js.tryCatch c1 h1) (Js.tryCatch c2 h2).
Proof.
  intros Hc Hh w1 w2 H. unfold Js.tryCatch. destruct (Hc w1 w2 H) as [Hr Hw].
  destruct (c1 w1) as [r1 w1'], (c2 w2) as [r2 w2']. cbn in Hr, Hw. subst r2.
  destruct r1 as [a|m]; [done | by apply Hh].
Qed.

Lemma agree_tryFinally {A} (c1 : M (B * FS1) A) (c2 : M (B * FS2) A)
    (f1 : M (B * FS1) unit) (f2 : M (B * FS2) unit) :
  agree c1 c2 → agree f1 f2 →
  agree (Session.tryFinally c1 f1) (Session.tryFinally c2 f2).
Proof.
  intros Hc Hf w1 w2 H. unfold Session.tryFinally. destruct (Hc w1 w2 H) as [Hr Hw].
  destruct (c1 w1) as [r1 w1'], (c2 w2) as [r2 w2']. cbn in Hr, Hw. subst r2.
  destruct (Hf w1' w2' Hw) as [Hr' Hw'].
  destruct (f1 w1') as [q1 w1''], (f2 w2') as [q2 w2'']. cbn in Hr', Hw'. subst q2.
  by destruct q1.
Qed.

Lemma agree_forOf {A} (body1 : A → M (B * FS1) unit) (body2 : A → M (B * FS2) unit)
    (xs : list A) :
  (∀ x, agree (body1 x) (body2 x)) →
  agree (Session.forOf body1 xs) (Session.forOf body2 xs).
Proof.
  intros Hb. induction xs as [|x xs IH]; [apply agree_ret|].
  cbn [Session.forOf]. by apply agree_bind.
Qed.

Lemma agree_prompt :
  agree (Session.promptFor2FACode (FS := FS1)) (Session.promptFor2FACode (FS := FS2)).
Proof. intros w1 w2 H. unfold Session.promptFor2FACode. red in H. by rewrite H. Qed.

Lemma agree_pipeline (emojis : list Emoji) (server : Server.t) (dir : string)
    (size : Z) :
  agree (downloadAndProcessEmojis (rt := Session.sessionRuntime (B := B) (rt := rt1))
           emojis server dir size)
        (downloadAndProcessEmojis (rt := Session.sessionRuntime (B := B) (rt := rt2))
           emojis server dir size).
Proof.
  intros w1 w2 H. unfold sameBrowser. by rewrite !pipeline_Ok, !pipeline_browser.
Qed.

Lemma agree_steps (env : EnvConfig) :
  agree (Session.steps (rt := rt1) env) (Session.steps (rt := rt2) env).
Proof.
  unfold Session.steps, Session.loginToDiscord, Session.handle2FA,
    Session.processServer, Session.navigateToServer, Session.navigateToChannel,
    Session.openEmojiPicker, Session.extractEmojiUrls.
  repeat first
    [ apply agree_consoleLog | apply agree_onPage | apply agree_sleep
    | apply agree_ret | apply agree_prompt | apply agree_pipeline
    | apply agree_forOf; intros ?
    | apply agree_tryCatch; [|intros ?]
    | apply agree_bind; [|intros ?]
    | match goal with |- agree (if ?b then _ else _) _ => destruct b end ].
Qed.

(** X21: what the pipeline meets (the network, the encoder, the file
    system) has no part in how the run goes: started with the same
    browser, two runs over any two runtimes end with the same outcome and
    the same browser, and their steps succeed or fail alike. *)
Theorem X21_items_never_steer_the_run (env : EnvConfig) (b : B)
    (files1 : FS1) (files2 : FS2) (lines1 lines2 : list ConsoleCall) :
  let w1 := mkWorld (b, files1) lines1 in
  let w2 := mkWorld (b, files2) lines2 in
  (Session.run (rt := rt1) env w1).1 = (Session.run (rt := rt2) env w2).1
  ∧ (fs (Session.run (rt := rt1) env w1).2).1
    = (fs (Session.run (rt := rt2) env w2).2).1
  ∧ (Session.steps (rt := rt1) env w1).1 = (Session.steps (rt := rt2) env w2).1.
Proof.
  intros w1 w2. assert (sameBrowser w1 w2) as H by done.
  split_and!; [| |by apply agree_steps]; unfold Session.run.
  all: apply agree_tryFinally; [|apply agree_onPage|done].
  all: apply agree_tryCatch; [apply agree_steps | intros; apply agree_consoleError].
Qed.

End Agreement.

Section RunShape.
Context {B FS : Type} {dr : Driver B} {rt : Runtime FS}.
Implicit Types (w : World (B * FS)) (env : EnvConfig).

Lemma forOf_app {A} (body : A → M (B * FS) unit) (l l2 : list A) w :
  Session.forOf body (l ++ l2) w
  = Js.bind (Session.forOf body l) (fun _ => Session.forOf body l2) w.
Proof.
  revert w. induction l as [|x l IH]; intros w; [done|].
  cbn [app Session.forOf]. unfold Js.bind.
  destruct (body x w) as [[[]|m] w']; [|done]. by rewrite IH.
Qed.

Lemma steps_failure env (l l2 : list Server.t) w (m : string) :
  (Session.steps (setServers l env) w).1 = Throw m →
  Session.steps (setServers (l ++ l2) env) w = Session.steps (setServers l env) w.
Proof.
  unfold Session.steps. cbn [servers setServers discordEmail discordPassword].
  change (Session.handle2FA (setServers (l ++ l2) env))
    with (Session.handle2FA (FS := FS) (setServers l env)).
  change (Session.processServer (setServers (l ++ l2) env))
    with (Session.processServer (rt := rt) (setServers l env)).
  unfold Js.bind.
  destruct (Session.loginToDiscord _ _ w) as [[[]|m1] w1]; [|done].
  destruct (Session.handle2FA _ w1) as [[[]|m2] w2]; [|done].
  rewrite forOf_app. unfold Js.bind.
  destruct (Session.forOf _ l w2) as [[[]|m3] w3]; [|done].
  by cbn.
Qed.

Lemma setServers_same env : setServers (servers env) env = env.
Proof. by destruct env. Qed.

Lemma onPage_console {A} (call : B → result A * B) w :
  console (Session.onPage (FS := FS) call w).2 = console w
  ∧ (fs (Session.onPage (FS := FS) call w).2).2 = (fs w).2.
Proof. unfold Session.onPage. by destruct (call (fs w).1). Qed.

Lemma tryFinally_onPage (c : M (B * FS) unit) (call : B → result unit * B) w :
  Session.tryFinally c (Session.onPage call) w
  = match (c w).1 with
    | Ok _ => Session.onPage call (c w).2
    | Throw m =>
        match Session.onPage call (c w).2 with
        | (Ok _, w') => (Throw m, w')
        | (Throw m', w') => (Throw m', w')
        end
    end.
Proof.
  unfold Session.tryFinally. destruct (c w) as [[[]|m] w1]; cbn [fst snd]; [|done].
  by destruct (Session.onPage call w1) as [[[]|m] w2].
Qed.

Lemma run_unfold env w :
  Session.run env w
  = Session.onPage close
      (match Session.steps env w with
       | (Ok _, w1) => w1
       | (Throw m, w1) =>
           mkWorld (fs w1) (console w1 ++ [console_error "An error occurred:" m])
       end).
Proof.
  unfold Session.run. rewrite tryFinally_onPage. unfold Js.tryCatch.
  by destruct (Session.steps env w) as [[[]|m] w1].
Qed.

Lemma steps_Ok_last env w u w1 :
  Session.steps env w = (Ok u, w1) →
  last (console w1)
  = Some (console_log "All emojis from all servers have been downloaded and processed!").
Proof.
  unfold Session.steps. unfold Js.bind.
  destruct (Session.loginToDiscord _ _ w) as [[[]|m1] w2]; [|done].
  destruct (Session.handle2FA _ w2) as [[[]|m2] w3]; [|done].
  destruct (Session.forOf _ _ w3) as [[[]|m3] w4]; [|done].
  intros [= _ <-]. apply last_snoc.
Qed.

(** X20: a step that fails ends the run: when the steps fail with the
    servers up to some point of the list, the servers after that point
    make no difference at all (none of them is visited, nothing of theirs
    is logged or written), and the last line on the console is the error
    line with the failure's message. *)
Theorem X20_failure_ends_the_run env (l l2 : list Server.t) w (m : string) :
  servers env = l ++ l2 →
  (Session.steps (setServers l env) w).1 = Throw m →
  Session.run env w = Session.run (setServers l env) w
  ∧ last (console (Session.run env w).2)
    = Some (console_error "An error occurred:" m).
Proof.
  intros Hl Hfail.
  assert (Session.run env w = Session.run (setServers l env) w) as Hrun.
  { rewrite <- (setServers_same env) at 1.
    by rewrite Hl, !run_unfold, (steps_failure env l l2 w m Hfail). }
  split; [done|]. rewrite Hrun, run_unfold, (proj1 (onPage_console _ _)).
  destruct (Session.steps (setServers l env) w) as [[[]|m'] w1]; [done|].
  cbn in Hfail. injection Hfail as ->. apply last_snoc.
Qed.

(** X22: every run ends by closing the browser, and fails only if that
    fails: the run is [browser.close()] in a world whose last console line
    is the closing line when all steps went through, and the error line
    with the failure's message otherwise; closing logs nothing and writes
    no file. *)
Theorem X22_run_ends_closing_the_browser env w :
  ∃ wb, Session.run env w = Session.onPage close wb
    ∧ console (Session.run env w).2 = console wb
    ∧ (fs (Session.run env w).2).2 = (fs wb).2
    ∧ last (console wb)
      = Some (match (Session.steps env w).1 with
              | Ok _ => console_log
                  "All emojis from all servers have been downloaded and processed!"
              | Throw m => console_error "An error occurred:" m
              end).
Proof.
  rewrite run_unfold. eexists. split; [done|].
  split; [apply onPage_console|]. split; [apply onPage_console|].
  destruct (Session.steps env w) as [[u|m] w1] eqn:Hsteps.
  - by apply (steps_Ok_last env w u).
  - apply last_snoc.
Qed.

End RunShape.

Lemma X20_failure_ends_the_run_witness :
  Session.run (dr := tabDriver) (rt := mapRuntime echoCdn copyEncoder)
    exampleEnv startWorld
  = Session.run (dr := tabDriver) (rt := mapRuntime echoCdn copyEncoder)
      (setServers [cozy; hub] exampleEnv) startWorld
  ∧ last (console (Session.run (dr := tabDriver)
                     (rt := mapRuntime echoCdn copyEncoder)
                     exampleEnv startWorld).2)
    = Some (console_error "An error occurred:" "Emoji picker container not found").
Proof.
  apply (X20_failure_ends_the_run (dr := tabDriver)
           (rt := mapRuntime echoCdn copyEncoder) exampleEnv [cozy; hub] [cozy]
           startWorld "Emoji picker container not found");
    vm_compute; reflexivity.
Defined.

Lemma same_content_dec (x y : option bytes) : {x = y} + {x ≠ y}.
Proof. repeat decide equality. Qed.

Section RunFiles.
Context {B : Type} {dr : Driver B}.
Variable fetch0 : string → result Response.
Variable sharp0 : bytes → bool → Z → result bytes.
Abbreviation FS := (gmap string bytes).
Abbreviation rt0 := (Session.sessionRuntime (B := B) (rt := mapRuntime fetch0 sharp0)).
Implicit Types (w : World (B * FS)) (P : string → Prop).

Lemma within_bind_post {A C} P (Q : A → Prop) (c : M (B * FS) A)
    (k : A → M (B * FS) C) :
  writesWithin P c → (∀ w a, (c w).1 = Ok a → Q a) →
  (∀ a, Q a → writesWithin P (k a)) → writesWithin P (Js.bind c k).
Proof.
  intros Hc HQ Hk w path. unfold Js.bind. specialize (Hc w path). specialize (HQ w).
  destruct (c w) as [[a|m] w1]; cbn [fst snd] in *; [|done].
  intros Hne.
  destruct (same_content_dec ((fs w1).2 !! path) ((fs w).2 !! path)) as [Heq|]; [|by apply Hc].
  apply (Hk a (HQ a eq_refl) w1 path). by rewrite Heq.
Qed.

Lemma within_bind {A C} P (c : M (B * FS) A) (k : A → M (B * FS) C) :
  writesWithin P c → (∀ a, writesWithin P (k a)) → writesWithin P (Js.bind c k).
Proof. intros Hc Hk. by apply (within_bind_post P (λ _, True)). Qed.

Lemma within_ret {A} P (a : A) : writesWithin P (Js.ret (FS := B * FS) a).
Proof. by intros w path. Qed.

Lemma within_consoleLog P (m : string) :
  writesWithin P (Js.consoleLog (FS := B * FS) m).
Proof. by intros w path. Qed.

Lemma within_consoleError P (m d : string) :
  writesWithin P (Js.consoleError (FS := B * FS) m d).
Proof. by intros w path. Qed.

Lemma within_onPage {A} P (call : B → result A * B) :
  writesWithin P (Session.onPage (FS := FS) call).
Proof. intros w path. by rewrite (proj2 (onPage_console call w)). Qed.

Lemma within_sleep P (ms : Z) : writesWithin P (Session.sleep (FS := FS) ms).
Proof. by intros w path. Qed.

Lemma within_prompt P : writesWithin P (Session.promptFor2FACode (FS := FS)).
Proof. by intros w path. Qed.

Lemma within_tryCatch {A} P (c : M (B * FS) A) (h : string → M (B * FS) A) :
  writesWithin P c → (∀ m, writesWithin P (h m)) → writesWithin P (Js.tryCatch c h).
Proof.
  intros Hc Hh w path. unfold Js.tryCatch. specialize (Hc w path).
  destruct (c w) as [[a|m] w1]; cbn [fst snd] in *; [done|].
  intros Hne.
  destruct (same_content_dec ((fs w1).2 !! path) ((fs w).2 !! path)) as [Heq|]; [|by apply Hc].
  apply (Hh m w1 path). by rewrite Heq.
Qed.

Lemma within_forOf {A} P (body : A → M (B * FS) unit) (xs : list A) :
  (∀ x, x ∈ xs → writesWithin P (body x)) → writesWithin P (Session.forOf body xs).
Proof.
  induction xs as [|x xs IH]; intros Hb; [apply within_ret|].
  cbn [Session.forOf]. apply within_bind; [apply Hb; by left|].
  intros _. apply IH. intros y Hy. apply Hb. by right.
Qed.

Ltac within_session :=
  repeat first
    [ apply within_consoleLog | apply within_onPage | apply within_sleep
    | apply within_ret | apply within_prompt
    | apply within_tryCatch; [|intros ?]
    | apply within_bind; [|intros ?]
    | match goal with |- writesWithin _ (if ?b then _ else _) => destruct b end ].

Lemma within_pipeline (emojis : list Emoji) (server : Server.t) (dir : string)
    (size : Z) :
  writesWithin (λ path, ∃ e, e ∈ emojis ∧ path = filePath dir server e)
    (downloadAndProcessEmojis (rt := rt0) emojis server dir size).
Proof.
  intros w path. unfold downloadAndProcessEmojis. rewrite forEntries_fs.
  generalize (fs w). induction emojis as [|e emojis IH]; intros s; [done|].
  cbn [foldl]. intros Hne.
  destruct (same_content_dec ((fsStep (rt := rt0) server dir size s e).2 !! path)
              (s.2 !! path)) as [Heq|Hstep].
  - rewrite <- Heq in Hne. destruct (IH _ Hne) as (e' & He' & ->).
    exists e'. split; [by right | done].
  - exists e. split; [by left|]. revert Hstep. unfold fsStep.
    destruct (prewrite size e) as [data|m]; [|done]. cbn.
    destruct (decide (filePath dir server e = path)) as [<-|Hp]; [done|].
    by rewrite lookup_insert_ne.
Qed.

Lemma within_processServer (env : EnvConfig) (server : Server.t) :
  server ∈ servers env →
  writesWithin (cleanDestination env) (Session.processServer (rt := mapRuntime fetch0 sharp0) env server).
Proof.
  intros Hs. unfold Session.processServer.
  apply within_bind; [apply within_consoleLog | intros _].
  apply within_bind; [unfold Session.navigateToServer; within_session | intros _].
  apply within_bind; [unfold Session.navigateToChannel; within_session | intros _].
  apply within_bind; [unfold Session.openEmojiPicker; within_session | intros selector].
  apply (within_bind_post _ (λ emojis, ∃ page, Collector.extractEmojiUrls page = Ok emojis)).
  - unfold Session.extractEmojiUrls.
    apply within_bind; [apply within_consoleLog | intros; apply within_onPage].
  - intros w emojis. unfold Session.extractEmojiUrls, Js.bind, Js.consoleLog,
      Session.onPage. cbn. intros H. by eexists.
  - intros emojis [page Hpage].
    apply within_bind; [apply within_consoleLog | intros _].
    apply within_bind; [apply within_consoleLog | intros _].
    apply within_bind; [|intros _; within_session].
    intros w path Hne.
    destruct (within_pipeline emojis server (outputBaseDir env) (emojiSize env)
                w path Hne) as (e & He & ->).
    pose proof (extract_names_clean page emojis e Hpage He) as Hclean.
    exists server, (name e). split_and!; [done | done |].
    apply filePath_prefix. by apply allNameChars_noChar.
Qed.

Lemma within_run (env : EnvConfig) :
  writesWithin (cleanDestination env)
    (Session.run (rt := mapRuntime fetch0 sharp0) env).
Proof.
  intros w path. rewrite run_unfold, (proj2 (onPage_console _ _)).
  assert (writesWithin (cleanDestination env)
            (Session.steps (rt := mapRuntime fetch0 sharp0) env)) as Hsteps.
  { unfold Session.steps.
    apply within_bind; [unfold Session.loginToDiscord; within_session | intros _].
    apply within_bind; [unfold Session.handle2FA; within_session | intros _].
    apply within_bind; [|intros _; apply within_consoleLog].
    apply within_forOf. intros server Hs. by apply within_processServer. }
  specialize (Hsteps w path).
  by destruct (Session.steps env w) as [[[]|m] w1].
Qed.

(** X23: the whole run, from the login to the closing of the browser,
    creates files in one kind of place only: a file that is not there
    before the run and is there after it lies under the folder of one of
    the configured servers and is called [<name>.webp] for a name made of
    [A-Z a-z 0-9 _ -]. *)
Theorem X23_run_writes_clean_destinations (env : EnvConfig) w (path : string)
    (data : bytes) :
  (fs w).2 !! path = None →
  (fs (Session.run (rt := mapRuntime fetch0 sharp0) env w).2).2 !! path = Some data →
  ∃ server n, server ∈ servers env ∧ allNameChars n = true
    ∧ path = directoryPrefix (outputBaseDir env) (Server.folder server)
             +:+ n +:+ ".webp".
Proof.
  intros Hbefore Hafter. apply (within_run env w path). by rewrite Hbefore, Hafter.
Qed.

End RunFiles.

Lemma X23_run_writes_clean_destinations_witness :
  ∃ server n, server ∈ servers exampleEnv ∧ allNameChars n = true
    ∧ "/srv/emojis/Cozyhive/wave.webp"
      = directoryPrefix (outputBaseDir exampleEnv) (Server.folder server)
        +:+ n +:+ ".webp".
Proof.
  apply (X23_run_writes_clean_destinations (dr := tabDriver) echoCdn copyEncoder
           exampleEnv startWorld "/srv/emojis/Cozyhive/wave.webp"
           [Byte.x52; Byte.x49; Byte.x31]);
    vm_compute; reflexivity.
Defined.

(** ** The positional variant on a map of files *)

Section PositionalFiles.
Context {FS : Type} {rt : Runtime FS}.

Lemma positional_processEmoji_unfold (server : Server.t) (dir : string) (size : Z)
    (total index : nat) (u : string) (w : World FS) :
  (Positional.processEmoji server dir size total index u w).1 = Ok tt
  ∧ fs (Positional.processEmoji server dir size total index u w).2
    = match prewrite size {| url := u; name := "" |} with
      | Ok data => (bunWrite (Positional.filePath dir server index) data (fs w)).2
      | Throw _ => fs w
      end.
Proof.
  unfold prewrite, Positional.processEmoji, Positional.tryBody.
  unfold Js.bind, Js.tryCatch, Js.await, Js.throw, Js.ret, Js.consoleLog,
    Js.consoleError, write, readArrayBuffer. simpl.
  destruct (fetch u) as [response | m]; [|done].
  destruct (ok response); [|done]. simpl.
  destruct (length (arrayBuffer response) =? 0)%nat; [done |]. simpl.
  destruct (sharp _ _ _) as [resized | m]; [|done]. simpl.
  destruct (length resized =? 0)%nat; [done |]. simpl.
  destruct (bunWrite _ resized (fs w)) as [[n | m] fs']; simpl; [|done].
  by destruct (bunFileArrayBuffer _ fs').
Qed.

End PositionalFiles.

Section PositionalMap.
Variable fetch0 : string → result Response.
Variable sharp0 : bytes → bool → Z → result bytes.
Abbreviation rtm := (mapRuntime fetch0 sharp0).
Implicit Types (w : World (gmap string bytes)) (server : Server.t).

Lemma positional_step_lookup server dir size total index u w path :
  fs (Positional.processEmoji (rt := rtm) server dir size total index u w).2 !! path
  = match prewrite (rt := rtm) size {| url := u; name := "" |} with
    | Ok data =>
        if decide (Positional.filePath dir server index = path)
        then Some data else fs w !! path
    | Throw _ => fs w !! path
    end.
Proof.
  rewrite (proj2 (positional_processEmoji_unfold server dir size total index u w)).
  destruct (prewrite size _) as [data|m]; [|done]. cbn.
  case_decide as Hp; [subst path; apply lookup_insert_eq | by apply lookup_insert_ne].
Qed.

Lemma positional_earlier_kept server dir size total (urls : list string) index w j :
  j < index →
  fs (Js.forEntries (Positional.processEmoji (rt := rtm) server dir size total)
        index urls w).2 !! Positional.filePath dir server j
  = fs w !! Positional.filePath dir server j.
Proof.
  revert index w. induction urls as [|u urls IH]; intros index w Hj; [done|].
  cbn [Js.forEntries]. unfold Js.bind.
  pose proof (positional_processEmoji_unfold (rt := rtm) server dir size total
                index u w) as [Hok _].
  pose proof (positional_step_lookup server dir size total index u w
                (Positional.filePath dir server j)) as Hstep.
  destruct (Positional.processEmoji server dir size total index u w) as [r w1].
  cbn [fst snd] in *. subst r. rewrite IH by lia. rewrite Hstep.
  destruct (prewrite size _) as [data|m]; [|done].
  rewrite decide_False; [done|]. intros H%positional_filePath_inj. lia.
Qed.

Lemma positional_forEntries_lookup server dir size total (urls : list string)
    index w i u data :
  urls !! i = Some u →
  prewrite (rt := rtm) size {| url := u; name := "" |} = Ok data →
  fs (Js.forEntries (Positional.processEmoji (rt := rtm) server dir size total)
        index urls w).2 !! Positional.filePath dir server (index + i)
  = Some data.
Proof.
  revert index w i. induction urls as [|u' urls IH]; intros index w i Hi Hpre; [done|].
  cbn [Js.forEntries]. unfold Js.bind.
  pose proof (positional_processEmoji_unfold (rt := rtm) server dir size total
                index u' w) as [Hok _].
  pose proof (positional_step_lookup server dir size total index u' w
                (Positional.filePath dir server index)) as Hstep.
  destruct (Positional.processEmoji server dir size total index u' w) as [r w1].
  cbn [fst snd] in *. subst r. destruct i as [|i].
  - injection Hi as ->. rewrite Nat.add_0_r, positional_earlier_kept by lia.
    rewrite Hstep, Hpre. by rewrite decide_True.
  - replace (index + S i) with (S index + i) by lia. by apply IH.
Qed.

(** X24: the positional variant loses no image: on a file system that
    stores what is written, every item that gets to the write has, after
    the run, the file [emoji_<i+1>.webp] of its own position holding its
    own encoded image, whatever the other items are. *)
Theorem X24_positional_keeps_every_image server (outputBaseDir : string)
    (emojiSize : Z) (emojiUrls : list string) w (i : nat) (u : string)
    (data : bytes) :
  emojiUrls !! i = Some u →
  prewrite (rt := rtm) emojiSize {| url := u; name := "" |} = Ok data →
  fs (Positional.downloadAndProcessEmojis (rt := rtm) emojiUrls server
        outputBaseDir emojiSize w).2
    !! Positional.filePath outputBaseDir server i
  = Some data.
Proof.
  intros Hi Hpre. unfold Positional.downloadAndProcessEmojis.
  by apply (positional_forEntries_lookup _ _ _ _ _ 0 w i u).
Qed.

End PositionalMap.

Lemma X24_positional_keeps_every_image_witness :
  fs (Positional.downloadAndProcessEmojis (rt := mapRuntime echoCdn copyEncoder)
        [url waveEmoji; url otherWave; url waveEmoji] cozy "/srv/emojis" 512
        emptyWorld).2
    !! Positional.filePath "/srv/emojis" cozy 1
  = Some [Byte.x52; Byte.x49; Byte.x37].
Proof.
  apply (X24_positional_keeps_every_image echoCdn copyEncoder cozy "/srv/emojis"
           512%Z [url waveEmoji; url otherWave; url waveEmoji] emptyWorld 1
           (url otherWave));
    vm_compute; reflexivity.
Defined.
